(** * flux-helpers: the image-tag walker and rewriter

    A shallow embedding of [flux-helpers.go] (the structured-block path:
    [findImageBlocks], [BumpTagInValues]) and of its universal successor
    ([findImageBlocksUniversal], [BumpTagInValuesUniversal] and the update
    loop of [BumpMultipleTagsUniversalAndSanitize]), together with the
    semantic-version gate [isValidSemver] both files share. *)

From Stdlib Require Import String Ascii List Bool Arith Lia Permutation.
Import ListNotations.
Local Open Scope string_scope.
Local Open Scope list_scope.

(* ================================================================== *)
(** * Part I: definitions                                              *)
(* ================================================================== *)

(** ** Regular expressions

    [isValidSemver] compiles a pattern and calls [MatchString]. The
    pattern is anchored on both sides, so [MatchString] decides whether
    the whole input belongs to the language of the pattern. A Go string is
    a sequence of bytes; every atom of the pattern is an ASCII byte or an
    ASCII range, so a byte outside ASCII can never be consumed and the
    match can be decided byte by byte. *)

Inductive regexp : Type :=
| Void
| Eps
| Chr (c : ascii)
| Class (ranges : list (ascii * ascii))
| Cat (r1 r2 : regexp)
| Alt (r1 r2 : regexp)
| Star (r : regexp).

(** [r?] and [r+] of the pattern syntax. *)
Definition Opt (r : regexp) : regexp := Alt r Eps.
Definition Plus (r : regexp) : regexp := Cat r (Star r).

Definition in_range (c : ascii) (lohi : ascii * ascii) : bool :=
  Nat.leb (nat_of_ascii (fst lohi)) (nat_of_ascii c) &&
  Nat.leb (nat_of_ascii c) (nat_of_ascii (snd lohi)).

Definition in_class (c : ascii) (ranges : list (ascii * ascii)) : bool :=
  existsb (in_range c) ranges.

Fixpoint nullable (r : regexp) : bool :=
  match r with
  | Void => false
  | Eps => true
  | Chr _ => false
  | Class _ => false
  | Cat r1 r2 => nullable r1 && nullable r2
  | Alt r1 r2 => nullable r1 || nullable r2
  | Star _ => true
  end.

Fixpoint deriv (c : ascii) (r : regexp) : regexp :=
  match r with
  | Void => Void
  | Eps => Void
  | Chr d => if Ascii.eqb c d then Eps else Void
  | Class ranges => if in_class c ranges then Eps else Void
  | Cat r1 r2 =>
      if nullable r1
      then Alt (Cat (deriv c r1) r2) (deriv c r2)
      else Cat (deriv c r1) r2
  | Alt r1 r2 => Alt (deriv c r1) (deriv c r2)
  | Star r1 => Cat (deriv c r1) (Star r1)
  end.

(** [MatchString] for a pattern anchored with [^] and [$]. *)
Fixpoint MatchString (r : regexp) (s : string) : bool :=
  match s with
  | EmptyString => nullable r
  | String c rest => MatchString (deriv c r) rest
  end.

(** The language of a pattern, the reference the matcher is checked
    against. *)
Inductive lang : regexp -> string -> Prop :=
| lang_eps : lang Eps ""
| lang_chr c : lang (Chr c) (String c "")
| lang_class c ranges :
    in_class c ranges = true -> lang (Class ranges) (String c "")
| lang_cat r1 r2 s1 s2 :
    lang r1 s1 -> lang r2 s2 -> lang (Cat r1 r2) (s1 ++ s2)%string
| lang_alt_l r1 r2 s : lang r1 s -> lang (Alt r1 r2) s
| lang_alt_r r1 r2 s : lang r2 s -> lang (Alt r1 r2) s
| lang_star_nil r : lang (Star r) ""
| lang_star_app r s1 s2 :
    lang r s1 -> lang (Star r) s2 -> lang (Star r) (s1 ++ s2)%string.

(** ** isValidSemver

    [^v?\d+\.\d+\.\d+(-[a-zA-Z0-9.-]+)?(\+[a-zA-Z0-9.-]+)?$] *)

Definition re_digit : regexp := Class [("0", "9")]%char.

Definition re_ident : regexp :=
  Class [("a", "z"); ("A", "Z"); ("0", "9"); (".", "."); ("-", "-")]%char.

Definition semverRegex : regexp :=
  Cat (Opt (Chr "v"))
 (Cat (Plus re_digit)
 (Cat (Chr ".")
 (Cat (Plus re_digit)
 (Cat (Chr ".")
 (Cat (Plus re_digit)
 (Cat (Opt (Cat (Chr "-") (Plus re_ident)))
      (Opt (Cat (Chr "+") (Plus re_ident))))))))).

Definition isValidSemver (tag : string) : bool :=
  MatchString semverRegex tag.

(** The format in the words of the specification: an optional leading
    [v], three runs of one or more digits separated by dots, an optional
    [-] with a non-empty run of alphanumerics, dots and hyphens, an
    optional [+] with such a run. The character sets are spelled out
    letter by letter. *)

Definition one_of (alphabet : string) (c : ascii) : bool :=
  existsb (Ascii.eqb c) (list_ascii_of_string alphabet).

Definition is_digit : ascii -> bool := one_of "0123456789".

Definition is_ident_char : ascii -> bool :=
  one_of "abcdefghijklmnopqrstuvwxyzABCDEFGHIJKLMNOPQRSTUVWXYZ0123456789.-".

Definition run_of (f : ascii -> bool) (s : string) : Prop :=
  s <> "" /\ forallb f (list_ascii_of_string s) = true.

Definition semver_format (s : string) : Prop :=
  exists v major minor patch pre build,
    s = (v ++ major ++ "." ++ minor ++ "." ++ patch ++ pre ++ build)%string /\
    (v = "" \/ v = "v") /\
    run_of is_digit major /\ run_of is_digit minor /\ run_of is_digit patch /\
    (pre = "" \/ exists id, pre = ("-" ++ id)%string /\ run_of is_ident_char id) /\
    (build = "" \/ exists id, build = ("+" ++ id)%string /\ run_of is_ident_char id).

(** ** Strings *)

(** [lacks c s]: the byte [c] does not occur in [s]. *)
Definition lacks (c : ascii) (s : string) : Prop :=
  ~ In c (list_ascii_of_string s).

(** [strings.HasPrefix(s, prefix)]. *)
Definition HasPrefix (s pre : string) : bool := String.prefix pre s.

(** [strings.Split(s, sep)] for a separator of one byte: the pieces
    between the occurrences of [sep], never an empty slice. *)
Fixpoint Split (s : string) (sep : ascii) : list string :=
  match s with
  | EmptyString => [""]
  | String c rest =>
      if Ascii.eqb c sep then "" :: Split rest sep
      else match Split rest sep with
           | piece :: pieces => String c piece :: pieces
           | [] => [String c ""]
           end
  end.

(** [fmt.Sprintf("%s:%s", a, b)]. *)
Definition Sprintf_colon (a b : string) : string := (a ++ ":" ++ b)%string.

(** ** The values tree

    [json.Unmarshal] into [map[string]interface{}] yields
    [map[string]interface{}], [[]interface{}], [string], [float64], [bool]
    and [nil]. The code never looks inside a number, which is kept as its
    literal. A mapping is the list of its entries in the order in which
    this run's [range] visits them. Go leaves that order open: the
    statements below hold for every order of the tree a call receives,
    and what a call returns does not depend on it ([changed_same_tree],
    [values_after_same_tree]). Keys of a Go map are unique
    ([well_keyed]). *)

Unset Elimination Schemes.
Inductive node : Type :=
| Null
| Bool (b : bool)
| Num (literal : string)
| Str (s : string)
| Seq (items : list node)
| Mapping (typed : list (string * node)).
Set Elimination Schemes.

Definition fields : Type := list (string * node).

Section NodeInduction.

Variable P : node -> Prop.
Hypothesis P_Null : P Null.
Hypothesis P_Bool : forall b, P (Bool b).
Hypothesis P_Num : forall literal, P (Num literal).
Hypothesis P_Str : forall s, P (Str s).
Hypothesis P_Seq : forall items, Forall P items -> P (Seq items).
Hypothesis P_Mapping :
  forall typed, Forall (fun kv => P (snd kv)) typed -> P (Mapping typed).

Fixpoint node_ind (n : node) : P n :=
  match n with
  | Null => P_Null
  | Bool b => P_Bool b
  | Num literal => P_Num literal
  | Str s => P_Str s
  | Seq items =>
      P_Seq items
        ((fix all (l : list node) : Forall P l :=
            match l with
            | [] => Forall_nil P
            | x :: rest => Forall_cons x (node_ind x) (all rest)
            end) items)
  | Mapping typed =>
      P_Mapping typed
        ((fix all (l : fields) : Forall (fun kv => P (snd kv)) l :=
            match l with
            | [] => Forall_nil _
            | kv :: rest => Forall_cons kv (node_ind (snd kv)) (all rest)
            end) typed)
  end.

End NodeInduction.

(** [typed[key]], with [None] for the missing key. *)
Fixpoint lookup (key : string) (typed : fields) : option node :=
  match typed with
  | [] => None
  | (k, v) :: rest => if String.eqb key k then Some v else lookup key rest
  end.

Definition has_key (key : string) (typed : fields) : bool :=
  existsb (String.eqb key) (map fst typed).

Fixpoint distinct (keys : list string) : bool :=
  match keys with
  | [] => true
  | k :: rest => negb (existsb (String.eqb k) rest) && distinct rest
  end.

Fixpoint well_keyed (n : node) : bool :=
  match n with
  | Mapping typed =>
      distinct (map fst typed) && forallb (fun kv => well_keyed (snd kv)) typed
  | Seq items => forallb well_keyed items
  | _ => true
  end.

(** Two lists of entries can stand for one Go map, visited in two
    orders. [same_tree n n'] holds when [n] and [n'] are the same tree up
    to the order of the entries of their mappings. *)
Inductive same_tree : node -> node -> Prop :=
| same_Null : same_tree Null Null
| same_Bool b : same_tree (Bool b) (Bool b)
| same_Num literal : same_tree (Num literal) (Num literal)
| same_Str s : same_tree (Str s) (Str s)
| same_Seq items items' :
    length items = length items' ->
    (forall i x x',
       nth_error items i = Some x -> nth_error items' i = Some x' ->
       same_tree x x') ->
    same_tree (Seq items) (Seq items')
| same_Mapping typed typed' :
    (forall key, lookup key typed = None <-> lookup key typed' = None) ->
    (forall key v v',
       lookup key typed = Some v -> lookup key typed' = Some v' ->
       same_tree v v') ->
    same_tree (Mapping typed) (Mapping typed').

(** ** References into the tree

    A match holds a Go reference to a map of the tree. The walker runs to
    completion before the first write, and a write only ever stores a
    string, so during one call the map objects are exactly the mappings of
    the tree the call received: a reference is the path from the root to
    that mapping. *)

Inductive step : Type :=
| Key (k : string)
| Idx (i : nat).

Definition path : Type := list step.

Definition step_eqb (a b : step) : bool :=
  match a, b with
  | Key k, Key k' => String.eqb k k'
  | Idx i, Idx i' => Nat.eqb i i'
  | _, _ => false
  end.

Fixpoint path_eqb (p q : path) : bool :=
  match p, q with
  | [], [] => true
  | a :: p', b :: q' => step_eqb a b && path_eqb p' q'
  | _, _ => false
  end.

Fixpoint get_at (p : path) (n : node) : option node :=
  match p with
  | [] => Some n
  | Key k :: q =>
      match n with
      | Mapping typed =>
          match lookup k typed with Some v => get_at q v | None => None end
      | _ => None
      end
  | Idx i :: q =>
      match n with
      | Seq items =>
          match nth_error items i with Some v => get_at q v | None => None end
      | _ => None
      end
  end.

(** An element of the slice of matches. Both walkers append the matched
    map itself ([Block]); the universal one also appends a fresh map with
    the keys ["key"], ["value"] and ["path"] ([Aspire]), whose ["path"]
    is the parent map. *)
Inductive found : Type :=
| Block (self : path)
| Aspire (key value : string) (parent : path).

Definition under (s : step) (m : found) : found :=
  match m with
  | Block p => Block (s :: p)
  | Aspire key value p => Aspire key value (s :: p)
  end.

(** ** findImageBlocks (flux-helpers.go) *)

Fixpoint findImageBlocks_walk (imageName : string) (n : node) : list found :=
  match n with
  | Mapping typed =>
      (match lookup "repository" typed with
       | Some (Str repo) => if String.eqb repo imageName then [Block []] else []
       | _ => []
       end)
      ++ flat_map (fun kv =>
           map (under (Key (fst kv))) (findImageBlocks_walk imageName (snd kv)))
         typed
  | Seq items =>
      (fix each (i : nat) (l : list node) : list found :=
         match l with
         | [] => []
         | item :: rest =>
             map (under (Idx i)) (findImageBlocks_walk imageName item)
             ++ each (S i) rest
         end) 0 items
  | _ => []
  end.

Definition findImageBlocks (values : fields) (imageName : string) : list found :=
  findImageBlocks_walk imageName (Mapping values).

(** ** findImageBlocksUniversal *)

Fixpoint walk (imageName : string) (n : node) : list found :=
  match n with
  | Mapping typed =>
      (match lookup "repository" typed with
       | Some (Str repo) => if String.eqb repo imageName then [Block []] else []
       | _ => []
       end)
      ++ flat_map (fun kv =>
           match snd kv with
           | Str strVal =>
               if HasPrefix strVal (imageName ++ ":")
               then [Aspire (fst kv) strVal []]
               else map (under (Key (fst kv))) (walk imageName (snd kv))
           | _ => map (under (Key (fst kv))) (walk imageName (snd kv))
           end)
         typed
  | Seq items =>
      (fix each (i : nat) (l : list node) : list found :=
         match l with
         | [] => []
         | item :: rest =>
             map (under (Idx i)) (walk imageName item) ++ each (S i) rest
         end) 0 items
  | _ => []
  end.

Definition findImageBlocksUniversal (values : fields) (imageName : string)
  : list found :=
  walk imageName (Mapping values).

(** The parts of [walk], named: the structured check, the body of the
    [range] over a map, the [range] over a slice from index [i] on. *)
Definition walk_block (imageName : string) (typed : fields) : list found :=
  match lookup "repository" typed with
  | Some (Str repo) => if String.eqb repo imageName then [Block []] else []
  | _ => []
  end.

Definition walk_entry (imageName : string) (kv : string * node) : list found :=
  match snd kv with
  | Str strVal =>
      if HasPrefix strVal (imageName ++ ":")
      then [Aspire (fst kv) strVal []]
      else map (under (Key (fst kv))) (walk imageName (snd kv))
  | _ => map (under (Key (fst kv))) (walk imageName (snd kv))
  end.

Fixpoint walk_items (imageName : string) (i : nat) (l : list node)
  : list found :=
  match l with
  | [] => []
  | item :: rest =>
      map (under (Idx i)) (walk imageName item)
      ++ walk_items imageName (S i) rest
  end.

(** ** The store

    The rewriter assigns through the references it holds. The cells it
    has assigned so far are kept in a store, newest first; a cell is a
    map object (its path in the tree the call received) and a key. What a
    map holds at a key is the string last assigned there, or else what the
    tree held ([index]); a map cut off from the tree by an assignment to
    an enclosing ["tag"] keeps its contents, as the Go object does. *)

Definition store : Type := list (path * string * string).

Definition assign (p : path) (key value : string) (st : store) : store :=
  (p, key, value) :: st.

Fixpoint assigned (st : store) (p : path) (key : string) : option string :=
  match st with
  | [] => None
  | (q, k, v) :: rest =>
      if path_eqb p q && String.eqb key k then Some v else assigned rest p key
  end.

(** [m[key]] for the map object [p]. *)
Definition index (values : node) (st : store) (p : path) (key : string)
  : option node :=
  match assigned st p key with
  | Some v => Some (Str v)
  | None =>
      match get_at p values with
      | Some (Mapping typed) => lookup key typed
      | _ => None
      end
  end.

(** [image[key].(string)]. *)
Definition image_string (values : node) (st : store) (image : found)
  (key : string) : option string :=
  match image with
  | Block p =>
      match index values st p key with Some (Str s) => Some s | _ => None end
  | Aspire k v _ =>
      if String.eqb key "key" then Some k
      else if String.eqb key "value" then Some v
      else None
  end.

(** [image[key].(map[string]interface{})]: a reference. *)
Definition image_map (values : node) (st : store) (image : found)
  (key : string) : option path :=
  match image with
  | Block p =>
      match index values st p key with
      | Some (Mapping _) => Some (p ++ [Key key])
      | _ => None
      end
  | Aspire _ _ parent => if String.eqb key "path" then Some parent else None
  end.

(** [image[key] = value]. The record of an [Aspire] match is a map of
    its own, no part of the tree. *)
Definition image_assign (image : found) (key value : string) (st : store)
  : store :=
  match image with
  | Block p => assign p key value st
  | Aspire _ _ _ => st
  end.

(** The tree the caller holds once the assignments of [st] are done. *)

Fixpoint below (s : step) (st : store) : store :=
  match st with
  | [] => []
  | (p, k, v) :: rest =>
      match p with
      | s' :: q => if step_eqb s s' then (q, k, v) :: below s rest
                   else below s rest
      | [] => below s rest
      end
  end.

(** Keys assigned in the map itself that it did not have ([known]). *)
Fixpoint fresh (st : store) (known : list string) : fields :=
  match st with
  | [] => []
  | (p, k, v) :: rest =>
      match p with
      | [] => if existsb (String.eqb k) known then fresh rest known
              else (k, Str v) :: fresh rest (k :: known)
      | _ :: _ => fresh rest known
      end
  end.

Fixpoint readback (st : store) (n : node) : node :=
  match n with
  | Mapping typed =>
      Mapping
        (map (fun kv =>
                (fst kv,
                 match assigned st [] (fst kv) with
                 | Some v => Str v
                 | None => readback (below (Key (fst kv)) st) (snd kv)
                 end))
             typed
         ++ fresh st (map fst typed))
  | Seq items =>
      Seq ((fix each (i : nat) (l : list node) : list node :=
              match l with
              | [] => []
              | item :: rest =>
                  readback (below (Idx i) st) item :: each (S i) rest
              end) 0 items)
  | other => other
  end.

(** The two loops of [readback], named. *)
Fixpoint readback_items (st : store) (i : nat) (l : list node) : list node :=
  match l with
  | [] => []
  | item :: rest =>
      readback (below (Idx i) st) item :: readback_items st (S i) rest
  end.

Definition readback_fields (st : store) (typed : fields) : fields :=
  map (fun kv =>
         (fst kv,
          match assigned st [] (fst kv) with
          | Some v => Str v
          | None => readback (below (Key (fst kv)) st) (snd kv)
          end))
      typed
  ++ fresh st (map fst typed).

(** ** The rewriters *)

(** The lines the functions print. *)
Inductive notice : Type :=
| NoBlockFound
| AlreadyAt
| InvalidVersion
| WouldBump
| Bumped.

(** The variables of the loop: the cells assigned so far, [updated], and
    what was printed (newest first). *)
Record progress : Type := Progress {
  cells : store;
  updated : bool;
  printed : list notice
}.

Definition say (n : notice) (s : progress) : progress :=
  Progress (cells s) (updated s) (n :: printed s).

Definition set_updated (s : progress) : progress :=
  Progress (cells s) true (printed s).

Definition with_cells (st : store) (s : progress) : progress :=
  Progress st (updated s) (printed s).

(** What a call hands back: the two results, the tree as the caller now
    sees it, the cells assigned, and the printed lines in order. *)
Record outcome : Type := Outcome {
  changed : bool;
  err : option string;
  values_after : fields;
  writes : store;
  output : list notice
}.

Section Rewriters.

Variable values : fields.
Variables imageName newVersion : string.
Variable dryRun : bool.

(** One turn of the loop of [BumpTagInValuesUniversal]. *)
Definition bump_universal (s : progress) (image : found) : progress :=
  let image_str := image_string (Mapping values) (cells s) image in
  let structured :=
    match image_str "repository" with
    | Some repo => String.eqb repo imageName
    | None => false
    end in
  if structured then
    (* Case 1: structured image block *)
    let oldTag := match image_str "tag" with Some t => t | None => "" end in
    if String.eqb oldTag newVersion then say AlreadyAt s
    else if negb (isValidSemver newVersion) then say InvalidVersion s
    else if dryRun then set_updated (say WouldBump s)
    else set_updated
           (say Bumped
              (with_cells (image_assign image "tag" newVersion (cells s)) s))
  else
    (* Case 2: Aspire-style string entry *)
    match image_str "key", image_str "value",
          image_map (Mapping values) (cells s) image "path" with
    | Some key, Some val, Some parent =>
        if HasPrefix val (imageName ++ ":") then
          let parts := Split val ":" in
          let oldTag := last parts "" in
          if String.eqb oldTag newVersion then say AlreadyAt s
          else if negb (isValidSemver newVersion) then say InvalidVersion s
          else
            let newImage := Sprintf_colon imageName newVersion in
            if dryRun then set_updated (say WouldBump s)
            else set_updated
                   (say Bumped
                      (with_cells (assign parent key newImage (cells s)) s))
        else s
    | _, _, _ => s
    end.

Definition BumpTagInValuesUniversal : outcome :=
  let matches := findImageBlocksUniversal values imageName in
  if Nat.eqb (length matches) 0 then
    Outcome false None values [] [NoBlockFound]
  else
    let s := fold_left bump_universal matches (Progress [] false []) in
    Outcome (updated s) None (readback_fields (cells s) values) (cells s)
            (rev (printed s)).

(** One turn of the loop of [BumpTagInValues]. *)
Definition bump_structured (s : progress) (image : found) : progress :=
  let image_str := image_string (Mapping values) (cells s) image in
  match image_str "repository" with
  | Some repo =>
      if negb (String.eqb repo imageName) then s
      else
        let oldTag := match image_str "tag" with Some t => t | None => "" end in
        if String.eqb oldTag newVersion then say AlreadyAt s
        else if negb (isValidSemver newVersion) then say InvalidVersion s
        else if dryRun then say WouldBump s
        else say Bumped
               (with_cells (image_assign image "tag" newVersion (cells s)) s)
  | None => s
  end.

Definition BumpTagInValues : outcome :=
  let matches := findImageBlocks values imageName in
  if Nat.eqb (length matches) 0 then
    Outcome false None values [] [NoBlockFound]
  else
    let s := fold_left bump_structured matches (Progress [] false []) in
    Outcome true None (readback_fields (cells s) values) (cells s)
            (rev (printed s)).

End Rewriters.

(** The update loop of [BumpMultipleTagsUniversalAndSanitize] (what lies
    between reading the file and writing it back): one call per entry of
    [updates], taken in the order of this run's [range], each on the tree
    the previous call left. The result is the error, should a call return
    one, or else [updatedCount] and the tree. *)
Fixpoint update_loop (values : fields) (updates : list (string * string))
  (dryRun : bool) (updatedCount : nat) : string + (nat * fields) :=
  match updates with
  | [] => inr (updatedCount, values)
  | (imageName, newVersion) :: rest =>
      let r := BumpTagInValuesUniversal values imageName newVersion dryRun in
      match err r with
      | Some e => inl e
      | None =>
          update_loop (values_after r) rest dryRun
            (if changed r then S updatedCount else updatedCount)
      end
  end.

(** ** What the claims speak of *)

Definition path_of (m : found) : path :=
  match m with
  | Block p => p
  | Aspire _ _ p => p
  end.

(** The tag of a structured block as the rewriter reads it:
    [oldTag, _ := image["tag"].(string)]. *)
Definition tag_of (typed : fields) : string :=
  match lookup "tag" typed with
  | Some (Str t) => t
  | _ => ""
  end.

(** The version after the last colon of an inline reference. *)
Definition version_of (value : string) : string := last (Split value ":") "".

(** The current version of a match in the tree the call received. *)
Definition current (values : node) (m : found) : string :=
  match m with
  | Block p =>
      match get_at p values with
      | Some (Mapping typed) => tag_of typed
      | _ => ""
      end
  | Aspire _ value _ => version_of value
  end.

(** A notice tells an update that was applied or simulated. *)
Definition is_update (n : notice) : bool :=
  match n with
  | WouldBump | Bumped => true
  | _ => false
  end.

(** A notice tells a skip: already current, or invalid version. *)
Definition is_skip (n : notice) : bool :=
  match n with
  | AlreadyAt | InvalidVersion => true
  | _ => false
  end.

(** What a match stands for in the tree [n] it was found in. *)
Definition stands (imageName : string) (n : node) (m : found) : Prop :=
  match m with
  | Block p =>
      exists typed, get_at p n = Some (Mapping typed) /\
                    lookup "repository" typed = Some (Str imageName)
  | Aspire key value p =>
      HasPrefix value (imageName ++ ":") = true /\
      exists typed, get_at p n = Some (Mapping typed) /\
                    lookup key typed = Some (Str value)
  end.

(** [m] does not get in the way of the later match [m']: it is not held
    by the map of a later block, and it is not a second inline match of
    one cell. *)
Definition clear_of (m m' : found) : Prop :=
  match m' with
  | Block p' => path_of m <> p'
  | Aspire key' _ p' =>
      match m with
      | Block _ => True
      | Aspire key _ p => p = p' -> key <> key'
      end
  end.

(** What the rewriter does with a match, told from the tree the call
    received: the line it prints, and the cell it assigns. *)
Definition verdict (values : node) (newVersion : string) (dryRun : bool)
  (m : found) : notice :=
  if String.eqb (current values m) newVersion then AlreadyAt
  else if negb (isValidSemver newVersion) then InvalidVersion
  else if dryRun then WouldBump
  else Bumped.

Definition cell_of (imageName newVersion : string) (m : found)
  : path * string * string :=
  match m with
  | Block p => (p, "tag", newVersion)
  | Aspire key _ p => (p, key, Sprintf_colon imageName newVersion)
  end.

Definition written_by (values : node) (imageName newVersion : string)
  (dryRun : bool) (m : found) : store :=
  match verdict values newVersion dryRun m with
  | Bumped => [cell_of imageName newVersion m]
  | _ => []
  end.

(** No cell of the map object [p] has been assigned. *)
Definition untouched (st : store) (p : path) : Prop :=
  forall key, assigned st p key = None.

(** A match found in the subtree at [p], seen from the root. *)
Definition relocate (p : path) (m : found) : found :=
  match m with
  | Block q => Block (p ++ q)
  | Aspire key value q => Aspire key value (p ++ q)
  end.

Definition is_block (m : found) : bool :=
  match m with
  | Block _ => true
  | Aspire _ _ _ => false
  end.

(** ** Two calls in a row *)

(** A cell of the subtree under [s], seen from the parent. *)
Definition lift_cell (s : step) (c : path * string * string)
  : path * string * string :=
  match c with
  | (q, key, value) => (s :: q, key, value)
  end.

(** An inline reference to [imageName] at another version than
    [newVersion]. *)
Definition stale_inline (imageName newVersion : string) (v : node) : bool :=
  match v with
  | Str s =>
      HasPrefix s (imageName ++ ":")
      && negb (String.eqb (version_of s) newVersion)
  | _ => false
  end.

(** A structured block of [imageName] whose [tag] is itself such an
    inline reference: the one cell that both kinds of match assign. *)
Fixpoint tag_clash (imageName newVersion : string) (n : node) : bool :=
  match n with
  | Mapping typed =>
      match lookup "repository" typed, lookup "tag" typed with
      | Some (Str repo), Some t =>
          String.eqb repo imageName && stale_inline imageName newVersion t
      | _, _ => false
      end
      || existsb (fun kv => tag_clash imageName newVersion (snd kv)) typed
  | Seq items => existsb (tag_clash imageName newVersion) items
  | _ => false
  end.

(** The tree a call without [dry_run] leaves, computed in one pass
    (for a valid [newVersion]; [rewritten_is_readback] shows that it is
    what the loop of the rewriter produces). *)
Definition retagged (imageName newVersion : string) (typed : fields) : bool :=
  match lookup "repository" typed with
  | Some (Str repo) =>
      String.eqb repo imageName && negb (String.eqb (tag_of typed) newVersion)
  | _ => false
  end.

Fixpoint rewritten (imageName newVersion : string) (n : node) : node :=
  match n with
  | Mapping typed =>
      Mapping
        (map (fun kv =>
                (fst kv,
                 if stale_inline imageName newVersion (snd kv)
                 then Str (Sprintf_colon imageName newVersion)
                 else if retagged imageName newVersion typed
                         && String.eqb (fst kv) "tag"
                 then Str newVersion
                 else rewritten imageName newVersion (snd kv)))
             typed
         ++ (if retagged imageName newVersion typed
                && negb (has_key "tag" typed)
             then [("tag", Str newVersion)] else []))
  | Seq items => Seq (map (rewritten imageName newVersion) items)
  | other => other
  end.

(** The parts of [rewritten] at a mapping, named. *)
Definition rewritten_value (imageName newVersion : string) (typed : fields)
  (kv : string * node) : node :=
  if stale_inline imageName newVersion (snd kv)
  then Str (Sprintf_colon imageName newVersion)
  else if retagged imageName newVersion typed && String.eqb (fst kv) "tag"
  then Str newVersion
  else rewritten imageName newVersion (snd kv).

Definition rewritten_extra (imageName newVersion : string) (typed : fields)
  : fields :=
  if retagged imageName newVersion typed && negb (has_key "tag" typed)
  then [("tag", Str newVersion)] else [].

(** A tree with the clash, for two calls in a row. *)
Definition clash_values : fields :=
  [("repository", Str "img"); ("tag", Str "img:1.0.0")].

(** ** Sample trees *)

(** The tree of the example in the specification, with a slice added. *)
Definition sample_values : fields :=
  [("image", Mapping [("repository", Str "ghcr.io/my-org/my-api");
                      ("tag", Str "1.2.3")]);
   ("images", Mapping [("api", Str "ghcr.io/my-org/api:1.3.8")]);
   ("args", Seq [Str "ghcr.io/my-org/api:1.3.8";
                 Mapping [("ref", Str "ghcr.io/my-org/api:1.3.8")]])].

(** A structured block already at the version asked for. *)
Definition settled_values : fields :=
  [("image", Mapping [("repository", Str "busybox"); ("tag", Str "1.45.0")])].

(** Structured blocks without a tag, and with a tag that is no string. *)
Definition untagged_values : fields :=
  [("web", Mapping [("repository", Str "nginx")]);
   ("api", Mapping [("repository", Str "nginx"); ("tag", Num "1.25")])].

(** One mapping in both conventions, without a tag. *)
Definition mixed_values : fields :=
  [("main", Mapping [("repository", Str "img");
                     ("sidecar", Str "img:1.0.0")])].

(** The tree of [sample_values] as another run may visit it. *)
Definition sample_values_shuffled : fields :=
  [("args", Seq [Str "ghcr.io/my-org/api:1.3.8";
                 Mapping [("ref", Str "ghcr.io/my-org/api:1.3.8")]]);
   ("images", Mapping [("api", Str "ghcr.io/my-org/api:1.3.8")]);
   ("image", Mapping [("tag", Str "1.2.3");
                      ("repository", Str "ghcr.io/my-org/my-api")])].

(** The bytes a version that passes [isValidSemver] is made of. *)
Definition is_version_char (c : ascii) : bool :=
  is_ident_char c || Ascii.eqb c "+".

(** ** Go maps, assigned and deleted from *)

(** [m[key] = v]: the entry is replaced where it stands, or added. *)
Fixpoint put {V : Type} (key : string) (v : V) (m : list (string * V))
  : list (string * V) :=
  match m with
  | [] => [(key, v)]
  | (k, w) :: rest =>
      if String.eqb key k then (k, v) :: rest else (k, w) :: put key v rest
  end.

(** [delete(m, key)]. *)
Definition delete {V : Type} (key : string) (m : list (string * V))
  : list (string * V) :=
  filter (fun kv => negb (String.eqb (fst kv) key)) m.

(** ** sanitizeHelmRelease

    [obj] comes from [yaml.Unmarshal] and shares no map with anything
    else: deleting from the map under ["metadata"] is seen through [obj],
    which then holds the smaller map there. *)
Definition sanitizeHelmRelease (obj : fields) : fields :=
  (* Remove .metadata.creationTimestamp *)
  let obj :=
    match lookup "metadata" obj with
    | Some (Mapping metadata) =>
        put "metadata" (Mapping (delete "creationTimestamp" metadata)) obj
    | _ => obj
    end in
  (* Remove empty .status *)
  match lookup "status" obj with
  | Some (Mapping m) =>
      if Nat.eqb (length m) 0 then delete "status" obj else obj
  | _ => obj
  end.

(** A release as [yaml.Marshal] and [yaml.Unmarshal] hand it over. *)
Definition sample_release : fields :=
  [("kind", Str "HelmRelease");
   ("metadata", Mapping [("creationTimestamp", Null); ("name", Str "my-app")]);
   ("spec", Mapping [("interval", Str "5m0s")]);
   ("status", Mapping [])].

(** ** splitArg and the bump command (main.go)

    [strings.TrimSpace] is the library's; the command line is modelled for
    any function in its place. The flags [filePath], [tagArgs] and [dryRun]
    are arguments, and so is the function the command ends up calling. *)

(** [m[key]] for a map of strings, with [None] for the missing key. *)
Fixpoint get {V : Type} (key : string) (m : list (string * V)) : option V :=
  match m with
  | [] => None
  | (k, v) :: rest => if String.eqb key k then Some v else get key rest
  end.

(** The text before and after the first [sep], if there is one. *)
Fixpoint Cut (s : string) (sep : ascii) : option (string * string) :=
  match s with
  | EmptyString => None
  | String c rest =>
      if Ascii.eqb c sep then Some ("", rest)
      else match Cut rest sep with
           | Some (before, after) => Some (String c before, after)
           | None => None
           end
  end.

(** [strings.SplitN(s, sep, 2)] for a separator of one byte. *)
Definition SplitN2 (s : string) (sep : ascii) : list string :=
  match Cut s sep with
  | Some (before, after) => [before; after]
  | None => [s]
  end.

Section CommandLine.

Variable TrimSpace : string -> string.

(** [splitArg]; the nil slice is the empty list. *)
Definition splitArg (s : string) : list string :=
  let parts := SplitN2 s "=" in
  if negb (Nat.eqb (length parts) 2)
     || String.eqb (TrimSpace (nth 0 parts "")) ""
     || String.eqb (TrimSpace (nth 1 parts "")) ""
  then []
  else parts.

(** The loop of [bumpCmd.RunE] that fills [updates]. *)
Fixpoint collect_updates (tagArgs : list string)
  (updates : list (string * string)) : string + list (string * string) :=
  match tagArgs with
  | [] => inr updates
  | set :: rest =>
      match splitArg set with
      | [] =>
          inl ("invalid --set format: " ++ set
               ++ " (expected repo=version)")%string
      | parts =>
          collect_updates rest (put (nth 0 parts "") (nth 1 parts "") updates)
      end
  end.

(** [bumpCmd.RunE], with the function it calls on the file as [Bump]. *)
Definition bumpCmd_RunE
  (Bump : string -> list (string * string) -> bool -> option string)
  (filePath : string) (tagArgs : list string) (dryRun : bool)
  : option string :=
  if String.eqb filePath "" || Nat.eqb (length tagArgs) 0 then
    Some "you must specify --file and at least one --set repo=version"
  else
    match collect_updates tagArgs [] with
    | inl e => Some e
    | inr updates =>
        match Bump filePath updates dryRun with
        | Some e => Some ("failed to bump tags: " ++ e)%string
        | None => None
        end
    end.

End CommandLine.

(** A stand-in for [strings.TrimSpace] in examples only: it drops the six
    ASCII white-space bytes from both ends, as the library does on a
    string of ASCII bytes. The library also drops the other Unicode white
    space, which no example holds; the statements about the code take
    [TrimSpace] as it comes and do not use this stand-in. *)
Definition is_ascii_space (c : ascii) : bool :=
  match nat_of_ascii c with
  | 9 | 10 | 11 | 12 | 13 | 32 => true
  | _ => false
  end.

Fixpoint drop_spaces (l : list ascii) : list ascii :=
  match l with
  | c :: rest => if is_ascii_space c then drop_spaces rest else l
  | [] => []
  end.

Definition TrimSpace_ascii (s : string) : string :=
  string_of_list_ascii
    (rev (drop_spaces (rev (drop_spaces (list_ascii_of_string s))))).

(** ** The functions on the file

    [BumpMultipleTags], [BumpSingleTag] and
    [BumpMultipleTagsUniversalAndSanitize] read a file, decode it, run the
    update loop, and encode and write the result. The file system and the
    YAML and JSON libraries are taken as they come: the functions below
    are modelled for any behaviour of theirs. [updates] is the Go map in
    the order of this run's [range]. *)

(** The loops, with the error a call might return wrapped as the source
    wraps it. *)
Fixpoint structured_updates (values : fields) (updates : list (string * string))
  (dryRun : bool) (updatedCount : nat) : string + (nat * fields) :=
  match updates with
  | [] => inr (updatedCount, values)
  | (imageName, newVersion) :: rest =>
      let r := BumpTagInValues values imageName newVersion dryRun in
      match err r with
      | Some e => inl ("error updating image " ++ imageName ++ ": " ++ e)%string
      | None =>
          structured_updates (values_after r) rest dryRun
            (if changed r then S updatedCount else updatedCount)
      end
  end.

Fixpoint universal_updates (values : fields) (updates : list (string * string))
  (dryRun : bool) (updatedCount : nat) : string + (nat * fields) :=
  match updates with
  | [] => inr (updatedCount, values)
  | (imageName, newVersion) :: rest =>
      let r := BumpTagInValuesUniversal values imageName newVersion dryRun in
      match err r with
      | Some e => inl ("error updating image " ++ imageName ++ ": " ++ e)%string
      | None =>
          universal_updates (values_after r) rest dryRun
            (if changed r then S updatedCount else updatedCount)
      end
  end.

(** How a call ends: with a nil-pointer panic, or by returning its error
    (if any) after having called [os.WriteFile], or not, with a name and
    the data. *)
Inductive ran : Type :=
| Panics
| Returns (err : option string) (wrote : option (string * string)).

Section Files.

Variable HelmRelease : Type.

(** [os.ReadFile] and [os.WriteFile]. *)
Variable ReadFile : string -> string + string.
Variable WriteFile : string -> string -> option string.

(** [yaml.Unmarshal] into a [HelmRelease] and [yaml.Marshal] of one;
    [hr.Spec.Values.Raw] ([None] when [hr.Spec.Values] is nil) and
    [hr.Spec.Values = &apiextv1.JSON{Raw: raw}]. *)
Variable yaml_Unmarshal_HelmRelease : string -> string + HelmRelease.
Variable yaml_Marshal_HelmRelease : HelmRelease -> string + string.
Variable Spec_Values_Raw : HelmRelease -> option string.
Variable with_Spec_Values : HelmRelease -> string -> HelmRelease.

(** [json.Unmarshal] into the values, [json.Marshal] of them (its error
    is dropped), and [yaml] from and to a generic map. *)
Variable json_Unmarshal_values : string -> string + fields.
Variable json_Marshal_values : fields -> string.
Variable yaml_Unmarshal_map : string -> string + fields.
Variable yaml_Marshal_map : fields -> string + string.

Definition BumpMultipleTags (filePath : string)
  (updates : list (string * string)) (dryRun : bool) : ran :=
  match ReadFile filePath with
  | inl e => Returns (Some ("failed to read file: " ++ e)%string) None
  | inr data =>
  match yaml_Unmarshal_HelmRelease data with
  | inl e => Returns (Some ("failed to unmarshal HelmRelease: " ++ e)%string) None
  | inr hr =>
  match Spec_Values_Raw hr with
  | None => Panics
  | Some raw =>
  match json_Unmarshal_values raw with
  | inl e => Returns (Some ("failed to parse .spec.values: " ++ e)%string) None
  | inr values =>
  match structured_updates values updates dryRun 0 with
  | inl e => Returns (Some e) None
  | inr (updatedCount, values) =>
      if dryRun then Returns None None
      else if Nat.eqb updatedCount 0 then Returns None None
      else
        (* Update and write file *)
        let raw := json_Marshal_values values in
        let hr := with_Spec_Values hr raw in
        match yaml_Marshal_HelmRelease hr with
        | inl e =>
            Returns
              (Some ("failed to marshal updated HelmRelease: " ++ e)%string)
              None
        | inr newYAML =>
            match WriteFile filePath newYAML with
            | Some e =>
                Returns (Some ("failed to write updated file: " ++ e)%string)
                        (Some (filePath, newYAML))
            | None => Returns None (Some (filePath, newYAML))
            end
        end
  end end end end end.

Definition BumpSingleTag (filePath imageName newVersion : string)
  (dryRun : bool) : ran :=
  BumpMultipleTags filePath [(imageName, newVersion)] dryRun.

Definition BumpMultipleTagsUniversalAndSanitize (filePath : string)
  (updates : list (string * string)) (dryRun : bool) : ran :=
  match ReadFile filePath with
  | inl e => Returns (Some ("failed to read file: " ++ e)%string) None
  | inr data =>
  match yaml_Unmarshal_HelmRelease data with
  | inl e => Returns (Some ("failed to unmarshal HelmRelease: " ++ e)%string) None
  | inr hr =>
  match Spec_Values_Raw hr with
  | None => Panics
  | Some raw =>
  match json_Unmarshal_values raw with
  | inl e => Returns (Some ("failed to parse .spec.values: " ++ e)%string) None
  | inr values =>
  match universal_updates values updates dryRun 0 with
  | inl e => Returns (Some e) None
  | inr (updatedCount, values) =>
      if dryRun then Returns None None
      else if Nat.eqb updatedCount 0 then Returns None None
      else
        (* Update .spec.values *)
        let raw := json_Marshal_values values in
        let hr := with_Spec_Values hr raw in
        (* Marshal to YAML, then sanitize before final write *)
        match yaml_Marshal_HelmRelease hr with
        | inl e =>
            Returns
              (Some ("failed to marshal updated HelmRelease: " ++ e)%string)
              None
        | inr yamlBytes =>
        (* Re-unmarshal to generic map to sanitize *)
        match yaml_Unmarshal_map yamlBytes with
        | inl e =>
            Returns
              (Some ("failed to unmarshal for sanitization: " ++ e)%string)
              None
        | inr hrMap =>
        match yaml_Marshal_map (sanitizeHelmRelease hrMap) with
        | inl e =>
            Returns
              (Some ("failed to marshal sanitized HelmRelease: " ++ e)%string)
              None
        | inr newYAML =>
            match WriteFile filePath newYAML with
            | Some e =>
                Returns (Some ("failed to write updated file: " ++ e)%string)
                        (Some (filePath, newYAML))
            | None => Returns None (Some (filePath, newYAML))
            end
        end end end
  end end end end end.

End Files.

(** ** InjectImagePullSecrets *)

Definition newline : ascii := "010"%char.

Definition nl : string := String newline "".

(** The text the loop writes after the [spec:] line. *)
Definition imagePullSecrets_lines : list string :=
  ["      {{- if .Values.image.imagePullSecret }}";
   "      imagePullSecrets:";
   "        - name: {{ .Values.image.imagePullSecret }}";
   "      {{- end }}"].

Definition imagePullSecrets_block : string :=
  ("      {{- if .Values.image.imagePullSecret }}" ++ nl ++
   "      imagePullSecrets:" ++ nl ++
   "        - name: {{ .Values.image.imagePullSecret }}" ++ nl ++
   "      {{- end }}" ++ nl)%string.

(** [strings.Contains(s, substr)]. *)
Fixpoint Contains (s substr : string) : bool :=
  HasPrefix s substr ||
  match s with
  | EmptyString => false
  | String _ rest => Contains rest substr
  end.

(** Lines, each followed by a line feed, one after the other. *)
Fixpoint unlines (lines : list string) : string :=
  match lines with
  | [] => ""
  | line :: rest => (line ++ nl ++ unlines rest)%string
  end.

(** Step 3 on the decoded values ([None] is the nil map of an empty
    document): the key is there already, or it is added and the values
    are to be written, or the assignment to [values["image"]] meets a nil
    map. *)
Inductive ensured : Type :=
| AlreadyExists
| Added (values : fields)
| NilMap.

Definition ensure_imagePullSecret (values : option fields) : ensured :=
  let imageBlock :=
    match values with
    | Some vs =>
        match lookup "image" vs with
        | Some (Mapping m) => m
        | _ => []
        end
    | None => []
    end in
  match lookup "imagePullSecret" imageBlock with
  | None =>
      let imageBlock := put "imagePullSecret" (Str "") imageBlock in
      match values with
      | Some vs => Added (put "image" (Mapping imageBlock) vs)
      | None => NilMap
      end
  | Some _ => AlreadyExists
  end.

(** A file of the chart. *)
Record File : Type := { Name : string; Data : string }.

(** How a call of [InjectImagePullSecrets] ends: the calls of
    [os.WriteFile] it made, oldest first, and then a panic or the error
    returned, if any. *)
Inductive ended : Type :=
| Panicked (writes : list (string * string))
| Returned (err : option string) (writes : list (string * string)).

Definition writes_of (r : ended) : list (string * string) :=
  match r with
  | Panicked writes => writes
  | Returned _ writes => writes
  end.

Section Inject.

(** [strings.TrimSpace] and [filepath.Join]. *)
Variable TrimSpace : string -> string.
Variable Join : string -> string -> string.

(** The state of the loop over the lines of a template. *)
Record scan : Type := Scan {
  buf : string;
  injected : bool;
  insideTemplate : bool
}.

Definition is_template_line (line : string) : bool :=
  HasPrefix (TrimSpace line) "template:".

(** One turn of the loop over the lines. *)
Definition inject_line (s : scan) (line : string) : scan :=
  let s := Scan (buf s ++ (line ++ nl))%string (injected s) (insideTemplate s) in
  let trimmed := TrimSpace line in
  if HasPrefix trimmed "template:" then
    Scan (buf s) (injected s) true
  else
    (* Only inject after entering template and finding its `spec:` *)
    if insideTemplate s && String.eqb trimmed "spec:" && negb (injected s)
    then Scan (buf s ++ imagePullSecrets_block)%string true (insideTemplate s)
    else s.

(** What [tmpl.Data] becomes. *)
Definition inject_template (data : string) : string :=
  buf (fold_left inject_line (Split data newline) (Scan "" false false)).

(** The chart and the libraries: [loader.Load]; the templates of a chart,
    which the loop changes through their pointers; [os.ReadFile] and
    [os.WriteFile], which may answer by the writes made before;
    [yaml.Unmarshal] and [yaml.Marshal]; [chartutil.ToRenderValues] and
    [engine.Render]. *)
Variable Chart : Type.
Variable RenderValues : Type.
Variable loader_Load : string -> string + Chart.
Variable Templates : Chart -> list File.
Variable with_Templates : Chart -> list File -> Chart.
Variable ReadFile : list (string * string) -> string -> string + string.
Variable WriteFile : list (string * string) -> string -> string -> option string.
Variable yaml_Unmarshal : string -> string + option fields.
Variable yaml_Marshal : fields -> string + string.
Variable ToRenderValues : Chart -> option fields -> string + RenderValues.
Variable Render : Chart -> RenderValues -> string + list (string * string).

(** Step 2: the loop over the templates; the error, if a write fails, the
    templates as the loop leaves them, and the writes made. *)
Fixpoint inject_templates (chartDir : string) (templates : list File)
  (log : list (string * string))
  : option string * list File * list (string * string) :=
  match templates with
  | [] => (None, [], log)
  | tmpl :: rest =>
      if Contains (Name tmpl) "deployment.yaml" then
        let data := inject_template (Data tmpl) in
        let tmpl := {| Name := Name tmpl; Data := data |} in
        let outPath := Join chartDir (Name tmpl) in
        match WriteFile log outPath (Data tmpl) with
        | Some e =>
            (Some ("failed to write updated deployment.yaml: " ++ e)%string,
             tmpl :: rest, log ++ [(outPath, Data tmpl)])
        | None =>
            let '(e, rest, log) :=
              inject_templates chartDir rest (log ++ [(outPath, Data tmpl)]) in
            (e, tmpl :: rest, log)
        end
      else
        let '(e, rest, log) := inject_templates chartDir rest log in
        (e, tmpl :: rest, log)
  end.

(** Step 4: the chart is rendered; what is rendered is only printed. *)
Definition render_preview (ch : Chart) (values : option fields)
  (log : list (string * string)) : ended :=
  match ToRenderValues ch values with
  | inl e => Returned (Some ("failed to prepare render values: " ++ e)%string) log
  | inr valsMerged =>
      match Render ch valsMerged with
      | inl e => Returned (Some ("failed to render chart: " ++ e)%string) log
      | inr _ => Returned None log
      end
  end.

Definition InjectImagePullSecrets (chartDir : string) : ended :=
  (* Step 1: Load the chart *)
  match loader_Load chartDir with
  | inl e =>
      Returned (Some ("failed to load chart at " ++ chartDir ++ ": " ++ e)%string)
               []
  | inr ch =>
  (* Step 2: Inject conditional into deployment.yaml *)
  match inject_templates chartDir (Templates ch) [] with
  | (Some e, _, log) => Returned (Some e) log
  | (None, templates, log) =>
  let ch := with_Templates ch templates in
  (* Step 3: Ensure image.imagePullSecret in values.yaml *)
  let valuesPath := Join chartDir "values.yaml" in
  match ReadFile log valuesPath with
  | inl e => Returned (Some ("failed to read values.yaml: " ++ e)%string) log
  | inr rawVals =>
  match yaml_Unmarshal rawVals with
  | inl e => Returned (Some ("invalid YAML in values.yaml: " ++ e)%string) log
  | inr values =>
  match ensure_imagePullSecret values with
  | NilMap => Panicked log
  | Added values =>
      match yaml_Marshal values with
      | inl e =>
          Returned (Some ("failed to marshal updated values.yaml: " ++ e)%string)
                   log
      | inr updated =>
          match WriteFile log valuesPath updated with
          | Some e =>
              Returned (Some ("failed to write values.yaml: " ++ e)%string)
                       (log ++ [(valuesPath, updated)])
          | None =>
              (* Step 4: Render chart with values for preview *)
              render_preview ch (Some values) (log ++ [(valuesPath, updated)])
          end
      end
  | AlreadyExists => render_preview ch values log
  end end end end end.

End Inject.

(** The writes of step 2 when none fails: one per template whose name
    holds [deployment.yaml], in the order of the templates. *)
Definition template_writes (TrimSpace : string -> string)
  (Join : string -> string -> string) (chartDir : string)
  (templates : list File) : list (string * string) :=
  map (fun tmpl =>
         (Join chartDir (Name tmpl), inject_template TrimSpace (Data tmpl)))
      (filter (fun tmpl => Contains (Name tmpl) "deployment.yaml") templates).

(** A deployment template, for examples. *)
Definition sample_deployment : string :=
  ("kind: Deployment" ++ nl ++
   "spec:" ++ nl ++
   "  template:" ++ nl ++
   "    spec:" ++ nl ++
   "      containers: []")%string.

(** ** Images in the structured convention only *)

(** [is_inline imageName v]: the value is a string that starts with
    [imageName:]. *)
Definition is_inline (imageName : string) (v : node) : bool :=
  match v with
  | Str s => HasPrefix s (imageName ++ ":")
  | _ => false
  end.

Definition is_container (v : node) : bool :=
  match v with
  | Mapping _ | Seq _ => true
  | _ => false
  end.

(** A mapping whose [repository] is [imageName] holds no map and no slice
    under [tag]. *)
Definition scalar_tag (imageName : string) (typed : fields) : bool :=
  match lookup "repository" typed, lookup "tag" typed with
  | Some (Str repo), Some t =>
      negb (String.eqb repo imageName && is_container t)
  | _, _ => true
  end.

(** [plain imageName n]: the tree holds the image in the structured
    convention only. No string of a mapping starts with [imageName:], and
    the [tag] of a block of the image, if any, is a scalar. *)
Fixpoint plain (imageName : string) (n : node) : bool :=
  match n with
  | Mapping typed =>
      scalar_tag imageName typed
      && forallb (fun kv => negb (is_inline imageName (snd kv))
                            && plain imageName (snd kv)) typed
  | Seq items => forallb (plain imageName) items
  | _ => true
  end.

(** [pending imageName newVersion n]: the tree holds a match that is not
    at [newVersion]. *)
Fixpoint pending (imageName newVersion : string) (n : node) : bool :=
  match n with
  | Mapping typed =>
      retagged imageName newVersion typed
      || existsb (fun kv => stale_inline imageName newVersion (snd kv)
                            || pending imageName newVersion (snd kv)) typed
  | Seq items => existsb (pending imageName newVersion) items
  | _ => false
  end.

(** The [repository] of a mapping, when it is a string. *)
Definition repository_of (typed : fields) : option string :=
  match lookup "repository" typed with
  | Some (Str repo) => Some repo
  | _ => None
  end.

(** The values of a release that holds its images in structured blocks
    only, at several depths. *)
Definition multiple_bump_values : fields :=
  [("image", Mapping [("repository", Str "ghcr.io/my-org/my-api");
                      ("tag", Str "1.7.99")]);
   ("initContainers",
    Seq [Mapping [("image", Mapping [("repository", Str "busybox");
                                     ("tag", Str "1.45.0")]);
                  ("name", Str "setup")]]);
   ("nested",
    Mapping [("deeper",
              Mapping [("evenDeeper",
                        Mapping [("image",
                                  Mapping [("repository", Str "alpine");
                                           ("tag", Str "5.99.9")])])])]);
   ("sidecar", Mapping [("image", Mapping [("repository", Str "envoyproxy/envoy");
                                           ("tag", Str "1.26.5")])])].

(* ================================================================== *)
(** * Part II: theorems                                                *)
(* ================================================================== *)

(** ** The matcher decides the language *)

Section RegexpFacts.
Local Open Scope string_scope.

Lemma append_nil_r (s : string) : s ++ "" = s.
Proof. induction s; simpl; congruence. Qed.

Lemma append_assoc (a b c : string) : (a ++ b) ++ c = a ++ b ++ c.
Proof. induction a; simpl; congruence. Qed.

Lemma append_eq_nil (a b : string) : a ++ b = "" -> a = "" /\ b = "".
Proof. destruct a; simpl; [auto | discriminate]. Qed.

Lemma nullable_lang (r : regexp) : nullable r = true <-> lang r "".
Proof.
  split.
  - induction r; simpl; intros H; try discriminate.
    + constructor.
    + apply andb_true_iff in H as [H1 H2].
      change "" with ("" ++ ""). constructor; auto.
    + apply orb_true_iff in H as [H | H];
        [apply lang_alt_l | apply lang_alt_r]; auto.
    + constructor.
  - intros H. remember "" as s eqn:Es.
    induction H; simpl; try discriminate; auto.
    + apply append_eq_nil in Es as [-> ->].
      rewrite IHlang1, IHlang2; auto.
    + rewrite IHlang; auto.
    + rewrite IHlang, orb_true_r; auto.
Qed.

Lemma star_uncons (r : regexp) (c : ascii) (s : string) :
  lang (Star r) (String c s) ->
  exists s1 s2, s = s1 ++ s2 /\ lang r (String c s1) /\ lang (Star r) s2.
Proof.
  intros H. remember (Star r) as r' eqn:Er. remember (String c s) as w eqn:Ew.
  revert c s Ew. induction H; intros c' w' Ew; try discriminate.
  injection Er as ->.
  destruct s1 as [| d s1].
  - simpl in Ew. eapply IHlang2; eauto.
  - simpl in Ew. injection Ew as -> <-.
    exists s1, s2. auto.
Qed.

Lemma deriv_lang (r : regexp) :
  forall c s, lang (deriv c r) s <-> lang r (String c s).
Proof.
  induction r; intros c' s; simpl.
  - split; inversion 1.
  - split; inversion 1.
  - destruct (Ascii.eqb_spec c' c) as [-> | Hne].
    + split; inversion 1; subst; constructor.
    + split; inversion 1; subst; congruence.
  - destruct (in_class c' ranges) eqn:Hc.
    + split; inversion 1; subst; constructor; auto.
    + split; inversion 1; subst; congruence.
  - destruct (nullable r1) eqn:Hn.
    + split.
      * inversion 1 as [| | | | ? ? ? Hl | ? ? ? Hr | |]; subst.
        -- inversion Hl; subst.
           change (String c' (s1 ++ s2)) with (String c' s1 ++ s2).
           constructor; auto. apply IHr1; auto.
        -- change (String c' s) with ("" ++ String c' s).
           constructor; [apply nullable_lang; auto | apply IHr2; auto].
      * inversion 1 as [| | | ? ? s1 s2 H1 H2 | | | |]; subst.
        destruct s1 as [| d s1]; simpl in *.
        -- subst. apply lang_alt_r. apply IHr2; auto.
        -- match goal with E : String _ _ = String _ _ |- _ =>
             injection E as -> <- end.
           apply lang_alt_l. constructor; auto. apply IHr1; auto.
    + split.
      * inversion 1; subst.
        change (String c' (s1 ++ s2)) with (String c' s1 ++ s2).
        constructor; auto. apply IHr1; auto.
      * inversion 1 as [| | | ? ? s1 s2 H1 H2 | | | |]; subst.
        destruct s1 as [| d s1]; simpl in *.
        -- apply nullable_lang in H1. congruence.
        -- match goal with E : String _ _ = String _ _ |- _ =>
             injection E as -> <- end.
           constructor; auto. apply IHr1; auto.
  - split.
    + inversion 1; subst;
        [apply lang_alt_l; apply IHr1 | apply lang_alt_r; apply IHr2]; auto.
    + inversion 1; subst;
        [apply lang_alt_l; apply IHr1 | apply lang_alt_r; apply IHr2]; auto.
  - split.
    + inversion 1; subst.
      change (String c' (s1 ++ s2)) with (String c' s1 ++ s2).
      constructor; auto. apply IHr; auto.
    + intros H. apply star_uncons in H as (s1 & s2 & -> & H1 & H2).
      constructor; auto. apply IHr; auto.
Qed.

Lemma MatchString_lang (s : string) :
  forall r, MatchString r s = true <-> lang r s.
Proof.
  induction s as [| c s IH]; intros r; simpl.
  - apply nullable_lang.
  - rewrite IH. apply deriv_lang.
Qed.

Lemma lang_cat_inv (r1 r2 : regexp) (s : string) :
  lang (Cat r1 r2) s <-> exists s1 s2, s = s1 ++ s2 /\ lang r1 s1 /\ lang r2 s2.
Proof.
  split.
  - inversion 1; subst; eauto.
  - intros (s1 & s2 & -> & H1 & H2). constructor; auto.
Qed.

Lemma lang_opt_inv (r : regexp) (s : string) :
  lang (Opt r) s <-> s = "" \/ lang r s.
Proof.
  unfold Opt. split.
  - inversion 1 as [| | | | ? ? ? Hl | ? ? ? Hr | |]; subst; auto.
    inversion Hr; auto.
  - intros [-> | H]; [apply lang_alt_r; constructor | apply lang_alt_l; auto].
Qed.

Lemma lang_chr_inv (c : ascii) (s : string) :
  lang (Chr c) s <-> s = String c "".
Proof. split; [inversion 1; auto | intros ->; constructor]. Qed.

Lemma lang_star_class (ranges : list (ascii * ascii)) (s : string) :
  lang (Star (Class ranges)) s <->
  forallb (fun c => in_class c ranges) (list_ascii_of_string s) = true.
Proof.
  split.
  - intros H. remember (Star (Class ranges)) as r eqn:Er.
    induction H; try discriminate; auto.
    injection Er as ->.
    inversion H; subst. simpl. rewrite IHlang2; auto.
    rewrite andb_true_r; auto.
  - induction s as [| c s IH]; simpl; intros H.
    + constructor.
    + apply andb_true_iff in H as [Hc Hs].
      change (String c s) with (String c "" ++ s).
      constructor; auto. constructor; auto.
Qed.

Lemma lang_plus_class (ranges : list (ascii * ascii)) (s : string) :
  lang (Plus (Class ranges)) s <->
  s <> "" /\ forallb (fun c => in_class c ranges) (list_ascii_of_string s) = true.
Proof.
  unfold Plus. rewrite lang_cat_inv. split.
  - intros (s1 & s2 & -> & H1 & H2). inversion H1; subst.
    apply lang_star_class in H2. simpl. split; [discriminate |].
    rewrite H2, andb_true_r; auto.
  - intros [Hne H]. destruct s as [| c s]; [congruence |].
    simpl in H. apply andb_true_iff in H as [Hc Hs].
    exists (String c ""), s. repeat split; auto.
    + constructor; auto.
    + apply lang_star_class; auto.
Qed.

Lemma digit_class (c : ascii) : in_class c [("0", "9")]%char = is_digit c.
Proof. destruct c as [[] [] [] [] [] [] [] []]; vm_compute; reflexivity. Qed.

Lemma ident_class (c : ascii) :
  in_class c [("a", "z"); ("A", "Z"); ("0", "9"); (".", "."); ("-", "-")]%char
  = is_ident_char c.
Proof. destruct c as [[] [] [] [] [] [] [] []]; vm_compute; reflexivity. Qed.

Lemma forallb_ext_fun {A : Type} (f g : A -> bool) (l : list A) :
  (forall a, f a = g a) -> forallb f l = forallb g l.
Proof. intros E. induction l; simpl; congruence. Qed.

Lemma lang_digits (s : string) : lang (Plus re_digit) s <-> run_of is_digit s.
Proof.
  unfold re_digit, run_of. rewrite lang_plus_class.
  rewrite (forallb_ext_fun _ is_digit _ digit_class). tauto.
Qed.

Lemma lang_idents (s : string) :
  lang (Plus re_ident) s <-> run_of is_ident_char s.
Proof.
  unfold re_ident, run_of. rewrite lang_plus_class.
  rewrite (forallb_ext_fun _ is_ident_char _ ident_class). tauto.
Qed.

Lemma lang_tagged_idents (c : ascii) (s : string) :
  lang (Opt (Cat (Chr c) (Plus re_ident))) s <->
  s = "" \/ exists id, s = String c "" ++ id /\ run_of is_ident_char id.
Proof.
  rewrite lang_opt_inv, lang_cat_inv. split.
  - intros [-> | (s1 & s2 & -> & H1 & H2)]; auto.
    apply lang_chr_inv in H1 as ->. apply lang_idents in H2. eauto.
  - intros [-> | (id & -> & H)]; auto.
    right. exists (String c ""), id. repeat split.
    + constructor.
    + apply lang_idents; auto.
Qed.

Lemma semverRegex_format (s : string) :
  lang semverRegex s <-> semver_format s.
Proof.
  unfold semverRegex, semver_format. split.
  - intros H.
    apply lang_cat_inv in H as (v & s1 & -> & Hv & H).
    apply lang_cat_inv in H as (major & s2 & -> & Hmaj & H).
    apply lang_cat_inv in H as (d1 & s3 & -> & Hd1 & H).
    apply lang_cat_inv in H as (minor & s4 & -> & Hmin & H).
    apply lang_cat_inv in H as (d2 & s5 & -> & Hd2 & H).
    apply lang_cat_inv in H as (patch & s6 & -> & Hpat & H).
    apply lang_cat_inv in H as (pre & build & -> & Hpre & Hbuild).
    apply lang_chr_inv in Hd1 as ->. apply lang_chr_inv in Hd2 as ->.
    apply lang_opt_inv in Hv. rewrite lang_chr_inv in Hv.
    apply lang_digits in Hmaj, Hmin, Hpat.
    apply lang_tagged_idents in Hpre, Hbuild.
    exists v, major, minor, patch, pre, build.
    exact (conj eq_refl
            (conj Hv (conj Hmaj (conj Hmin (conj Hpat (conj Hpre Hbuild)))))).
  - intros (v & major & minor & patch & pre & build
            & -> & Hv & Hmaj & Hmin & Hpat & Hpre & Hbuild).
    repeat (apply lang_cat; [| try apply lang_cat]).
    + apply lang_opt_inv. rewrite lang_chr_inv. auto.
    + apply lang_digits; auto.
    + constructor.
    + apply lang_digits; auto.
    + constructor.
    + apply lang_digits; auto.
    + apply lang_tagged_idents; auto.
    + apply lang_tagged_idents; auto.
Qed.

Lemma bytes_append (a b : string) :
  list_ascii_of_string (a ++ b)
  = (list_ascii_of_string a ++ list_ascii_of_string b)%list.
Proof. induction a; simpl; congruence. Qed.

Lemma lacks_append (c : ascii) (a b : string) :
  lacks c (a ++ b) <-> lacks c a /\ lacks c b.
Proof. unfold lacks. rewrite bytes_append, in_app_iff. tauto. Qed.

Lemma first_split_unique (c : ascii) (x : string) :
  forall x' y y',
    lacks c x -> lacks c x' ->
    x ++ String c y = x' ++ String c y' -> x = x' /\ y = y'.
Proof.
  unfold lacks. induction x as [| a x IH]; intros [| a' x'] y y' Hx Hx' E;
    simpl in *.
  - injection E as ->. auto.
  - injection E as <-. tauto.
  - injection E as ->. tauto.
  - injection E as -> E.
    destruct (IH x' y y') as [-> ->]; auto.
Qed.

Lemma run_lacks (f : ascii -> bool) (c : ascii) (s : string) :
  f c = false -> run_of f s -> lacks c s.
Proof.
  intros Hc [_ H] Hin. rewrite forallb_forall in H.
  apply H in Hin. congruence.
Qed.

Lemma semver_components (major minor patch : string) :
  lacks "." major -> lacks "." minor -> lacks "-" patch -> lacks "+" patch ->
  semver_format (major ++ "." ++ minor ++ "." ++ patch) ->
  (run_of is_digit major \/
   exists m, major = "v" ++ m /\ run_of is_digit m) /\
  run_of is_digit minor /\ run_of is_digit patch.
Proof.
  intros Hmaj Hmin Hdash Hplus
    (v & M & m & p & pre & build & E & Hv & HM & Hm & Hp & Hpre & Hbuild).
  rewrite <- (append_assoc v M) in E.
  apply first_split_unique in E as [-> E]; auto.
  2:{ apply lacks_append. split.
      - destruct Hv as [-> | ->]; unfold lacks; simpl; [tauto |].
        intros [H | []]; discriminate.
      - eapply run_lacks; eauto. reflexivity. }
  apply first_split_unique in E as [-> ->]; auto.
  2:{ eapply run_lacks; eauto. reflexivity. }
  apply lacks_append in Hdash as [_ Hdash], Hplus as [_ Hplus].
  apply lacks_append in Hdash as [Hdash _], Hplus as [_ Hplus].
  assert (pre = "") as ->.
  { destruct Hpre as [-> | (id & -> & _)]; auto.
    exfalso. apply Hdash. simpl. auto. }
  assert (build = "") as ->.
  { destruct Hbuild as [-> | (id & -> & _)]; auto.
    exfalso. apply Hplus. simpl. auto. }
  rewrite !append_nil_r. repeat split; try apply Hm; try apply Hp.
  destruct Hv as [-> | ->]; [left; exact HM | right; exists M; auto].
Qed.

End RegexpFacts.

(** ** C6: the semantic-version gate *)

(** C6. [isValidSemver s] is true exactly when [s] is an optional [v],
    then MAJOR.MINOR.PATCH with each component a run of one or more
    digits, then an optional [-] followed by a non-empty run of
    alphanumerics, dots and hyphens, then an optional [+] followed by such
    a run. In particular the empty string is rejected, and a string
    [major.minor.patch] (no dot inside [major] and [minor], no [-] or [+]
    inside [patch]) is accepted only when [minor] and [patch] are
    non-empty runs of digits and [major] is one, possibly after a [v]. *)
Theorem isValidSemver_format :
  (forall s, isValidSemver s = true <-> semver_format s) /\
  isValidSemver "" = false /\
  (forall major minor patch,
     lacks "." major -> lacks "." minor ->
     lacks "-" patch -> lacks "+" patch ->
     isValidSemver (major ++ "." ++ minor ++ "." ++ patch)%string = true ->
     (run_of is_digit major \/
      exists m, major = ("v" ++ m)%string /\ run_of is_digit m) /\
     run_of is_digit minor /\ run_of is_digit patch).
Proof.
  assert (E : forall s, isValidSemver s = true <-> semver_format s).
  { intros s. unfold isValidSemver.
    rewrite MatchString_lang. apply semverRegex_format. }
  split; [exact E | split; [reflexivity |]].
  intros major minor patch H1 H2 H3 H4 Hv.
  apply semver_components; auto. apply E; auto.
Qed.

Lemma isValidSemver_format_witness :
  isValidSemver "v1.2.3-rc.1+build.5" = true /\
  semver_format "v1.2.3-rc.1+build.5".
Proof.
  split; [reflexivity |].
  apply (proj1 isValidSemver_format). reflexivity.
Defined.

(** ** The rewriting loops, turn by turn *)

Section LoopFacts.

Variable values : fields.
Variables imageName newVersion : string.
Variable dryRun : bool.

Let turn := bump_universal values imageName newVersion dryRun.

(** A turn prints at most one line, and sets [updated] exactly when that
    line tells an update. *)
Lemma bump_universal_turn (s : progress) (image : found) :
  turn s image = s \/
  exists n, printed (turn s image) = n :: printed s /\
            updated (turn s image) = (updated s || is_update n)%bool /\
            (is_update n = true \/ is_skip n = true).
Proof.
  unfold turn, bump_universal.
  repeat match goal with
         | |- context [match ?x with _ => _ end] => destruct x
         | |- context [if ?x then _ else _] => destruct x
         end; simpl; auto;
    right; eexists; (split; [reflexivity |]); simpl;
    rewrite ?orb_true_r, ?orb_false_r; auto.
Qed.

Lemma fold_universal_updated (ms : list found) :
  forall s,
    let s' := fold_left turn ms s in
    (exists extra, printed s' = extra ++ printed s /\
       updated s' = (updated s || existsb is_update extra)%bool /\
       forallb (fun n => is_update n || is_skip n)%bool extra = true).
Proof.
  induction ms as [| m ms IH]; intros s; simpl.
  - exists []. simpl. rewrite orb_false_r. auto.
  - destruct (IH (turn s m)) as (extra & Hp & Hu & Hk).
    destruct (bump_universal_turn s m) as [E | (n & Hn & Hun & Hsk)].
    + rewrite E in *. exists extra. auto.
    + exists (extra ++ [n]). repeat split.
      * rewrite Hp, Hn, <- app_assoc. reflexivity.
      * rewrite Hu, Hun, existsb_app. simpl.
        rewrite orb_false_r, <- orb_assoc.
        f_equal. apply orb_comm.
      * rewrite forallb_app, Hk. simpl.
        rewrite andb_true_r. apply orb_true_iff. auto.
Qed.

End LoopFacts.

(** ** The walker *)

Lemma walk_Mapping (imageName : string) (typed : fields) :
  walk imageName (Mapping typed)
  = walk_block imageName typed ++ flat_map (walk_entry imageName) typed.
Proof. reflexivity. Qed.

Lemma walk_Seq (imageName : string) (items : list node) :
  walk imageName (Seq items) = walk_items imageName 0 items.
Proof.
  simpl. generalize 0. induction items as [| x l IH]; intros i; simpl; auto.
  rewrite IH. reflexivity.
Qed.

Lemma path_eqb_eq (p q : path) : path_eqb p q = true <-> p = q.
Proof.
  revert q. induction p as [| a p IH]; intros [| b q]; simpl;
    try (split; [discriminate | discriminate]); try tauto.
  rewrite andb_true_iff, IH. split.
  - intros [E ->]. f_equal.
    destruct a, b; simpl in E; try discriminate.
    + apply String.eqb_eq in E. congruence.
    + apply Nat.eqb_eq in E. congruence.
  - intros [= -> ->]. split; auto.
    destruct b; simpl; [apply String.eqb_refl | apply Nat.eqb_refl].
Qed.

Lemma path_eqb_refl (p : path) : path_eqb p p = true.
Proof. apply path_eqb_eq. reflexivity. Qed.

Lemma path_eqb_neq (p q : path) : p <> q -> path_eqb p q = false.
Proof.
  intros H. destruct (path_eqb p q) eqn:E; auto.
  apply path_eqb_eq in E. contradiction.
Qed.

Lemma existsb_eqb_In (k : string) (ks : list string) :
  existsb (String.eqb k) ks = true <-> In k ks.
Proof.
  rewrite existsb_exists. split.
  - intros (x & Hin & E). apply String.eqb_eq in E. subst. auto.
  - intros H. exists k. split; auto. apply String.eqb_refl.
Qed.

Lemma distinct_NoDup (ks : list string) : distinct ks = true <-> NoDup ks.
Proof.
  induction ks as [| k ks IH]; simpl.
  - split; auto. constructor.
  - rewrite andb_true_iff, negb_true_iff, IH. split.
    + intros [Hn Hd]. constructor; auto.
      rewrite <- existsb_eqb_In. congruence.
    + inversion 1; subst. split; auto.
      destruct (existsb (String.eqb k) ks) eqn:E; auto.
      apply existsb_eqb_In in E. contradiction.
Qed.

Lemma lookup_In (key : string) (typed : fields) (v : node) :
  lookup key typed = Some v -> In (key, v) typed.
Proof.
  induction typed as [| [k w] rest IH]; simpl; [discriminate |].
  destruct (String.eqb_spec key k) as [-> | Hne].
  - intros [= ->]. auto.
  - auto.
Qed.

Lemma In_lookup (key : string) (typed : fields) (v : node) :
  NoDup (map fst typed) -> In (key, v) typed -> lookup key typed = Some v.
Proof.
  induction typed as [| [k w] rest IH]; simpl; [tauto |].
  inversion 1 as [| ? ? Hn Hd]; subst.
  intros [[= -> ->] | Hin].
  - rewrite String.eqb_refl. reflexivity.
  - destruct (String.eqb_spec key k) as [-> | Hne]; auto.
    exfalso. apply Hn. apply (in_map fst) in Hin. exact Hin.
Qed.

Lemma lookup_None (key : string) (typed : fields) :
  lookup key typed = None <-> ~ In key (map fst typed).
Proof.
  induction typed as [| [k w] rest IH]; simpl; [tauto |].
  destruct (String.eqb_spec key k) as [-> | Hne].
  - split; [discriminate | tauto].
  - rewrite IH. split; [intros H [E | Hin]; [congruence | tauto] | tauto].
Qed.

Lemma well_keyed_Mapping (typed : fields) :
  well_keyed (Mapping typed) = true <->
  NoDup (map fst typed) /\ forall k v, In (k, v) typed -> well_keyed v = true.
Proof.
  simpl. rewrite andb_true_iff, distinct_NoDup, forallb_forall.
  split; intros [Hd Hall]; split; auto.
  - intros k v Hin. apply (Hall (k, v)). auto.
  - intros [k v] Hin. eauto.
Qed.

Lemma well_keyed_Seq (items : list node) :
  well_keyed (Seq items) = true <->
  forall x, In x items -> well_keyed x = true.
Proof. simpl. apply forallb_forall. Qed.

(** Shape of the matches of an entry and of a slice. *)

Lemma walk_entry_In (imageName : string) (k : string) (v : node) (m : found) :
  In m (walk_entry imageName (k, v)) ->
  (exists s, v = Str s /\ HasPrefix s (imageName ++ ":") = true /\
             m = Aspire k s []) \/
  (exists m0, In m0 (walk imageName v) /\ m = under (Key k) m0 /\
              (forall s, v = Str s -> HasPrefix s (imageName ++ ":") = false)).
Proof.
  unfold walk_entry. simpl.
  destruct v; try (intros H; apply in_map_iff in H as (m0 & <- & H);
                   right; exists m0; repeat split; auto; discriminate).
  destruct (HasPrefix s (imageName ++ ":")) eqn:E.
  - intros [<- | []]. left. eauto.
  - simpl. tauto.
Qed.

Lemma walk_items_In (imageName : string) (l : list node) :
  forall i m,
    In m (walk_items imageName i l) <->
    exists j x m0, nth_error l j = Some x /\ In m0 (walk imageName x) /\
                   m = under (Idx (i + j)) m0.
Proof.
  induction l as [| x l IH]; intros i m; simpl.
  - split; [tauto |]. intros ([| j] & y & m0 & H & _); discriminate.
  - rewrite in_app_iff, in_map_iff, IH. split.
    + intros [(m0 & <- & H) | (j & y & m0 & Hn & H & ->)].
      * exists 0, x, m0. rewrite Nat.add_0_r. auto.
      * exists (S j), y, m0. rewrite Nat.add_succ_r. auto.
    + intros ([| j] & y & m0 & Hn & H & ->); simpl in Hn.
      * injection Hn as ->. left. exists m0. rewrite Nat.add_0_r. auto.
      * right. exists j, y, m0. rewrite Nat.add_succ_r. auto.
Qed.

(** Every match stands for what the walker saw. *)

Lemma stands_under_Key (imageName : string) (typed : fields) (k : string)
  (v : node) (m : found) :
  lookup k typed = Some v ->
  stands imageName v m -> stands imageName (Mapping typed) (under (Key k) m).
Proof.
  intros Hl. destruct m as [p | key value p]; simpl; rewrite Hl; auto.
Qed.

Lemma stands_under_Idx (imageName : string) (items : list node) (i : nat)
  (x : node) (m : found) :
  nth_error items i = Some x ->
  stands imageName x m -> stands imageName (Seq items) (under (Idx i) m).
Proof.
  intros Hn. destruct m as [p | key value p]; simpl; rewrite Hn; auto.
Qed.

Lemma walk_block_In (imageName : string) (typed : fields) (m : found) :
  In m (walk_block imageName typed) <->
  m = Block [] /\ lookup "repository" typed = Some (Str imageName).
Proof.
  unfold walk_block.
  destruct (lookup "repository" typed) as [[| | | repo | |] |];
    try (simpl; split; [tauto | intros [_ H]; discriminate]).
  destruct (String.eqb_spec repo imageName) as [-> | Hne]; simpl.
  - split; [intros [<- | []]; auto | intros [-> _]; auto].
  - split; [tauto | intros [_ [= E]]; congruence].
Qed.

Lemma walk_stands (imageName : string) (n : node) :
  well_keyed n = true ->
  forall m, In m (walk imageName n) -> stands imageName n m.
Proof.
  induction n as [| | | | items IH | typed IH] using node_ind;
    intros Hwf m Hin; try (simpl in Hin; tauto).
  - rewrite walk_Seq in Hin.
    apply walk_items_In in Hin as (j & x & m0 & Hn & Hm0 & ->).
    rewrite Forall_forall in IH. rewrite well_keyed_Seq in Hwf.
    apply nth_error_In in Hn as Hx.
    apply stands_under_Idx with (x := x); auto.
  - rewrite walk_Mapping, in_app_iff in Hin.
    apply well_keyed_Mapping in Hwf as [Hnd Hall].
    destruct Hin as [Hin | Hin].
    + apply walk_block_In in Hin as [-> Hrepo]. simpl. eauto.
    + apply in_flat_map in Hin as ([k v] & Hkv & Hin).
      pose proof (In_lookup k typed v Hnd Hkv) as Hl.
      apply walk_entry_In in Hin as [(s & -> & Hpre & ->) | (m0 & Hm0 & -> & _)].
      * simpl. eauto.
      * rewrite Forall_forall in IH.
        apply stands_under_Key with (v := v); auto.
        apply (IH (k, v)); eauto.
Qed.

(** The matches come in an order in which none gets in the way of a
    later one. *)

Lemma FOP_app {A : Type} (R : A -> A -> Prop) (l1 l2 : list A) :
  ForallOrdPairs R (l1 ++ l2) <->
  ForallOrdPairs R l1 /\ ForallOrdPairs R l2 /\
  (forall a b, In a l1 -> In b l2 -> R a b).
Proof.
  induction l1 as [| x l1 IH]; simpl.
  - split; [intros H; repeat split; auto; [constructor | tauto] | tauto].
  - split.
    + inversion 1 as [| ? ? Hx Hrest]; subst.
      apply IH in Hrest as (H1 & H2 & H12).
      rewrite Forall_app in Hx. destruct Hx as [Hx1 Hx2].
      repeat split; auto; [constructor; auto |].
      intros a b [<- | Ha] Hb; auto.
      rewrite Forall_forall in Hx2. auto.
    + intros (H1 & H2 & H12). inversion H1 as [| ? ? Hx Hrest]; subst.
      constructor.
      * apply Forall_app. split; auto.
        apply Forall_forall. intros b Hb. apply H12; auto.
      * apply IH. repeat split; auto.
Qed.

Lemma path_of_under (s : step) (m : found) : path_of (under s m) = s :: path_of m.
Proof. destruct m; reflexivity. Qed.

Lemma clear_of_under (s : step) (m m' : found) :
  clear_of m m' -> clear_of (under s m) (under s m').
Proof.
  destruct m as [p | k v p], m' as [p' | k' v' p']; simpl; auto.
  - congruence.
  - congruence.
  - intros H [= E]. auto.
Qed.

Lemma clear_of_apart (m m' : found) :
  path_of m <> path_of m' -> clear_of m m'.
Proof.
  destruct m as [p | k v p], m' as [p' | k' v' p']; simpl; auto;
    intros H E; contradiction.
Qed.

Lemma FOP_map_under (s : step) (ms : list found) :
  ForallOrdPairs clear_of ms -> ForallOrdPairs clear_of (map (under s) ms).
Proof.
  induction 1 as [| m ms Hm Hms IH]; simpl; constructor; auto.
  rewrite Forall_forall in *. intros x Hx.
  apply in_map_iff in Hx as (m' & <- & Hm').
  apply clear_of_under; auto.
Qed.

Lemma walk_entry_clear (imageName : string) (k k' : string) (v v' : node)
  (m m' : found) :
  k <> k' ->
  In m (walk_entry imageName (k, v)) ->
  In m' (walk_entry imageName (k', v')) ->
  clear_of m m'.
Proof.
  intros Hk Hm Hm'.
  apply walk_entry_In in Hm as [(s & -> & _ & ->) | (m0 & _ & -> & _)];
    apply walk_entry_In in Hm' as [(s' & -> & _ & ->) | (m0' & _ & -> & _)].
  - simpl. auto.
  - apply clear_of_apart. rewrite path_of_under. simpl. discriminate.
  - apply clear_of_apart. rewrite path_of_under. simpl. discriminate.
  - apply clear_of_apart. rewrite !path_of_under. congruence.
Qed.

Lemma walk_clear (imageName : string) (n : node) :
  well_keyed n = true -> ForallOrdPairs clear_of (walk imageName n).
Proof.
  induction n as [| | | | items IH | typed IH] using node_ind;
    intros Hwf; try (simpl; constructor).
  - rewrite walk_Seq. rewrite well_keyed_Seq in Hwf.
    generalize 0 as i.
    induction items as [| x l IHl]; intros i; simpl; [constructor |].
    inversion IH as [| ? ? Hx Hl]; subst.
    apply FOP_app. repeat split.
    + apply FOP_map_under. apply Hx. apply Hwf. simpl. auto.
    + apply IHl; auto. intros y Hy. apply Hwf. simpl. auto.
    + intros a b Ha Hb.
      apply in_map_iff in Ha as (a0 & <- & _).
      apply walk_items_In in Hb as (j & y & b0 & _ & _ & ->).
      apply clear_of_apart. rewrite !path_of_under.
      intros [= E]. lia.
  - rewrite walk_Mapping.
    apply well_keyed_Mapping in Hwf as [Hnd Hall].
    apply FOP_app. repeat split.
    + unfold walk_block.
      repeat match goal with
             | |- context [match ?x with _ => _ end] => destruct x
             end; repeat constructor.
    + clear - IH Hnd Hall.
      induction typed as [| [k v] rest IHr]; simpl; [constructor |].
      inversion IH as [| ? ? Hv Hrest]; subst.
      inversion Hnd as [| ? ? Hk Hnd']; subst.
      apply FOP_app. repeat split.
      * unfold walk_entry. simpl in *.
        assert (Hsub : ForallOrdPairs clear_of
                         (map (under (Key k)) (walk imageName v))).
        { apply FOP_map_under. apply Hv. apply (Hall k v). auto. }
        destruct v; auto.
        destruct (HasPrefix s (imageName ++ ":")); auto.
        repeat constructor.
      * apply IHr; auto. intros k' v' H. apply (Hall k' v'). simpl. auto.
      * intros a b Ha Hb.
        apply in_flat_map in Hb as ([k' v'] & Hin & Hb).
        assert (Hne : k <> k').
        { intros E. subst k'. apply Hk.
          apply (in_map fst) in Hin. exact Hin. }
        exact (walk_entry_clear imageName k k' v v' a b Hne Ha Hb).
    + intros a b Ha Hb.
      apply walk_block_In in Ha as [-> _].
      apply in_flat_map in Hb as ([k v] & _ & Hb).
      apply walk_entry_In in Hb as [(s & _ & _ & ->) | (m0 & _ & -> & _)].
      * simpl. auto.
      * apply clear_of_apart. rewrite path_of_under. simpl. discriminate.
Qed.

(** ** The loop of the universal rewriter in closed form *)

Section Prediction.

Variable values : fields.
Variables imageName newVersion : string.
Variable dryRun : bool.

Let turn := bump_universal values imageName newVersion dryRun.
Let told := verdict (Mapping values) newVersion dryRun.
Let cell := written_by (Mapping values) imageName newVersion dryRun.

Lemma assigned_app (a b : store) (p : path) (key : string) :
  assigned (a ++ b) p key
  = match assigned a p key with Some v => Some v | None => assigned b p key end.
Proof.
  induction a as [| [[q k] v] a IH]; simpl; auto.
  destruct (path_eqb p q && String.eqb key k); auto.
Qed.

Lemma assigned_other_path (st : store) (p : path) (key : string) :
  (forall q k v, In (q, k, v) st -> q <> p) -> assigned st p key = None.
Proof.
  induction st as [| [[q k] v] st IH]; simpl; intros H; auto.
  rewrite path_eqb_neq.
  - simpl. apply IH. intros q' k' v' Hin. eapply H. eauto.
  - intros E. apply (H q k v); auto.
Qed.

Lemma cell_path (m : found) (q : path) (k v : string) :
  In (q, k, v) (cell m) -> q = path_of m.
Proof.
  unfold cell, written_by.
  destruct (verdict _ _ _ m); simpl; try tauto.
  destruct m; simpl; intros [[= <- <- <-] | []]; reflexivity.
Qed.

Lemma bump_universal_told (s : progress) (m : found) :
  stands imageName (Mapping values) m ->
  (forall p, m = Block p -> untouched (cells s) p) ->
  turn s m
  = Progress (cell m ++ cells s) (updated s || is_update (told m))
             (told m :: printed s).
Proof.
  destruct s as [st u pr].
  unfold turn, told, cell, bump_universal, written_by, verdict.
  destruct m as [p | key value p]; cbn [cells updated printed].
  - intros (typed & Hget & Hrepo) Hun. specialize (Hun p eq_refl).
    unfold image_string, index. cbn [cells] in Hun.
    rewrite !Hun, Hget, Hrepo, String.eqb_refl.
    cbn [current]. rewrite Hget. unfold tag_of.
    assert (E : match
                  match lookup "tag" typed with
                  | Some (Str s) => Some s
                  | _ => None
                  end
                with Some t => t | None => "" end
                = match lookup "tag" typed with
                  | Some (Str t) => t
                  | _ => ""
                  end).
    { destruct (lookup "tag" typed) as [[] |]; reflexivity. }
    rewrite E.
    destruct (String.eqb _ newVersion); cbn;
      [rewrite orb_false_r; reflexivity |].
    destruct (isValidSemver newVersion); cbn;
      [| rewrite orb_false_r; reflexivity].
    destruct dryRun; cbn; rewrite orb_true_r; reflexivity.
  - intros (Hpre & _) _. cbn. rewrite Hpre.
    fold (version_of value).
    destruct (String.eqb (version_of value) newVersion); cbn;
      [rewrite orb_false_r; reflexivity |].
    destruct (isValidSemver newVersion); cbn;
      [| rewrite orb_false_r; reflexivity].
    destruct dryRun; cbn; rewrite orb_true_r; reflexivity.
Qed.

Lemma fold_universal_told (ms : list found) :
  forall s,
    Forall (stands imageName (Mapping values)) ms ->
    ForallOrdPairs clear_of ms ->
    (forall p, In (Block p) ms -> untouched (cells s) p) ->
    fold_left turn ms s
    = Progress (flat_map cell (rev ms) ++ cells s)
               (updated s || existsb (fun m => is_update (told m)) ms)
               (rev (map told ms) ++ printed s).
Proof.
  induction ms as [| m ms IH]; intros s Hst Hord Hun.
  - simpl. rewrite orb_false_r. destruct s; reflexivity.
  - inversion Hst as [| ? ? Hm Hms]; subst.
    inversion Hord as [| ? ? Hclear Hrest]; subst.
    cbn [fold_left]. rewrite bump_universal_told; auto.
    2:{ intros p ->. apply Hun. simpl. auto. }
    rewrite IH; auto.
    + cbn [cells updated printed rev map existsb].
      rewrite flat_map_app. cbn [flat_map]. rewrite app_nil_r.
      rewrite <- !app_assoc, orb_assoc. reflexivity.
    + cbn [cells]. intros p Hp key.
      rewrite assigned_app, (Hun p (or_intror Hp)).
      rewrite assigned_other_path; auto.
      intros q k v Hin. apply cell_path in Hin as ->.
      rewrite Forall_forall in Hclear.
      exact (Hclear (Block p) Hp).
Qed.

End Prediction.

(** ** Reading the tree back *)

Lemma readback_nil (n : node) : readback [] n = n.
Proof.
  induction n as [| | | | items IH | typed IH] using node_ind; simpl; auto.
  - f_equal. generalize 0 as i.
    induction IH as [| x l Hx Hl IHl]; intros i; auto.
    rewrite Hx, IHl. reflexivity.
  - f_equal. rewrite app_nil_r.
    induction IH as [| [k v] l Hv Hl IHl]; simpl in *; auto.
    rewrite Hv, IHl. reflexivity.
Qed.

Lemma readback_fields_nil (typed : fields) : readback_fields [] typed = typed.
Proof.
  pose proof (readback_nil (Mapping typed)) as H.
  injection H as H. exact H.
Qed.

Lemma values_after_writes (values : fields) (imageName newVersion : string)
  (dryRun : bool) :
  let r := BumpTagInValuesUniversal values imageName newVersion dryRun in
  values_after r = readback_fields (writes r) values.
Proof.
  unfold BumpTagInValuesUniversal.
  destruct (Nat.eqb _ 0); cbn [values_after writes]; auto.
  symmetry. apply readback_fields_nil.
Qed.

(** ** A dry run assigns nothing *)

Lemma bump_universal_dry (values : fields) (imageName newVersion : string)
  (s : progress) (image : found) :
  cells (bump_universal values imageName newVersion true s image) = cells s.
Proof.
  unfold bump_universal.
  repeat match goal with
         | |- context [match ?x with _ => _ end] => destruct x
         | |- context [if ?x then _ else _] => destruct x
         end; reflexivity.
Qed.

Lemma fold_universal_dry (values : fields) (imageName newVersion : string)
  (ms : list found) :
  forall s,
    cells (fold_left (bump_universal values imageName newVersion true) ms s)
    = cells s.
Proof.
  induction ms as [| m ms IH]; intros s; simpl; auto.
  rewrite IH. apply bump_universal_dry.
Qed.

Lemma is_update_verdict (values : node) (newVersion : string) (dryRun : bool)
  (m : found) :
  is_update (verdict values newVersion dryRun m)
  = negb (String.eqb (current values m) newVersion)
    && isValidSemver newVersion.
Proof.
  unfold verdict.
  destruct (String.eqb _ _), (isValidSemver newVersion), dryRun; reflexivity.
Qed.

(** The boolean of the universal rewriter, told from the tree alone. *)
Lemma changed_universal (values : fields) (imageName newVersion : string)
  (dryRun : bool) :
  well_keyed (Mapping values) = true ->
  changed (BumpTagInValuesUniversal values imageName newVersion dryRun)
  = existsb (fun m => negb (String.eqb (current (Mapping values) m) newVersion))
            (findImageBlocksUniversal values imageName)
    && isValidSemver newVersion.
Proof.
  intros Hwf. unfold BumpTagInValuesUniversal, findImageBlocksUniversal.
  pose proof (walk_stands imageName _ Hwf) as Hst.
  pose proof (walk_clear imageName _ Hwf) as Hord.
  destruct (walk imageName (Mapping values)) as [| m ms] eqn:E;
    [reflexivity |].
  cbn [length Nat.eqb changed].
  rewrite fold_universal_told; auto.
  - cbn [updated orb].
    generalize (m :: ms) as l. intros l.
    induction l as [| x l IH]; cbn [existsb]; auto.
    rewrite IH, is_update_verdict.
    destruct (isValidSemver newVersion);
      rewrite ?andb_true_r, ?andb_false_r; reflexivity.
  - apply Forall_forall. exact Hst.
  - intros p _ key. reflexivity.
Qed.

(** ** C5: the walker misses nothing *)

Lemma relocate_cons (s : step) (p : path) (m : found) :
  relocate (s :: p) m = under s (relocate p m).
Proof. destruct m; reflexivity. Qed.

Lemma walk_descend (imageName : string) (p : path) :
  forall n x m,
    get_at p n = Some x -> In m (walk imageName x) ->
    In (relocate p m) (walk imageName n).
Proof.
  induction p as [| st q IH]; intros n x m Hget Hin.
  - injection Hget as ->. destruct m; exact Hin.
  - rewrite relocate_cons. destruct st as [k | i]; simpl in Hget.
    + destruct n as [| | | | | typed]; try discriminate.
      destruct (lookup k typed) as [v |] eqn:Hl; [| discriminate].
      specialize (IH v x m Hget Hin).
      rewrite walk_Mapping, in_app_iff. right.
      apply in_flat_map. exists (k, v). split; [apply lookup_In; auto |].
      unfold walk_entry. cbn [fst snd].
      destruct v; try (apply in_map; exact IH).
      simpl in IH. contradiction.
    + destruct n as [| | | | items |]; try discriminate.
      destruct (nth_error items i) as [v |] eqn:Hn; [| discriminate].
      specialize (IH v x m Hget Hin).
      rewrite walk_Seq. apply walk_items_In.
      exists i, v, (relocate q m). auto.
Qed.

(** C5. Every mapping of the tree whose [repository] is the string
    [image_name] yields a structured match, whatever it holds under
    [tag], if anything; and each of its keys whose value is a string
    starting with [image_name:] yields an inline match of that same
    mapping, so one mapping can yield both kinds in a single traversal. *)
Theorem findImageBlocksUniversal_complete
  (values : fields) (imageName : string) (p : path) (typed : fields) :
  get_at p (Mapping values) = Some (Mapping typed) ->
  (lookup "repository" typed = Some (Str imageName) ->
     In (Block p) (findImageBlocksUniversal values imageName)) /\
  (forall key s,
     In (key, Str s) typed -> HasPrefix s (imageName ++ ":") = true ->
     In (Aspire key s p) (findImageBlocksUniversal values imageName)).
Proof.
  intros Hget. unfold findImageBlocksUniversal. split.
  - intros Hrepo.
    replace (Block p) with (relocate p (Block [])) by
      (simpl; rewrite app_nil_r; reflexivity).
    apply walk_descend with (x := Mapping typed); auto.
    rewrite walk_Mapping, in_app_iff. left.
    apply walk_block_In. auto.
  - intros key s Hin Hpre.
    replace (Aspire key s p) with (relocate p (Aspire key s [])) by
      (simpl; rewrite app_nil_r; reflexivity).
    apply walk_descend with (x := Mapping typed); auto.
    rewrite walk_Mapping, in_app_iff. right.
    apply in_flat_map. exists (key, Str s). split; auto.
    unfold walk_entry. cbn [fst snd]. rewrite Hpre. simpl. auto.
Qed.

Lemma findImageBlocksUniversal_complete_witness :
  lookup "tag" [("repository", Str "img"); ("sidecar", Str "img:1.0.0")] = None /\
  In (Block [Key "main"]) (findImageBlocksUniversal mixed_values "img") /\
  In (Aspire "sidecar" "img:1.0.0" [Key "main"])
     (findImageBlocksUniversal mixed_values "img").
Proof.
  split; [reflexivity |].
  destruct (findImageBlocksUniversal_complete mixed_values "img" [Key "main"]
              [("repository", Str "img"); ("sidecar", Str "img:1.0.0")]
              eq_refl) as [Hb Hi].
  split.
  - apply Hb. reflexivity.
  - apply Hi; [simpl; auto | reflexivity].
Defined.

(** ** C10: strings held by a slice *)

Lemma readback_Mapping (st : store) (typed : fields) :
  readback st (Mapping typed) = Mapping (readback_fields st typed).
Proof. reflexivity. Qed.

Lemma readback_Seq (st : store) (items : list node) :
  readback st (Seq items) = Seq (readback_items st 0 items).
Proof.
  simpl. f_equal. generalize 0.
  induction items as [| x l IH]; intros i; simpl; auto.
  rewrite IH. reflexivity.
Qed.

Lemma readback_items_nth (st : store) (l : list node) :
  forall j i,
    nth_error (readback_items st j l) i
    = option_map (readback (below (Idx (j + i)) st)) (nth_error l i).
Proof.
  induction l as [| x l IH]; intros j [| i]; simpl; auto.
  - rewrite Nat.add_0_r. reflexivity.
  - rewrite IH, Nat.add_succ_r. reflexivity.
Qed.

Lemma lookup_app (key : string) (a b : fields) :
  lookup key (a ++ b)
  = match lookup key a with Some v => Some v | None => lookup key b end.
Proof.
  induction a as [| [k v] a IH]; simpl; auto.
  destruct (String.eqb key k); auto.
Qed.

Lemma lookup_readback_fields (st : store) (typed : fields) (key : string)
  (v : node) :
  lookup key typed = Some v ->
  lookup key (readback_fields st typed)
  = Some match assigned st [] key with
         | Some w => Str w
         | None => readback (below (Key key) st) v
         end.
Proof.
  intros Hl. unfold readback_fields. rewrite lookup_app.
  generalize (fresh st (map fst typed)) as extra. intros extra.
  induction typed as [| [k w] rest IH]; simpl in *; [discriminate |].
  destruct (String.eqb_spec key k) as [-> | Hne].
  - injection Hl as ->. reflexivity.
  - auto.
Qed.

Lemma get_at_Str_deeper (p : path) (st : step) (w : string) :
  get_at (p ++ [st]) (Str w) = None.
Proof. destruct p as [| [] p]; simpl; destruct st; reflexivity. Qed.

Lemma readback_slice_string (p : path) :
  forall st n items i s,
    get_at p n = Some (Seq items) ->
    nth_error items i = Some (Str s) ->
    get_at (p ++ [Idx i]) (readback st n) = Some (Str s) \/
    get_at (p ++ [Idx i]) (readback st n) = None.
Proof.
  induction p as [| a q IH]; intros st n items i s Hget Hn.
  - injection Hget as ->. rewrite readback_Seq. simpl.
    rewrite readback_items_nth, Hn. simpl. auto.
  - destruct a as [k | j]; simpl in Hget.
    + destruct n as [| | | | | typed]; try discriminate.
      destruct (lookup k typed) as [v |] eqn:Hl; [| discriminate].
      rewrite readback_Mapping. cbn [app get_at].
      rewrite (lookup_readback_fields st typed k v Hl).
      destruct (assigned st [] k) as [w |].
      * right. apply get_at_Str_deeper.
      * eapply IH; eauto.
    + destruct n as [| | | | l |]; try discriminate.
      destruct (nth_error l j) as [v |] eqn:Hj; [| discriminate].
      rewrite readback_Seq. cbn [app get_at].
      rewrite readback_items_nth, Hj. simpl.
      eapply IH; eauto.
Qed.

Lemma walk_items_strings (imageName : string) (l : list node) :
  (forall x, In x l -> exists s, x = Str s) ->
  forall i, walk_items imageName i l = [].
Proof.
  induction l as [| x l IH]; intros H i; simpl; auto.
  destruct (H x (or_introl eq_refl)) as (s & ->). simpl.
  apply IH. intros y Hy. apply H. simpl. auto.
Qed.

(** C10. An inline match is always a string held by a mapping under a
    key: a slice whose elements are strings yields no match at all, so a
    string [image_name:version] that is an element of a slice is never
    matched. After a call such an element is the string it was, unless the
    slice left the tree with an enclosing value that was replaced. *)
Theorem slice_strings_untouched
  (values : fields) (imageName newVersion : string) (dryRun : bool) :
  well_keyed (Mapping values) = true ->
  let r := BumpTagInValuesUniversal values imageName newVersion dryRun in
  (forall key value p,
     In (Aspire key value p) (findImageBlocksUniversal values imageName) ->
     exists typed, get_at p (Mapping values) = Some (Mapping typed) /\
                   lookup key typed = Some (Str value)) /\
  (forall items,
     (forall x, In x items -> exists s, x = Str s) ->
     walk imageName (Seq items) = []) /\
  (forall p items i s,
     get_at p (Mapping values) = Some (Seq items) ->
     nth_error items i = Some (Str s) ->
     get_at (p ++ [Idx i]) (Mapping (values_after r)) = Some (Str s) \/
     get_at (p ++ [Idx i]) (Mapping (values_after r)) = None).
Proof.
  intros Hwf r. repeat split.
  - intros key value p Hin.
    apply (walk_stands imageName _ Hwf) in Hin as (_ & typed & H1 & H2).
    eauto.
  - intros items H. rewrite walk_Seq. apply walk_items_strings. exact H.
  - intros p items i s Hget Hn. subst r.
    rewrite values_after_writes, <- readback_Mapping.
    eapply readback_slice_string; eauto.
Qed.

Lemma slice_strings_untouched_witness :
  let r := BumpTagInValuesUniversal sample_values
             "ghcr.io/my-org/api" "1.3.9" false in
  get_at [Key "args"; Idx 0] (Mapping (values_after r))
  = Some (Str "ghcr.io/my-org/api:1.3.8") /\
  get_at [Key "args"; Idx 1; Key "ref"] (Mapping (values_after r))
  = Some (Str "ghcr.io/my-org/api:1.3.9").
Proof.
  split; [| reflexivity].
  destruct (slice_strings_untouched sample_values
              "ghcr.io/my-org/api" "1.3.9" false eq_refl) as (_ & _ & H).
  destruct (H [Key "args"]
              [Str "ghcr.io/my-org/api:1.3.8";
               Mapping [("ref", Str "ghcr.io/my-org/api:1.3.8")]]
              0 "ghcr.io/my-org/api:1.3.8" eq_refl eq_refl) as [E | E].
  - exact E.
  - discriminate E.
Defined.

(** ** C8: the boolean of the structured rewriter *)

Lemma bump_structured_invalid (values : fields) (imageName newVersion : string)
  (dryRun : bool) (s : progress) (image : found) :
  isValidSemver newVersion = false ->
  let s' := bump_structured values imageName newVersion dryRun s image in
  cells s' = cells s /\
  (printed s' = printed s \/
   exists n, is_skip n = true /\ printed s' = n :: printed s).
Proof.
  intros Hv. unfold bump_structured. rewrite Hv. cbn [negb].
  destruct s as [st u pr].
  repeat match goal with
         | |- context [match ?x with _ => _ end] => destruct x
         | |- context [if ?x then _ else _] => destruct x
         end; cbn; (split; [reflexivity |]);
    first [left; reflexivity
          | right; eexists; split; [| reflexivity]; reflexivity].
Qed.

Lemma fold_structured_invalid (values : fields) (imageName newVersion : string)
  (dryRun : bool) (ms : list found) :
  isValidSemver newVersion = false ->
  forall s,
    let s' := fold_left (bump_structured values imageName newVersion dryRun)
                ms s in
    cells s' = cells s /\
    exists extra, printed s' = extra ++ printed s /\
                  forallb is_skip extra = true.
Proof.
  intros Hv. induction ms as [| m ms IH]; intros s; simpl.
  - split; auto. exists []. auto.
  - destruct (IH (bump_structured values imageName newVersion dryRun s m))
      as (Hc & extra & Hp & Hk).
    destruct (bump_structured_invalid values imageName newVersion dryRun
                s m Hv) as (Hc' & [Hp' | (n & Hn & Hp')]).
    + split; [congruence |]. exists extra. rewrite Hp, Hp'. auto.
    + split; [congruence |]. exists (extra ++ [n]).
      rewrite Hp, Hp', <- app_assoc, forallb_app, Hk. simpl.
      rewrite Hn. auto.
Qed.

(** C8. [BumpTagInValues] returns [false] only when [findImageBlocks]
    finds nothing. With at least one match it returns [true], also when
    every match was skipped: with a version that fails validation it
    assigns nothing, prints only skips, and still returns [true]. *)
Theorem BumpTagInValues_changed
  (values : fields) (imageName newVersion : string) (dryRun : bool) :
  let r := BumpTagInValues values imageName newVersion dryRun in
  (changed r = false <-> findImageBlocks values imageName = []) /\
  err r = None /\
  (findImageBlocks values imageName <> [] ->
   isValidSemver newVersion = false ->
   changed r = true /\ writes r = [] /\ values_after r = values /\
   forallb is_skip (output r) = true).
Proof.
  unfold BumpTagInValues.
  destruct (findImageBlocks values imageName) as [| m ms] eqn:E.
  - simpl. repeat split; auto; congruence.
  - cbn [length Nat.eqb changed err writes values_after output].
    split; [split; discriminate | split; [reflexivity |]].
    intros _ H0. split; [reflexivity |]. repeat split.
    + destruct (fold_structured_invalid values imageName newVersion dryRun
                  (m :: ms) H0 (Progress [] false [])) as (Hc & _).
      exact Hc.
    + destruct (fold_structured_invalid values imageName newVersion dryRun
                  (m :: ms) H0 (Progress [] false [])) as (Hc & _).
      cbn [cells] in Hc. rewrite Hc. apply readback_fields_nil.
    + destruct (fold_structured_invalid values imageName newVersion dryRun
                  (m :: ms) H0 (Progress [] false []))
        as (_ & extra & Hp & Hk).
      cbn [printed] in Hp. rewrite app_nil_r in Hp. rewrite Hp.
      rewrite forallb_forall in *. intros n Hn. apply Hk.
      apply in_rev. exact Hn.
Qed.

Lemma BumpTagInValues_changed_witness :
  let r := BumpTagInValues settled_values "busybox" "1.45.0" false in
  changed r = true /\ output r = [AlreadyAt] /\
  changed (BumpTagInValues settled_values "busybox" "latest" false) = true /\
  changed (BumpTagInValuesUniversal settled_values "busybox" "latest" false)
  = false.
Proof.
  split; [reflexivity | split; [reflexivity | split; [| reflexivity]]].
  destruct (BumpTagInValues_changed settled_values "busybox" "latest" false)
    as (_ & _ & H).
  apply H; [discriminate | reflexivity].
Defined.

(** ** C7: an invalid version among several updates *)

Lemma bump_universal_invalid (values : fields) (imageName newVersion : string)
  (dryRun : bool) (s : progress) (image : found) :
  isValidSemver newVersion = false ->
  let s' := bump_universal values imageName newVersion dryRun s image in
  cells s' = cells s /\ updated s' = updated s.
Proof.
  intros Hv. unfold bump_universal. rewrite Hv. cbn [negb].
  destruct s as [st u pr].
  repeat match goal with
         | |- context [match ?x with _ => _ end] => destruct x
         | |- context [if ?x then _ else _] => destruct x
         end; cbn; split; reflexivity.
Qed.

Lemma fold_universal_invalid (values : fields) (imageName newVersion : string)
  (dryRun : bool) (ms : list found) :
  isValidSemver newVersion = false ->
  forall s,
    let s' := fold_left (bump_universal values imageName newVersion dryRun)
                ms s in
    cells s' = cells s /\ updated s' = updated s.
Proof.
  intros Hv. induction ms as [| m ms IH]; intros s; simpl; auto.
  destruct (IH (bump_universal values imageName newVersion dryRun s m))
    as [Hc Hu].
  destruct (bump_universal_invalid values imageName newVersion dryRun s m Hv)
    as [Hc' Hu'].
  split; congruence.
Qed.

Lemma universal_invalid (values : fields) (imageName newVersion : string)
  (dryRun : bool) :
  isValidSemver newVersion = false ->
  let r := BumpTagInValuesUniversal values imageName newVersion dryRun in
  changed r = false /\ writes r = [] /\ values_after r = values.
Proof.
  intros Hv. unfold BumpTagInValuesUniversal.
  destruct (Nat.eqb _ 0); cbn [changed writes values_after]; auto.
  destruct (fold_universal_invalid values imageName newVersion dryRun
              (findImageBlocksUniversal values imageName) Hv
              (Progress [] false [])) as [Hc Hu].
  cbn [cells updated] in Hc, Hu. rewrite Hc, Hu.
  rewrite readback_fields_nil. auto.
Qed.

Lemma universal_err (values : fields) (imageName newVersion : string)
  (dryRun : bool) :
  err (BumpTagInValuesUniversal values imageName newVersion dryRun) = None.
Proof.
  unfold BumpTagInValuesUniversal. destruct (Nat.eqb _ 0); reflexivity.
Qed.

Lemma update_loop_returns (updates : list (string * string)) (dryRun : bool) :
  forall values count,
    exists n after, update_loop values updates dryRun count = inr (n, after).
Proof.
  induction updates as [| [img v] rest IH]; intros values count; simpl.
  - eauto.
  - rewrite universal_err. apply IH.
Qed.

(** C7. In the loop over several updates, an update whose version fails
    validation assigns no cell and reports no change, whatever the tree
    it meets; the loop does not stop at it, and it ends with the count and
    the tree it would end with had that update not been asked for: the
    updates of the other images are applied all the same. *)
Theorem invalid_version_rejected
  (values : fields) (before rest : list (string * string))
  (imageName newVersion : string) (dryRun : bool) (count : nat) :
  isValidSemver newVersion = false ->
  (forall tree,
     let r := BumpTagInValuesUniversal tree imageName newVersion dryRun in
     changed r = false /\ writes r = [] /\ values_after r = tree /\
     err r = None) /\
  update_loop values (before ++ (imageName, newVersion) :: rest) dryRun count
  = update_loop values (before ++ rest) dryRun count /\
  exists n after,
    update_loop values (before ++ (imageName, newVersion) :: rest) dryRun count
    = inr (n, after).
Proof.
  intros Hv.
  assert (Hcall : forall tree,
            let r := BumpTagInValuesUniversal tree imageName newVersion dryRun
            in changed r = false /\ writes r = [] /\ values_after r = tree /\
               err r = None).
  { intros tree.
    destruct (universal_invalid tree imageName newVersion dryRun Hv)
      as (H1 & H2 & H3).
    repeat split; auto. apply universal_err. }
  split; [exact Hcall | split; [| apply update_loop_returns]].
  revert values count.
  induction before as [| [img v] before IH]; intros values count.
  - cbn [app update_loop].
    destruct (Hcall values) as (Hc & _ & Ha & He).
    rewrite He, Hc, Ha. reflexivity.
  - cbn [app update_loop]. rewrite universal_err. apply IH.
Qed.

Lemma invalid_version_rejected_witness :
  update_loop sample_values
    [("ghcr.io/my-org/api", "not-a-version");
     ("ghcr.io/my-org/my-api", "1.2.4")] false 0
  = inr (1, [("image", Mapping [("repository", Str "ghcr.io/my-org/my-api");
                                ("tag", Str "1.2.4")]);
             ("images", Mapping [("api", Str "ghcr.io/my-org/api:1.3.8")]);
             ("args", Seq [Str "ghcr.io/my-org/api:1.3.8";
                           Mapping [("ref", Str "ghcr.io/my-org/api:1.3.8")]])]).
Proof.
  destruct (invalid_version_rejected sample_values []
              [("ghcr.io/my-org/my-api", "1.2.4")]
              "ghcr.io/my-org/api" "not-a-version" false 0 eq_refl)
    as (_ & E & _).
  cbn [app] in E. rewrite E. reflexivity.
Defined.

(** ** Cells and what they hold *)

Lemma assigned_In (st : store) (p : path) (key v : string) :
  assigned st p key = Some v -> In (p, key, v) st.
Proof.
  induction st as [| [[q k] w] st IH]; simpl; [discriminate |].
  destruct (path_eqb p q) eqn:Ep; simpl; auto.
  destruct (String.eqb_spec key k) as [-> | Hne]; auto.
  apply path_eqb_eq in Ep as ->. intros [= ->]. auto.
Qed.

Lemma assigned_None (st : store) (p : path) (key : string) :
  assigned st p key = None <-> forall v, ~ In (p, key, v) st.
Proof.
  induction st as [| [[q k] w] st IH]; simpl; [tauto |].
  destruct (path_eqb p q) eqn:Ep; simpl.
  - apply path_eqb_eq in Ep as ->.
    destruct (String.eqb_spec key k) as [-> | Hne].
    + split; [discriminate |]. intros H. exfalso. apply (H w). auto.
    + rewrite IH. split; intros H v; [intros [[= E] | Hin] | ];
        try congruence; try (eapply H; eauto); intros Hin; eapply H; eauto.
  - assert (Hne : p <> q).
    { intros ->. rewrite path_eqb_refl in Ep. discriminate. }
    rewrite IH. split; intros H v; [intros [[= E] | Hin] | ];
      try congruence; try (eapply H; eauto); intros Hin; eapply H; eauto.
Qed.

Lemma assigned_all_same (st : store) (p : path) (key v : string) :
  In (p, key, v) st ->
  (forall v', In (p, key, v') st -> v' = v) ->
  assigned st p key = Some v.
Proof.
  intros Hin Hall. destruct (assigned st p key) as [w |] eqn:E.
  - apply assigned_In in E. f_equal. auto.
  - rewrite assigned_None in E. exfalso. eapply E; eauto.
Qed.

(** ** strings.Split and the version of an inline reference *)

Lemma Split_nonempty (s : string) (sep : ascii) : Split s sep <> [].
Proof.
  induction s as [| c s IH]; simpl; [discriminate |].
  destruct (Ascii.eqb c sep); [discriminate |].
  destruct (Split s sep); [contradiction | discriminate].
Qed.

Lemma Split_app (a b : string) (sep : ascii) :
  Split (a ++ String sep b)%string sep = Split a sep ++ Split b sep.
Proof.
  induction a as [| c a IH]; simpl.
  - rewrite Ascii.eqb_refl. reflexivity.
  - destruct (Ascii.eqb c sep); simpl; [rewrite IH; reflexivity |].
    rewrite IH. pose proof (Split_nonempty a sep) as Hne.
    destruct (Split a sep); [contradiction | reflexivity].
Qed.

Lemma Split_lacks (s : string) (sep : ascii) :
  lacks sep s -> Split s sep = [s].
Proof.
  unfold lacks. induction s as [| c s IH]; simpl; intros H; auto.
  destruct (Ascii.eqb_spec c sep) as [-> | Hne]; [tauto |].
  rewrite IH; auto.
Qed.

Lemma last_app_nonempty {A : Type} (l l' : list A) (d : A) :
  l' <> [] -> last (l ++ l') d = last l' d.
Proof.
  intros Hne. induction l as [| x l IH]; simpl; auto.
  destruct (l ++ l') eqn:E; auto.
  apply app_eq_nil in E as [_ ->]. contradiction.
Qed.

Lemma version_of_last_colon (pre ver : string) :
  lacks ":" ver -> version_of (pre ++ ":" ++ ver)%string = ver.
Proof.
  intros H. unfold version_of. cbn [String.append].
  rewrite Split_app, last_app_nonempty by apply Split_nonempty.
  rewrite Split_lacks; auto.
Qed.

Lemma valid_lacks_colon (v : string) : isValidSemver v = true -> lacks ":" v.
Proof.
  intros H. unfold isValidSemver in H.
  apply MatchString_lang, semverRegex_format in H
    as (x & major & minor & patch & pre & build
        & -> & Hx & Hmaj & Hmin & Hpat & Hpre & Hbuild).
  repeat (apply lacks_append; split);
    try (eapply run_lacks; [| eassumption]; reflexivity).
  - destruct Hx as [-> | ->]; unfold lacks; simpl; [tauto |].
    intros [E | []]; discriminate.
  - unfold lacks. simpl. intros [E | []]; discriminate.
  - unfold lacks. simpl. intros [E | []]; discriminate.
  - destruct Hpre as [-> | (id & -> & Hid)]; [unfold lacks; simpl; tauto |].
    apply lacks_append. split.
    + unfold lacks. simpl. intros [E | []]; discriminate.
    + eapply run_lacks; [| eassumption]; reflexivity.
  - destruct Hbuild as [-> | (id & -> & Hid)]; [unfold lacks; simpl; tauto |].
    apply lacks_append. split.
    + unfold lacks. simpl. intros [E | []]; discriminate.
    + eapply run_lacks; [| eassumption]; reflexivity.
Qed.

Lemma valid_nonempty (v : string) : isValidSemver v = true -> v <> "".
Proof. intros H ->. discriminate. Qed.

(** ** C4: rewriting an inline reference *)

Lemma writes_universal (values : fields) (imageName newVersion : string)
  (dryRun : bool) :
  well_keyed (Mapping values) = true ->
  writes (BumpTagInValuesUniversal values imageName newVersion dryRun)
  = flat_map (written_by (Mapping values) imageName newVersion dryRun)
             (rev (findImageBlocksUniversal values imageName)).
Proof.
  intros Hwf. unfold BumpTagInValuesUniversal, findImageBlocksUniversal.
  pose proof (walk_stands imageName _ Hwf) as Hst.
  pose proof (walk_clear imageName _ Hwf) as Hord.
  destruct (walk imageName (Mapping values)) as [| m ms] eqn:E;
    [reflexivity |].
  cbn [length Nat.eqb writes].
  rewrite fold_universal_told; auto.
  - cbn [cells]. rewrite app_nil_r. reflexivity.
  - apply Forall_forall. exact Hst.
  - intros p _ key. reflexivity.
Qed.

Lemma output_universal (values : fields) (imageName newVersion : string)
  (dryRun : bool) :
  well_keyed (Mapping values) = true ->
  output (BumpTagInValuesUniversal values imageName newVersion dryRun)
  = match findImageBlocksUniversal values imageName with
    | [] => [NoBlockFound]
    | ms => map (verdict (Mapping values) newVersion dryRun) ms
    end.
Proof.
  intros Hwf. unfold BumpTagInValuesUniversal, findImageBlocksUniversal.
  pose proof (walk_stands imageName _ Hwf) as Hst.
  pose proof (walk_clear imageName _ Hwf) as Hord.
  destruct (walk imageName (Mapping values)) as [| m ms] eqn:E;
    [reflexivity |].
  cbn [length Nat.eqb output].
  rewrite fold_universal_told; auto.
  - cbn [printed]. rewrite app_nil_r, rev_involutive. reflexivity.
  - apply Forall_forall. exact Hst.
  - intros p _ key. reflexivity.
Qed.

(** ** C1 and C2: the boolean, the cells and the tree *)

Section CellsGrow.

Variable values : fields.
Variables imageName newVersion : string.
Variable dryRun : bool.

(** While the loop runs: no cell is assigned before [updated] is set,
    one is once it is set in a call without [dry_run], and none ever in a
    dry run. *)
Let in_step (s : progress) : Prop :=
  (updated s = false -> cells s = []) /\
  (dryRun = false -> updated s = true -> cells s <> []) /\
  (dryRun = true -> cells s = []).

Lemma bump_universal_in_step (s : progress) (image : found) :
  in_step s ->
  in_step (bump_universal values imageName newVersion dryRun s image).
Proof.
  unfold in_step, bump_universal. intros (H0 & H1 & H2).
  destruct image as [p | key value parent];
    cbn [image_assign image_string image_map String.eqb Ascii.eqb Bool.eqb];
    repeat match goal with
           | |- context [match ?x with _ => _ end] => destruct x
           | |- context [if ?x then _ else _] => destruct x
           end;
    cbn [cells updated say set_updated with_cells assign];
    repeat split; auto; try discriminate; intros; try discriminate; auto.
Qed.

Lemma fold_universal_in_step (ms : list found) :
  forall s,
    in_step s ->
    in_step (fold_left (bump_universal values imageName newVersion dryRun)
               ms s).
Proof.
  induction ms as [| m ms IH]; intros s Hs; [exact Hs |].
  cbn [fold_left]. apply IH. apply bump_universal_in_step. exact Hs.
Qed.

(** A call that returns [false] has assigned nothing; a call without
    [dry_run] that returns [true] has assigned a cell; a dry run assigns
    nothing. *)
Lemma universal_cells :
  let r := BumpTagInValuesUniversal values imageName newVersion dryRun in
  (changed r = false -> writes r = [] /\ values_after r = values) /\
  (dryRun = false -> changed r = true -> writes r <> []) /\
  (dryRun = true -> writes r = [] /\ values_after r = values).
Proof.
  unfold BumpTagInValuesUniversal.
  destruct (Nat.eqb _ 0); cbn [changed writes values_after].
  - repeat split; auto; discriminate.
  - destruct (fold_universal_in_step
                (findImageBlocksUniversal values imageName)
                (Progress [] false []))
      as (H0 & H1 & H2).
    { repeat split; auto; discriminate. }
    split; [| split].
    + intros H. rewrite (H0 H). split; [reflexivity |].
      apply readback_fields_nil.
    + exact H1.
    + intros H. rewrite (H2 H). split; [reflexivity |].
      apply readback_fields_nil.
Qed.

End CellsGrow.

(** C1. [BumpTagInValuesUniversal] returns [changed = true] exactly when
    one of the matches led to an applied or simulated update; it returns
    [changed = false] when there is no match and when every match was
    skipped as already current or invalid; its error is always nil. The
    boolean, the printed lines and the assigned cells go together: a call
    that returns [false] has assigned nothing and left the tree; a call
    without [dry_run] that returns [true] has assigned a cell; a dry run
    assigns nothing. On a tree with unique keys, a match leads to an
    update exactly when the version passes validation and differs from
    the version the match holds in the tree received: the call returns
    [true] exactly when there is such a match, prints for every match the
    line that this decides, and, without [dry_run], assigns the cells of
    exactly these matches. *)
Theorem BumpTagInValuesUniversal_changed
  (values : fields) (imageName newVersion : string) (dryRun : bool) :
  let r := BumpTagInValuesUniversal values imageName newVersion dryRun in
  let matches := findImageBlocksUniversal values imageName in
  (changed r = true <-> exists n, In n (output r) /\ is_update n = true) /\
  (matches = [] ->
     changed r = false /\ output r = [NoBlockFound] /\
     writes r = [] /\ values_after r = values) /\
  (forallb is_skip (output r) = true ->
     changed r = false /\ writes r = [] /\ values_after r = values) /\
  err r = None /\
  (changed r = false -> writes r = [] /\ values_after r = values) /\
  (dryRun = false -> changed r = true -> writes r <> []) /\
  (dryRun = true -> writes r = [] /\ values_after r = values) /\
  (well_keyed (Mapping values) = true ->
     (changed r = true <->
      isValidSemver newVersion = true /\
      exists m, In m matches /\ current (Mapping values) m <> newVersion) /\
     (forall n,
        In n (output r) <->
        (matches = [] /\ n = NoBlockFound) \/
        exists m, In m matches /\
                  n = verdict (Mapping values) newVersion dryRun m) /\
     (forall c,
        In c (writes r) <->
        dryRun = false /\ isValidSemver newVersion = true /\
        exists m, In m matches /\ current (Mapping values) m <> newVersion /\
                  c = cell_of imageName newVersion m)).
Proof.
  intros r matches.
  destruct (universal_cells values imageName newVersion dryRun)
    as (Hfalse & Hreal & Hdry).
  fold r in Hfalse, Hreal, Hdry.
  assert (Hiff : changed r = true <->
                 exists n, In n (output r) /\ is_update n = true).
  { subst r. unfold BumpTagInValuesUniversal.
    destruct (findImageBlocksUniversal values imageName) as [| m ms] eqn:E.
    - simpl. split; [discriminate |].
      intros (n & [<- | []] & Hn). discriminate.
    - cbn [length Nat.eqb changed output].
      destruct (fold_universal_updated values imageName newVersion dryRun
                  (m :: ms) (Progress [] false []))
        as (extra & Hp & Hu & Hk).
      cbn [printed updated] in Hp, Hu. rewrite app_nil_r in Hp.
      rewrite Hp, Hu. cbn [orb]. split.
      + intros H. apply existsb_exists in H as (n & Hin & Hn).
        exists n. split; auto. apply in_rev. rewrite rev_involutive. auto.
      + intros (n & Hin & Hn). apply existsb_exists. exists n. split; auto.
        apply in_rev. auto. }
  assert (Hskip : forallb is_skip (output r) = true -> changed r = false).
  { intros H. destruct (changed r) eqn:Ec; auto.
    destruct (proj1 Hiff eq_refl) as (n & Hin & Hn).
    rewrite forallb_forall in H. apply H in Hin.
    destruct n; discriminate. }
  split; [exact Hiff | split; [| split; [| split; [| split; [| split;
    [| split]]]]]].
  - intros E. subst r matches. unfold BumpTagInValuesUniversal.
    rewrite E. simpl. auto.
  - intros H. split; [auto | apply Hfalse; auto].
  - subst r. unfold BumpTagInValuesUniversal.
    destruct (Nat.eqb _ 0); reflexivity.
  - exact Hfalse.
  - exact Hreal.
  - exact Hdry.
  - intros Hwf. split; [| split].
    + subst r matches. rewrite changed_universal by exact Hwf.
      rewrite andb_true_iff, existsb_exists. split.
      * intros [(m & Hin & Hm) Hv]. split; [exact Hv |].
        exists m. split; [exact Hin |].
        apply negb_true_iff, String.eqb_neq in Hm. exact Hm.
      * intros [Hv (m & Hin & Hm)]. split; [| exact Hv].
        exists m. split; [exact Hin |].
        apply negb_true_iff, String.eqb_neq. exact Hm.
    + intros n. subst r matches. rewrite output_universal by exact Hwf.
      destruct (findImageBlocksUniversal values imageName) as [| m ms].
      * simpl. split.
        -- intros [<- | []]. auto.
        -- intros [[_ ->] | (m & [] & _)]. auto.
      * rewrite in_map_iff. split.
        -- intros (m' & <- & Hin). right. exists m'. auto.
        -- intros [[E _] | (m' & Hin & ->)]; [discriminate |].
           exists m'. auto.
    + intros c. subst r matches. rewrite writes_universal by exact Hwf.
      rewrite in_flat_map. unfold written_by, verdict. split.
      * intros (m & Hin & Hc). apply in_rev in Hin.
        destruct (String.eqb_spec (current (Mapping values) m) newVersion)
          as [E | Hne]; [destruct Hc |].
        destruct (isValidSemver newVersion); [| destruct Hc].
        cbn [negb] in Hc. destruct dryRun; [destruct Hc |].
        destruct Hc as [<- | []].
        repeat split; auto. exists m. auto.
      * intros (-> & Hv & m & Hin & Hne & ->).
        exists m. split; [apply in_rev; rewrite rev_involutive; exact Hin |].
        apply String.eqb_neq in Hne. rewrite Hne, Hv. simpl. auto.
Qed.

Lemma BumpTagInValuesUniversal_changed_witness :
  let r := BumpTagInValuesUniversal sample_values
             "ghcr.io/my-org/my-api" "1.3.999" false in
  let r' := BumpTagInValuesUniversal sample_values
              "ghcr.io/my-org/my-api" "1.2.3" false in
  changed r = true /\ In ([Key "image"], "tag", "1.3.999") (writes r) /\
  changed r' = false /\ writes r' = [] /\ values_after r' = sample_values.
Proof.
  destruct (BumpTagInValuesUniversal_changed sample_values
              "ghcr.io/my-org/my-api" "1.3.999" false)
    as (_ & _ & _ & _ & _ & _ & _ & H).
  destruct (H eq_refl) as (Hc & _ & Hw).
  destruct (BumpTagInValuesUniversal_changed sample_values
              "ghcr.io/my-org/my-api" "1.2.3" false)
    as (_ & _ & Hskip & _).
  split; [| split].
  - apply Hc. split; [reflexivity |].
    exists (Block [Key "image"]). split; [simpl; auto | discriminate].
  - apply Hw. repeat split.
    exists (Block [Key "image"]).
    split; [simpl; auto | split; [discriminate | reflexivity]].
  - apply Hskip. reflexivity.
Defined.

(** C2. A call with [dry_run = true] leaves the tree as it was (it
    assigns no cell, so every key holds the value it held), and on a tree
    with unique keys it returns the boolean the same call returns without
    [dry_run]: it returns [true] exactly when the call without [dry_run]
    assigns a cell, and so whenever that call changes the tree. *)
Theorem dry_run_purity
  (values : fields) (imageName newVersion : string) :
  well_keyed (Mapping values) = true ->
  let dry := BumpTagInValuesUniversal values imageName newVersion true in
  let real := BumpTagInValuesUniversal values imageName newVersion false in
  values_after dry = values /\ writes dry = [] /\
  changed dry = changed real /\
  (changed dry = true <-> writes real <> []) /\
  (values_after real <> values -> changed dry = true).
Proof.
  intros Hwf dry real.
  assert (Hc : changed dry = changed real).
  { subst dry real. rewrite !changed_universal by assumption. reflexivity. }
  destruct (universal_cells values imageName newVersion true)
    as (_ & _ & Hdry).
  destruct (universal_cells values imageName newVersion false)
    as (Hfalse & Hreal & _).
  fold dry in Hdry. fold real in Hfalse, Hreal.
  destruct (Hdry eq_refl) as [Hw Hv].
  assert (Hiff : changed dry = true <-> writes real <> []).
  { rewrite Hc. split; [apply Hreal; reflexivity |].
    intros Hne. destruct (changed real); auto.
    destruct (Hfalse eq_refl) as [E _]. contradiction. }
  repeat split; auto; try apply Hiff.
  intros Hne. rewrite Hc. destruct (changed real); auto.
  destruct (Hfalse eq_refl) as [_ E]. contradiction.
Qed.

Lemma dry_run_purity_witness :
  well_keyed (Mapping sample_values) = true /\
  let dry := BumpTagInValuesUniversal sample_values
               "ghcr.io/my-org/api" "1.3.9" true in
  values_after dry = sample_values /\ changed dry = true.
Proof.
  split; [reflexivity |].
  destruct (dry_run_purity sample_values "ghcr.io/my-org/api" "1.3.9"
              eq_refl) as (Hv & _ & _ & Hc & _).
  split; [exact Hv | apply Hc; discriminate].
Defined.

Lemma later_cells_elsewhere (values : node) (imageName newVersion : string)
  (dryRun : bool) (m : found) (q : path) (k v : string) (l : list found) :
  Forall (clear_of m) l ->
  cell_of imageName newVersion m = (q, k, v) ->
  is_block m = false ->
  forall w,
    ~ In (q, k, w)
         (flat_map (written_by values imageName newVersion dryRun) (rev l)).
Proof.
  intros Hclear Hm Hb w Hin.
  apply in_flat_map in Hin as (m' & Hm' & Hin).
  rewrite <- in_rev in Hm'. rewrite Forall_forall in Hclear.
  specialize (Hclear m' Hm').
  unfold written_by in Hin.
  destruct (verdict values newVersion dryRun m'); simpl in Hin; try tauto.
  destruct Hin as [Hin | []].
  destruct m as [p | key value p]; [discriminate |].
  simpl in Hm. injection Hm as <- <- <-.
  destruct m' as [p' | key' value' p']; simpl in *.
  - injection Hin as <- _ _. congruence.
  - injection Hin as <- <- _. apply Hclear; reflexivity.
Qed.

(** C4. For an inline match, the version compared with the new one is the
    text after the last colon of the stored string. When that equals the
    new version the match is skipped. Otherwise, with a valid version and
    without [dry_run], the turn assigns [image_name:new_version] to the
    recorded key of the parent mapping, whatever the stored string held
    before its last colon, and that is what the key holds when the call
    returns. *)
Theorem inline_rewrite
  (values : fields) (imageName newVersion key value : string) (parent : path) :
  HasPrefix value (imageName ++ ":") = true ->
  (forall pre ver,
     value = (pre ++ ":" ++ ver)%string -> lacks ":" ver ->
     version_of value = ver) /\
  (forall dryRun s,
     version_of value = newVersion ->
     bump_universal values imageName newVersion dryRun s
       (Aspire key value parent)
     = say AlreadyAt s) /\
  (forall s,
     version_of value <> newVersion -> isValidSemver newVersion = true ->
     let s' := bump_universal values imageName newVersion false s
                 (Aspire key value parent) in
     cells s' = assign parent key (imageName ++ ":" ++ newVersion) (cells s) /\
     index (Mapping values) (cells s') parent key
     = Some (Str (imageName ++ ":" ++ newVersion)) /\
     updated s' = true /\ printed s' = Bumped :: printed s) /\
  (well_keyed (Mapping values) = true ->
   In (Aspire key value parent) (findImageBlocksUniversal values imageName) ->
   version_of value <> newVersion -> isValidSemver newVersion = true ->
   index (Mapping values)
     (writes (BumpTagInValuesUniversal values imageName newVersion false))
     parent key
   = Some (Str (imageName ++ ":" ++ newVersion))).
Proof.
  intros Hpre. split; [| split; [| split]].
  - intros pre ver -> Hl. apply version_of_last_colon. exact Hl.
  - intros dryRun s Hv. unfold bump_universal. cbn. rewrite Hpre.
    fold (version_of value). rewrite Hv, String.eqb_refl. reflexivity.
  - intros s Hne Hvalid. unfold bump_universal. cbn. rewrite Hpre.
    fold (version_of value).
    apply String.eqb_neq in Hne. rewrite Hne, Hvalid. cbn.
    unfold index, assign, Sprintf_colon. cbn.
    rewrite path_eqb_refl, String.eqb_refl. cbn. auto.
  - intros Hwf Hin Hne Hvalid.
    rewrite writes_universal by assumption.
    pose proof (walk_clear imageName _ Hwf) as Hord.
    unfold findImageBlocksUniversal in *.
    apply in_split in Hin as (l1 & l2 & E). rewrite E in *.
    apply FOP_app in Hord as (_ & Hord & _).
    inversion Hord as [| ? ? Hclear _]; subst.
    rewrite rev_app_distr. cbn [rev]. rewrite <- app_assoc.
    rewrite flat_map_app. unfold index. rewrite assigned_app.
    replace (assigned _ parent key) with (@None string).
    2:{ symmetry. apply assigned_None.
        eapply later_cells_elsewhere; eauto. reflexivity. }
    cbn [app flat_map]. unfold written_by at 1, verdict. cbn [current].
    apply String.eqb_neq in Hne. rewrite Hne, Hvalid. cbn.
    rewrite path_eqb_refl, String.eqb_refl. reflexivity.
Qed.

Lemma inline_rewrite_witness :
  version_of "registry:5000/img:1.2.3" = "1.2.3" /\
  index (Mapping sample_values)
    (writes (BumpTagInValuesUniversal sample_values
               "ghcr.io/my-org/api" "1.3.9" false))
    [Key "images"] "api"
  = Some (Str "ghcr.io/my-org/api:1.3.9").
Proof.
  destruct (inline_rewrite sample_values "ghcr.io/my-org/api" "1.3.9"
              "api" "ghcr.io/my-org/api:1.3.8" [Key "images"] eq_refl)
    as (_ & _ & _ & H).
  split; [reflexivity |].
  apply H.
  - reflexivity.
  - simpl. auto.
  - discriminate.
  - reflexivity.
Defined.

(** ** The structured walker and its loop *)

Lemma filter_flat_map {A B : Type} (f : B -> bool) (g : A -> list B)
  (l : list A) :
  filter f (flat_map g l) = flat_map (fun x => filter f (g x)) l.
Proof.
  induction l as [| x l IH]; simpl; auto.
  rewrite filter_app, IH. reflexivity.
Qed.

Lemma filter_map_under (s : step) (ms : list found) :
  filter is_block (map (under s) ms) = map (under s) (filter is_block ms).
Proof.
  induction ms as [| [p | k v p] ms IH]; simpl; auto.
  rewrite IH. reflexivity.
Qed.

Lemma findImageBlocks_walk_blocks (imageName : string) (n : node) :
  findImageBlocks_walk imageName n = filter is_block (walk imageName n).
Proof.
  induction n as [| | | | items IH | typed IH] using node_ind; auto.
  - rewrite walk_Seq. simpl. generalize 0 as i.
    induction IH as [| x l Hx Hl IHl]; intros i; simpl; auto.
    rewrite filter_app, filter_map_under, <- Hx, IHl. reflexivity.
  - rewrite walk_Mapping, filter_app, filter_flat_map. simpl. f_equal.
    + unfold walk_block.
      repeat match goal with
             | |- context [match ?x with _ => _ end] => destruct x
             end; reflexivity.
    + induction IH as [| [k v] l Hv Hl IHl]; simpl in *; auto.
      rewrite IHl. f_equal. unfold walk_entry. cbn [fst snd].
      rewrite Hv. destruct v; try (rewrite filter_map_under; reflexivity).
      destruct (HasPrefix s (imageName ++ ":")); reflexivity.
Qed.

Lemma FOP_filter {A : Type} (R : A -> A -> Prop) (f : A -> bool)
  (l : list A) :
  ForallOrdPairs R l -> ForallOrdPairs R (filter f l).
Proof.
  induction 1 as [| x l Hx Hl IH]; simpl; [constructor |].
  destruct (f x); auto. constructor; auto.
  rewrite Forall_forall in *. intros y Hy.
  apply filter_In in Hy as [Hy _]. auto.
Qed.

Section StructuredPrediction.

Variable values : fields.
Variables imageName newVersion : string.
Variable dryRun : bool.

Let turn := bump_structured values imageName newVersion dryRun.
Let told := verdict (Mapping values) newVersion dryRun.
Let cell := written_by (Mapping values) imageName newVersion dryRun.

Lemma bump_structured_told (s : progress) (p : path) :
  stands imageName (Mapping values) (Block p) ->
  untouched (cells s) p ->
  turn s (Block p)
  = Progress (cell (Block p) ++ cells s) (updated s)
             (told (Block p) :: printed s).
Proof.
  destruct s as [st u pr].
  unfold turn, told, cell, bump_structured, written_by, verdict.
  cbn [cells updated printed].
  intros (typed & Hget & Hrepo) Hun.
  unfold image_string, index.
  rewrite !Hun, Hget, Hrepo, String.eqb_refl.
  cbn [current negb]. rewrite Hget. unfold tag_of.
  assert (E : match
                match lookup "tag" typed with
                | Some (Str s) => Some s
                | _ => None
                end
              with Some t => t | None => "" end
              = match lookup "tag" typed with
                | Some (Str t) => t
                | _ => ""
                end).
  { destruct (lookup "tag" typed) as [[] |]; reflexivity. }
  rewrite E.
  destruct (String.eqb _ newVersion); cbn; [reflexivity |].
  destruct (isValidSemver newVersion); cbn; [| reflexivity].
  destruct dryRun; reflexivity.
Qed.

Lemma fold_structured_told (ms : list found) :
  forall s,
    Forall (stands imageName (Mapping values)) ms ->
    forallb is_block ms = true ->
    ForallOrdPairs clear_of ms ->
    (forall p, In (Block p) ms -> untouched (cells s) p) ->
    fold_left turn ms s
    = Progress (flat_map cell (rev ms) ++ cells s) (updated s)
               (rev (map told ms) ++ printed s).
Proof.
  induction ms as [| m ms IH]; intros s Hst Hb Hord Hun.
  - simpl. destruct s; reflexivity.
  - inversion Hst as [| ? ? Hm Hms]; subst.
    inversion Hord as [| ? ? Hclear Hrest]; subst.
    cbn [forallb] in Hb. apply andb_true_iff in Hb as [Hbm Hb].
    destruct m as [p | ]; [| discriminate].
    cbn [fold_left]. rewrite bump_structured_told; auto.
    2:{ apply Hun. simpl. auto. }
    rewrite IH; auto.
    + cbn [cells updated printed rev map].
      rewrite flat_map_app. cbn [flat_map]. rewrite app_nil_r.
      rewrite <- !app_assoc. reflexivity.
    + cbn [cells]. intros q Hq key.
      rewrite assigned_app, (Hun q (or_intror Hq)).
      rewrite assigned_other_path; auto.
      intros q' k v Hin.
      apply (cell_path values imageName newVersion dryRun) in Hin as ->.
      rewrite Forall_forall in Hclear.
      exact (Hclear (Block q) Hq).
Qed.

Lemma writes_structured :
  well_keyed (Mapping values) = true ->
  writes (BumpTagInValues values imageName newVersion dryRun)
  = flat_map cell (rev (findImageBlocks values imageName)).
Proof.
  intros Hwf. unfold BumpTagInValues, findImageBlocks.
  rewrite findImageBlocks_walk_blocks.
  pose proof (walk_stands imageName _ Hwf) as Hst.
  pose proof (walk_clear imageName _ Hwf) as Hord.
  destruct (filter is_block (walk imageName (Mapping values)))
    as [| m ms] eqn:E; [reflexivity |].
  cbn [length Nat.eqb writes].
  fold turn. rewrite fold_structured_told.
  - cbn [cells]. rewrite app_nil_r. reflexivity.
  - apply Forall_forall. intros x Hx. apply Hst.
    rewrite <- E in Hx. apply filter_In in Hx. tauto.
  - apply forallb_forall. intros x Hx.
    rewrite <- E in Hx. apply filter_In in Hx. tauto.
  - rewrite <- E. apply FOP_filter. exact Hord.
  - intros p _ key. reflexivity.
Qed.

End StructuredPrediction.

(** ** C9: a structured block without a string tag *)

Lemma walk_finds_block (imageName : string) (n : node) (p : path)
  (typed : fields) :
  get_at p n = Some (Mapping typed) ->
  lookup "repository" typed = Some (Str imageName) ->
  In (Block p) (walk imageName n).
Proof.
  intros Hget Hrepo.
  replace (Block p) with (relocate p (Block [])) by
    (simpl; rewrite app_nil_r; reflexivity).
  apply walk_descend with (x := Mapping typed); auto.
  rewrite walk_Mapping, in_app_iff. left.
  apply walk_block_In. auto.
Qed.

Lemma tag_of_not_string (typed : fields) :
  (forall t, lookup "tag" typed <> Some (Str t)) -> tag_of typed = "".
Proof.
  unfold tag_of. intros H.
  destruct (lookup "tag" typed) as [[| | | t | |] |]; auto.
  exfalso. apply (H t). reflexivity.
Qed.

Lemma verdict_untagged (values : fields) (newVersion : string) (dryRun : bool)
  (p : path) (typed : fields) :
  get_at p (Mapping values) = Some (Mapping typed) ->
  (forall t, lookup "tag" typed <> Some (Str t)) ->
  newVersion <> "" ->
  verdict (Mapping values) newVersion dryRun (Block p)
  = if negb (isValidSemver newVersion) then InvalidVersion
    else if dryRun then WouldBump else Bumped.
Proof.
  intros Hget Htag Hne. unfold verdict. cbn [current].
  rewrite Hget, tag_of_not_string by assumption.
  destruct (String.eqb_spec "" newVersion) as [E | _]; [congruence | auto].
Qed.

Lemma tag_cell_final (values : fields) (imageName newVersion : string)
  (ms : list found) (p : path) (typed : fields) :
  Forall (stands imageName (Mapping values)) ms ->
  In (Block p) ms ->
  get_at p (Mapping values) = Some (Mapping typed) ->
  (forall t, lookup "tag" typed <> Some (Str t)) ->
  isValidSemver newVersion = true ->
  index (Mapping values)
    (flat_map (written_by (Mapping values) imageName newVersion false) (rev ms))
    p "tag"
  = Some (Str newVersion).
Proof.
  intros Hst Hin Hget Htag Hvalid. unfold index.
  rewrite (assigned_all_same _ p "tag" newVersion); auto.
  - apply in_flat_map. exists (Block p). split.
    + rewrite <- in_rev. exact Hin.
    + unfold written_by.
      rewrite (verdict_untagged values newVersion false p typed); auto.
      * rewrite Hvalid. simpl. auto.
      * apply valid_nonempty. exact Hvalid.
  - intros v' H. apply in_flat_map in H as (m & Hm & H).
    rewrite <- in_rev in Hm. rewrite Forall_forall in Hst.
    specialize (Hst m Hm). unfold written_by in H.
    destruct (verdict _ _ _ m); simpl in H; try tauto.
    destruct H as [H | []].
    destruct m as [q | key value q]; simpl in H.
    + injection H as _ <-. reflexivity.
    + injection H as -> -> _.
      destruct Hst as (_ & typed' & Hget' & Hl).
      rewrite Hget in Hget'. injection Hget' as <-.
      exfalso. apply (Htag value). exact Hl.
Qed.

(** C9. For a structured match whose [tag] is missing or is no string,
    both rewriters read the current tag as the empty string: with a
    non-empty new version the turn never prints the already-current skip,
    and with a valid version and without [dry_run] it assigns the string
    [new_version] to [tag], which is what [tag] holds when the call
    returns. *)
Theorem untagged_block
  (values : fields) (imageName newVersion : string) (p : path)
  (typed : fields) :
  get_at p (Mapping values) = Some (Mapping typed) ->
  lookup "repository" typed = Some (Str imageName) ->
  (forall t, lookup "tag" typed <> Some (Str t)) ->
  tag_of typed = "" /\
  (forall dryRun s,
     untouched (cells s) p -> newVersion <> "" ->
     printed (bump_universal values imageName newVersion dryRun s (Block p))
     <> AlreadyAt :: printed s /\
     printed (bump_structured values imageName newVersion dryRun s (Block p))
     <> AlreadyAt :: printed s) /\
  (forall s,
     untouched (cells s) p -> isValidSemver newVersion = true ->
     let u := bump_universal values imageName newVersion false s (Block p) in
     let o := bump_structured values imageName newVersion false s (Block p) in
     index (Mapping values) (cells u) p "tag" = Some (Str newVersion) /\
     printed u = Bumped :: printed s /\ updated u = true /\
     index (Mapping values) (cells o) p "tag" = Some (Str newVersion) /\
     printed o = Bumped :: printed s) /\
  (well_keyed (Mapping values) = true -> isValidSemver newVersion = true ->
   index (Mapping values)
     (writes (BumpTagInValuesUniversal values imageName newVersion false))
     p "tag" = Some (Str newVersion) /\
   index (Mapping values)
     (writes (BumpTagInValues values imageName newVersion false))
     p "tag" = Some (Str newVersion)).
Proof.
  intros Hget Hrepo Htag.
  assert (Hst : stands imageName (Mapping values) (Block p)).
  { simpl. eauto. }
  split; [apply tag_of_not_string; exact Htag | split; [| split]].
  - intros dryRun s Hun Hne.
    rewrite bump_universal_told, bump_structured_told; auto.
    2:{ intros q [= <-]. exact Hun. }
    cbn [printed].
    rewrite (verdict_untagged values newVersion dryRun p typed); auto.
    destruct (negb (isValidSemver newVersion)), dryRun;
      split; intros [= E].
  - intros s Hun Hvalid u o. subst u o.
    rewrite bump_universal_told, bump_structured_told; auto.
    2:{ intros q [= <-]. exact Hun. }
    cbn [printed cells updated]. unfold written_by.
    rewrite (verdict_untagged values newVersion false p typed); auto.
    2:{ apply valid_nonempty. exact Hvalid. }
    rewrite Hvalid. cbn. unfold index. cbn.
    rewrite path_eqb_refl. cbn. rewrite orb_true_r. auto.
  - intros Hwf Hvalid.
    pose proof (walk_stands imageName _ Hwf) as Hall.
    pose proof (walk_finds_block imageName _ p typed Hget Hrepo) as Hin.
    rewrite writes_universal, writes_structured by assumption.
    unfold findImageBlocksUniversal, findImageBlocks.
    rewrite findImageBlocks_walk_blocks. split.
    + apply tag_cell_final with (typed := typed); auto.
      apply Forall_forall. exact Hall.
    + apply tag_cell_final with (typed := typed); auto.
      * apply Forall_forall. intros m Hm.
        apply filter_In in Hm as [Hm _]. auto.
      * apply filter_In. auto.
Qed.

Lemma untagged_block_witness :
  let after := values_after
                 (BumpTagInValuesUniversal untagged_values "nginx" "1.27.0"
                    false) in
  index (Mapping untagged_values)
    (writes (BumpTagInValuesUniversal untagged_values "nginx" "1.27.0" false))
    [Key "api"] "tag" = Some (Str "1.27.0") /\
  get_at [Key "web"; Key "tag"] (Mapping after) = Some (Str "1.27.0") /\
  get_at [Key "api"; Key "tag"] (Mapping after) = Some (Str "1.27.0").
Proof.
  split; [| split; reflexivity].
  destruct (untagged_block untagged_values "nginx" "1.27.0" [Key "api"]
              [("repository", Str "nginx"); ("tag", Num "1.25")]
              eq_refl eq_refl) as (_ & _ & _ & H).
  - intros t. discriminate.
  - apply H; reflexivity.
Defined.

(** ** The cells of a call, subtree by subtree *)

Section Cells.

Variables imageName newVersion : string.
Hypothesis valid : isValidSemver newVersion = true.

(** The cells a call assigns in the subtree [n], newest first. *)
Let cells_in (n : node) : store :=
  flat_map (written_by n imageName newVersion false) (rev (walk imageName n)).

Lemma current_under_Key (typed : fields) (k : string) (v : node) (m : found) :
  lookup k typed = Some v ->
  current (Mapping typed) (under (Key k) m) = current v m.
Proof. intros Hl. destruct m; simpl; rewrite ?Hl; reflexivity. Qed.

Lemma current_under_Idx (items : list node) (i : nat) (x : node) (m : found) :
  nth_error items i = Some x ->
  current (Seq items) (under (Idx i) m) = current x m.
Proof. intros Hn. destruct m; simpl; rewrite ?Hn; reflexivity. Qed.

Lemma written_by_under (n x : node) (st : step) (m : found) :
  current n (under st m) = current x m ->
  written_by n imageName newVersion false (under st m)
  = map (lift_cell st) (written_by x imageName newVersion false m).
Proof.
  intros E. unfold written_by, verdict. rewrite E.
  destruct (String.eqb _ _); auto.
  destruct (negb _); auto.
  destruct m; reflexivity.
Qed.

Lemma flat_map_map {A B C : Type} (f : A -> B) (g : B -> list C) (l : list A) :
  flat_map g (map f l) = flat_map (fun x => g (f x)) l.
Proof.
  induction l as [| x l IH]; simpl; auto. rewrite IH. reflexivity.
Qed.

Lemma map_flat_map {A B C : Type} (f : B -> C) (g : A -> list B) (l : list A) :
  map f (flat_map g l) = flat_map (fun x => map f (g x)) l.
Proof.
  induction l as [| x l IH]; simpl; auto. rewrite map_app, IH. reflexivity.
Qed.

Lemma flat_map_ext_In {A B : Type} (f g : A -> list B) (l : list A) :
  (forall x, In x l -> f x = g x) -> flat_map f l = flat_map g l.
Proof.
  induction l as [| x l IH]; simpl; intros H; auto.
  rewrite H, IH; auto.
Qed.

(** The cells of the matches found below a key or an index. *)
Lemma cells_under (n x : node) (st : step) (ms : list found) :
  (forall m, current n (under st m) = current x m) ->
  flat_map (written_by n imageName newVersion false)
           (rev (map (under st) ms))
  = map (lift_cell st)
        (flat_map (written_by x imageName newVersion false) (rev ms)).
Proof.
  intros E. rewrite <- map_rev, flat_map_map, map_flat_map.
  apply flat_map_ext_In. intros m _. apply written_by_under. apply E.
Qed.

Lemma below_app (s : step) (a b : store) :
  below s (a ++ b) = below s a ++ below s b.
Proof.
  induction a as [| [[[| s' q] k] v] a IH]; simpl; auto.
  destruct (step_eqb s s'); simpl; rewrite IH; reflexivity.
Qed.

Lemma step_eqb_eq (a b : step) : step_eqb a b = true <-> a = b.
Proof.
  destruct a, b; simpl; try (split; discriminate).
  - rewrite String.eqb_eq. split; congruence.
  - rewrite Nat.eqb_eq. split; congruence.
Qed.

Lemma below_lift_same (s : step) (st : store) :
  below s (map (lift_cell s) st) = st.
Proof.
  induction st as [| [[q k] v] st IH]; simpl; auto.
  rewrite (proj2 (step_eqb_eq s s) eq_refl), IH. reflexivity.
Qed.

Lemma below_lift_other (s s' : step) (st : store) :
  s <> s' -> below s (map (lift_cell s') st) = [].
Proof.
  intros Hne. induction st as [| [[q k] v] st IH]; simpl; auto.
  destruct (step_eqb s s') eqn:E; auto.
  apply step_eqb_eq in E. contradiction.
Qed.

Lemma below_root (s : step) (st : store) :
  (forall q k v, In (q, k, v) st -> q = []) -> below s st = [].
Proof.
  induction st as [| [[q k] v] st IH]; simpl; intros H; auto.
  rewrite (H q k v (or_introl eq_refl)). apply IH.
  intros q' k' v' Hin. eapply H. eauto.
Qed.

Lemma rev_flat_map {A B : Type} (f : A -> list B) (l : list A) :
  rev (flat_map f l) = flat_map (fun x => rev (f x)) (rev l).
Proof.
  induction l as [| x l IH]; simpl; auto.
  rewrite rev_app_distr, IH, flat_map_app. simpl.
  rewrite app_nil_r. reflexivity.
Qed.

Lemma flat_map_flat_map {A B C : Type} (f : A -> list B) (g : B -> list C)
  (l : list A) :
  flat_map g (flat_map f l) = flat_map (fun x => flat_map g (f x)) l.
Proof.
  induction l as [| x l IH]; simpl; auto.
  rewrite flat_map_app, IH. reflexivity.
Qed.

(** The cells assigned for one entry of a mapping, and for its
    structured check. *)
Let entry_cells (typed : fields) (kv : string * node) : store :=
  flat_map (written_by (Mapping typed) imageName newVersion false)
           (rev (walk_entry imageName kv)).

Let block_cells (typed : fields) : store :=
  flat_map (written_by (Mapping typed) imageName newVersion false)
           (rev (walk_block imageName typed)).

Lemma cells_in_Mapping (typed : fields) :
  cells_in (Mapping typed)
  = flat_map (entry_cells typed) (rev typed) ++ block_cells typed.
Proof.
  unfold cells_in, entry_cells, block_cells.
  rewrite walk_Mapping, rev_app_distr, flat_map_app. f_equal.
  rewrite rev_flat_map, flat_map_flat_map. reflexivity.
Qed.

Lemma entry_cells_eq (typed : fields) (k : string) (v : node) :
  lookup k typed = Some v ->
  entry_cells typed (k, v)
  = if stale_inline imageName newVersion v
    then [([], k, Sprintf_colon imageName newVersion)]
    else map (lift_cell (Key k)) (cells_in v).
Proof.
  intros Hl. unfold entry_cells, walk_entry. cbn [fst snd].
  assert (Hsub : flat_map (written_by (Mapping typed) imageName newVersion false)
                   (rev (map (under (Key k)) (walk imageName v)))
                 = map (lift_cell (Key k)) (cells_in v)).
  { apply cells_under. intros m. apply current_under_Key. exact Hl. }
  destruct v; try exact Hsub.
  cbn [stale_inline].
  destruct (HasPrefix s (imageName ++ ":")); [| exact Hsub].
  cbn [rev app flat_map andb]. unfold written_by, verdict. cbn [current].
  rewrite valid. cbn [negb].
  destruct (String.eqb (version_of s) newVersion); reflexivity.
Qed.

Lemma block_cells_eq (typed : fields) :
  block_cells typed
  = if retagged imageName newVersion typed
    then [([], "tag", newVersion)] else [].
Proof.
  unfold block_cells, walk_block, retagged.
  destruct (lookup "repository" typed) as [[| | | repo | |] |]; auto.
  destruct (String.eqb repo imageName); auto.
  cbn [rev app flat_map andb]. unfold written_by, verdict. cbn [current get_at].
  rewrite valid. cbn [negb].
  destruct (String.eqb (tag_of typed) newVersion); reflexivity.
Qed.

Lemma cells_in_Str (s : string) : cells_in (Str s) = [].
Proof. reflexivity. Qed.

Lemma below_entry (typed : fields) (k k' : string) (v' : node) :
  lookup k' typed = Some v' ->
  below (Key k) (entry_cells typed (k', v'))
  = if String.eqb k k' then cells_in v' else [].
Proof.
  intros Hl. rewrite entry_cells_eq by assumption.
  destruct (stale_inline imageName newVersion v') eqn:Es.
  - destruct v'; try discriminate.
    rewrite cells_in_Str. destruct (String.eqb k k'); reflexivity.
  - destruct (String.eqb_spec k k') as [-> | Hne].
    + apply below_lift_same.
    + apply below_lift_other. congruence.
Qed.

Lemma assigned_entry (typed : fields) (k k' : string) (v' : node) :
  lookup k' typed = Some v' ->
  assigned (entry_cells typed (k', v')) [] k
  = if String.eqb k k' && stale_inline imageName newVersion v'
    then Some (Sprintf_colon imageName newVersion) else None.
Proof.
  intros Hl. rewrite entry_cells_eq by assumption.
  destruct (stale_inline imageName newVersion v').
  - simpl. destruct (String.eqb k k'); reflexivity.
  - rewrite andb_false_r. apply assigned_other_path.
    intros q key value Hin. apply in_map_iff in Hin as ([[q' ?] ?] & E & _).
    injection E as <- _ _. discriminate.
Qed.

Lemma below_entries (typed : fields) (k : string) (l : fields) :
  (forall k' v', In (k', v') l -> lookup k' typed = Some v') ->
  NoDup (map fst l) ->
  below (Key k) (flat_map (entry_cells typed) (rev l))
  = match lookup k l with Some v => cells_in v | None => [] end.
Proof.
  induction l as [| [k0 v0] l IH]; intros Hsub Hnd; auto.
  inversion Hnd as [| ? ? Hk0 Hnd']; subst.
  cbn [rev]. rewrite flat_map_app, below_app. cbn [flat_map].
  rewrite app_nil_r, below_entry by (apply Hsub; simpl; auto).
  rewrite IH; auto.
  2:{ intros k' v' H. apply Hsub. simpl. auto. }
  cbn [lookup]. destruct (String.eqb_spec k k0) as [-> | Hne].
  - assert (E : lookup k0 l = None) by (apply lookup_None; exact Hk0).
    rewrite E. reflexivity.
  - rewrite app_nil_r. reflexivity.
Qed.

Lemma assigned_entries (typed : fields) (k : string) (l : fields) :
  (forall k' v', In (k', v') l -> lookup k' typed = Some v') ->
  NoDup (map fst l) ->
  assigned (flat_map (entry_cells typed) (rev l)) [] k
  = match lookup k l with
    | Some v => if stale_inline imageName newVersion v
                then Some (Sprintf_colon imageName newVersion) else None
    | None => None
    end.
Proof.
  induction l as [| [k0 v0] l IH]; intros Hsub Hnd; auto.
  inversion Hnd as [| ? ? Hk0 Hnd']; subst.
  cbn [rev]. rewrite flat_map_app, assigned_app. cbn [flat_map].
  rewrite app_nil_r, assigned_entry by (apply Hsub; simpl; auto).
  rewrite IH; auto.
  2:{ intros k' v' H. apply Hsub. simpl. auto. }
  cbn [lookup]. destruct (String.eqb_spec k k0) as [-> | Hne].
  - assert (E : lookup k0 l = None) by (apply lookup_None; exact Hk0).
    rewrite E. reflexivity.
  - cbn [andb]. destruct (lookup k l) as [v |]; auto.
    destruct (stale_inline imageName newVersion v); reflexivity.
Qed.

Lemma fresh_known (a b : store) (known : list string) :
  (forall k v, In ([], k, v) a -> In k known) ->
  fresh (a ++ b) known = fresh b known.
Proof.
  induction a as [| [[[| s q] k] v] a IH]; simpl; intros H; auto.
  - assert (E : existsb (String.eqb k) known = true).
    { apply existsb_eqb_In. eapply H. eauto. }
    rewrite E. apply IH. intros k' v' Hin. eapply H. eauto.
  - apply IH. intros k' v' Hin. eapply H. eauto.
Qed.

Lemma entries_root_known (typed : fields) (l : fields) (k v : string) :
  (forall k' v', In (k', v') l -> lookup k' typed = Some v') ->
  In ([], k, v) (flat_map (entry_cells typed) (rev l)) ->
  In k (map fst l).
Proof.
  intros Hsub Hin. apply in_flat_map in Hin as ([k' v'] & Hkv & Hin).
  rewrite <- in_rev in Hkv.
  rewrite entry_cells_eq in Hin by (apply Hsub; exact Hkv).
  destruct (stale_inline imageName newVersion v').
  - destruct Hin as [[= <- _] | []].
    apply (in_map fst) in Hkv. exact Hkv.
  - apply in_map_iff in Hin as ([[q' ?] ?] & E & _). discriminate.
Qed.

Lemma below_items (items : list node) (j : nat) (l : list node) :
  forall i,
    (forall t x, nth_error l t = Some x -> nth_error items (i + t) = Some x) ->
    below (Idx j)
      (flat_map (written_by (Seq items) imageName newVersion false)
                (rev (walk_items imageName i l)))
    = if Nat.ltb j i then []
      else match nth_error l (j - i) with
           | Some x => cells_in x
           | None => []
           end.
Proof.
  induction l as [| x l IH]; intros i Hsuf.
  - simpl. destruct (Nat.ltb j i); auto. destruct (j - i); reflexivity.
  - cbn [walk_items]. rewrite rev_app_distr, flat_map_app, below_app.
    rewrite IH.
    2:{ intros t y Ht. rewrite Nat.add_succ_l, <- Nat.add_succ_r.
        apply Hsuf. exact Ht. }
    rewrite (cells_under (Seq items) x).
    2:{ intros m. apply current_under_Idx.
        rewrite <- (Nat.add_0_r i). apply Hsuf. reflexivity. }
    destruct (Nat.ltb_spec j i) as [Hlt | Hge].
    + destruct (Nat.ltb_spec j (S i)) as [_ | Hc]; [| lia].
      rewrite below_lift_other; [reflexivity |].
      intros [= E]. lia.
    + destruct (Nat.eq_dec j i) as [-> | Hne].
      * destruct (Nat.ltb_spec i (S i)) as [_ | Hc]; [| lia].
        rewrite below_lift_same, Nat.sub_diag. reflexivity.
      * destruct (Nat.ltb_spec j (S i)) as [Hc | _]; [lia |].
        rewrite below_lift_other by (intros [= E]; lia).
        rewrite app_nil_r.
        replace (j - i) with (S (j - S i)) by lia. reflexivity.
Qed.

Lemma readback_items_cells (items : list node) (l : list node) :
  forall i,
    (forall t x, nth_error l t = Some x -> nth_error items (i + t) = Some x) ->
    Forall (fun x => readback (cells_in x) x = rewritten imageName newVersion x)
           l ->
    readback_items (cells_in (Seq items)) i l
    = map (rewritten imageName newVersion) l.
Proof.
  induction l as [| x l IH]; intros i Hsuf Hall; auto.
  inversion Hall as [| ? ? Hx Hl]; subst.
  cbn [readback_items map]. f_equal.
  - unfold cells_in at 1. rewrite walk_Seq.
    rewrite (below_items items i items 0) by (intros t y Ht; exact Ht).
    destruct (Nat.ltb_spec i 0) as [Hc | _]; [lia |].
    rewrite Nat.sub_0_r.
    rewrite <- (Nat.add_0_r i) at 1.
    rewrite (Hsuf 0 x eq_refl). exact Hx.
  - apply IH; auto.
    intros t y Ht. rewrite Nat.add_succ_l, <- Nat.add_succ_r.
    apply Hsuf. exact Ht.
Qed.

(** The loop of the rewriter and the one-pass rewrite leave the same
    tree. *)
Lemma rewritten_is_readback (n : node) :
  well_keyed n = true ->
  readback (cells_in n) n = rewritten imageName newVersion n.
Proof.
  induction n as [| | | | items IH | typed IH] using node_ind;
    intros Hwf; auto.
  - rewrite readback_Seq. cbn [rewritten]. f_equal.
    apply readback_items_cells; [intros t y Ht; exact Ht |].
    rewrite well_keyed_Seq in Hwf.
    rewrite Forall_forall in *. intros x Hx. apply IH; auto.
  - apply well_keyed_Mapping in Hwf as [Hnd Hall].
    rewrite readback_Mapping. cbn [rewritten]. f_equal.
    unfold readback_fields. rewrite cells_in_Mapping.
    assert (Hsub : forall k v, In (k, v) typed -> lookup k typed = Some v).
    { intros k v Hin. apply In_lookup; auto. }
    f_equal.
    + apply map_ext_in. intros [k v] Hin. cbn [fst snd]. f_equal.
      rewrite assigned_app, assigned_entries, (Hsub k v Hin) by auto.
      destruct (stale_inline imageName newVersion v) eqn:Es; [reflexivity |].
      rewrite block_cells_eq.
      destruct (retagged imageName newVersion typed); cbn [andb].
      * cbn [assigned path_eqb andb].
        destruct (String.eqb k "tag"); [reflexivity |].
        rewrite below_app, below_entries, (Hsub k v Hin) by auto.
        cbn [below]. rewrite app_nil_r.
        rewrite Forall_forall in IH. apply (IH (k, v)); eauto.
      * cbn [assigned].
        rewrite below_app, below_entries, (Hsub k v Hin) by auto.
        cbn [below]. rewrite app_nil_r.
        rewrite Forall_forall in IH. apply (IH (k, v)); eauto.
    + rewrite fresh_known.
      2:{ intros k v Hin. eapply entries_root_known; eauto. }
      rewrite block_cells_eq. unfold has_key.
      destruct (retagged imageName newVersion typed); cbn [andb fresh];
        [| reflexivity].
      destruct (existsb (String.eqb "tag") (map fst typed)); reflexivity.
Qed.

End Cells.

(** ** After a call, every match is at the new version *)

Section Settled.

Variables imageName newVersion : string.
Hypothesis valid : isValidSemver newVersion = true.

Let rw := rewritten imageName newVersion.

Lemma rewritten_Mapping (typed : fields) :
  rw (Mapping typed)
  = Mapping (map (fun kv =>
                    (fst kv, rewritten_value imageName newVersion typed kv))
                 typed
             ++ rewritten_extra imageName newVersion typed).
Proof. reflexivity. Qed.

Lemma prefix_split (a b : string) :
  String.prefix a b = true -> exists rest, b = (a ++ rest)%string.
Proof.
  revert b. induction a as [| c a IH]; intros b H.
  - exists b. reflexivity.
  - destruct b as [| d b]; simpl in H; [discriminate |].
    destruct (ascii_dec c d) as [E | Hne]; [| discriminate].
    subst d. destruct (IH b H) as (rest & E). subst b.
    exists rest. reflexivity.
Qed.

Lemma prefix_append (a rest : string) : String.prefix a (a ++ rest) = true.
Proof.
  induction a as [| c a IH]; simpl.
  - destruct rest; reflexivity.
  - destruct (ascii_dec c c); [exact IH | contradiction].
Qed.

Lemma new_not_inline : HasPrefix newVersion (imageName ++ ":") = false.
Proof.
  destruct (HasPrefix newVersion (imageName ++ ":")) eqn:E; auto.
  apply prefix_split in E as (rest & E).
  pose proof (valid_lacks_colon newVersion valid) as Hl.
  rewrite E in Hl. rewrite !lacks_append in Hl.
  destruct Hl as [[_ Hl] _]. exfalso. apply Hl. simpl. auto.
Qed.

Lemma fresh_ref_inline :
  HasPrefix (Sprintf_colon imageName newVersion) (imageName ++ ":") = true.
Proof.
  unfold HasPrefix, Sprintf_colon.
  rewrite <- append_assoc. apply prefix_append.
Qed.

Lemma fresh_ref_version :
  version_of (Sprintf_colon imageName newVersion) = newVersion.
Proof.
  apply version_of_last_colon. apply valid_lacks_colon. exact valid.
Qed.

Lemma length_append (a b : string) :
  String.length (a ++ b) = String.length a + String.length b.
Proof. induction a; simpl; auto. Qed.

Lemma fresh_ref_not_name : Sprintf_colon imageName newVersion <> imageName.
Proof.
  unfold Sprintf_colon. intros E.
  apply (f_equal String.length) in E.
  rewrite length_append in E. simpl in E. lia.
Qed.

Lemma rewritten_Str_inv (v : node) (s : string) : rw v = Str s -> v = Str s.
Proof. destruct v; simpl; try discriminate; auto. Qed.

Lemma stale_inline_false (s : string) :
  stale_inline imageName newVersion (Str s) = false ->
  HasPrefix s (imageName ++ ":") = true ->
  version_of s = newVersion.
Proof.
  simpl. intros H Hp. rewrite Hp in H. simpl in H.
  apply negb_false_iff, String.eqb_eq in H. exact H.
Qed.

Lemma lookup_map_value (f : string * node -> node) (typed : fields)
  (key : string) :
  lookup key (map (fun kv => (fst kv, f kv)) typed)
  = match lookup key typed with
    | Some v => Some (f (key, v))
    | None => None
    end.
Proof.
  induction typed as [| [k v] typed IH]; simpl; auto.
  destruct (String.eqb_spec key k) as [-> | Hne]; auto.
Qed.

Lemma lookup_rewritten (typed : fields) (key : string) :
  lookup key (map (fun kv =>
                     (fst kv, rewritten_value imageName newVersion typed kv))
                  typed
              ++ rewritten_extra imageName newVersion typed)
  = match lookup key typed with
    | Some v => Some (rewritten_value imageName newVersion typed (key, v))
    | None => lookup key (rewritten_extra imageName newVersion typed)
    end.
Proof.
  rewrite lookup_app, lookup_map_value.
  destruct (lookup key typed); reflexivity.
Qed.

Lemma tag_clash_Mapping (typed : fields) :
  tag_clash imageName newVersion (Mapping typed) = false ->
  (forall t, lookup "repository" typed = Some (Str imageName) ->
             lookup "tag" typed = Some t ->
             stale_inline imageName newVersion t = false) /\
  (forall k v, In (k, v) typed -> tag_clash imageName newVersion v = false).
Proof.
  cbn [tag_clash]. intros H. apply orb_false_iff in H as [Hhere Hsub].
  split.
  - intros t Hr Ht. rewrite Hr, Ht, String.eqb_refl in Hhere. exact Hhere.
  - intros k v Hin.
    destruct (tag_clash imageName newVersion v) eqn:E; auto.
    assert (Hex : existsb (fun kv => tag_clash imageName newVersion (snd kv))
                    typed = true).
    { apply existsb_exists. exists (k, v). auto. }
    congruence.
Qed.

(** A block of the rewritten mapping was a block before. *)
Lemma rewritten_block_inv (typed : fields) :
  lookup "repository"
    (map (fun kv => (fst kv, rewritten_value imageName newVersion typed kv))
         typed
     ++ rewritten_extra imageName newVersion typed)
  = Some (Str imageName) ->
  lookup "repository" typed = Some (Str imageName).
Proof.
  rewrite lookup_rewritten.
  destruct (lookup "repository" typed) as [v |].
  - unfold rewritten_value. cbn [fst snd].
    destruct (stale_inline imageName newVersion v).
    + intros [= E]. exfalso. apply fresh_ref_not_name. exact E.
    + rewrite andb_false_r. intros [= E].
      apply rewritten_Str_inv in E. congruence.
  - unfold rewritten_extra.
    destruct (_ && _); simpl; discriminate.
Qed.

(** The tag of a rewritten block is the new version. *)
Lemma rewritten_block_tag (typed : fields) :
  lookup "repository" typed = Some (Str imageName) ->
  (forall t, lookup "tag" typed = Some t ->
             stale_inline imageName newVersion t = false) ->
  tag_of (map (fun kv => (fst kv, rewritten_value imageName newVersion typed kv))
              typed
          ++ rewritten_extra imageName newVersion typed)
  = newVersion.
Proof.
  intros Hrepo Hclash. unfold tag_of at 1. rewrite lookup_rewritten.
  unfold rewritten_value, rewritten_extra, retagged, has_key.
  rewrite Hrepo, String.eqb_refl. cbn [fst snd andb].
  unfold tag_of.
  destruct (lookup "tag" typed) as [v |] eqn:Htag.
  - rewrite (Hclash v eq_refl).
    destruct v as [| | | t | |];
      try (destruct (String.eqb_spec "" newVersion) as [E | _];
           [exfalso; apply (valid_nonempty _ valid); auto | reflexivity]).
    destruct (String.eqb_spec t newVersion) as [-> | Hne]; reflexivity.
  - destruct (String.eqb_spec "" newVersion) as [E | _];
      [exfalso; apply (valid_nonempty _ valid); auto |].
    assert (Hk : existsb (String.eqb "tag") (map fst typed) = false).
    { destruct (existsb (String.eqb "tag") (map fst typed)) eqn:E; auto.
      apply existsb_eqb_In in E. apply lookup_None in Htag. contradiction. }
    rewrite Hk. reflexivity.
Qed.

Lemma rewritten_settled (n : node) :
  well_keyed n = true ->
  tag_clash imageName newVersion n = false ->
  forall m, In m (walk imageName (rw n)) -> current (rw n) m = newVersion.
Proof.
  induction n as [| | | | items IH | typed IH] using node_ind;
    intros Hwf Hclash m Hin; try (simpl in Hin; tauto).
  - unfold rw in *. cbn [rewritten] in *. rewrite walk_Seq in Hin.
    apply walk_items_In in Hin as (j & x' & m0 & Hn & Hm0 & ->).
    rewrite (current_under_Idx _ _ x') by exact Hn.
    rewrite nth_error_map in Hn.
    destruct (nth_error items j) as [x |] eqn:Hx; [| discriminate].
    injection Hn as <-.
    apply nth_error_In in Hx. rewrite Forall_forall in IH.
    rewrite well_keyed_Seq in Hwf.
    apply IH; auto.
    cbn [tag_clash] in Hclash.
    destruct (tag_clash imageName newVersion x) eqn:E; auto.
    assert (Hex : existsb (tag_clash imageName newVersion) items = true).
    { apply existsb_exists. eauto. }
    congruence.
  - apply well_keyed_Mapping in Hwf as [Hnd Hall].
    apply tag_clash_Mapping in Hclash as [Hhere Hsub].
    rewrite rewritten_Mapping in *.
    rewrite walk_Mapping, in_app_iff in Hin. destruct Hin as [Hin | Hin].
    + apply walk_block_In in Hin as [-> Hrepo]. cbn [current get_at].
      apply rewritten_block_inv in Hrepo.
      apply rewritten_block_tag; auto.
    + apply in_flat_map in Hin as ([k v'] & Hkv & Hin).
      apply in_app_iff in Hkv as [Hkv | Hkv].
      * apply in_map_iff in Hkv as ([k0 v] & [= -> <-] & Hkv).
        pose proof (In_lookup k typed v Hnd Hkv) as Hl.
        apply walk_entry_In in Hin
          as [(s & Hs & Hpre & ->) | (m0 & Hm0 & -> & _)].
        -- cbn [current]. unfold rewritten_value in Hs. cbn [fst snd] in Hs.
           destruct (stale_inline imageName newVersion v) eqn:Est.
           ++ injection Hs as <-. apply fresh_ref_version.
           ++ destruct (_ && _).
              ** injection Hs as <-. rewrite new_not_inline in Hpre.
                 discriminate.
              ** apply rewritten_Str_inv in Hs. subst v.
                 apply stale_inline_false; auto.
        -- rewrite (current_under_Key _ k
                      (rewritten_value imageName newVersion typed (k, v))).
           2:{ rewrite lookup_rewritten, Hl. reflexivity. }
           unfold rewritten_value in *. cbn [fst snd] in *.
           destruct (stale_inline imageName newVersion v);
             [simpl in Hm0; tauto |].
           destruct (_ && _); [simpl in Hm0; tauto |].
           rewrite Forall_forall in IH.
           apply (IH (k, v)); eauto.
      * unfold rewritten_extra in Hkv.
        destruct (_ && _); simpl in Hkv; [| tauto].
        destruct Hkv as [[= <- <-] | []].
        unfold walk_entry in Hin. cbn [fst snd] in Hin.
        rewrite new_not_inline in Hin. simpl in Hin. tauto.
Qed.

Lemma rewritten_well_keyed (n : node) :
  well_keyed n = true -> well_keyed (rw n) = true.
Proof.
  induction n as [| | | | items IH | typed IH] using node_ind;
    intros Hwf; auto.
  - unfold rw. cbn [rewritten]. apply well_keyed_Seq.
    rewrite well_keyed_Seq in Hwf. rewrite Forall_forall in IH.
    intros x' Hx'. apply in_map_iff in Hx' as (x & <- & Hx). apply IH; auto.
  - apply well_keyed_Mapping in Hwf as [Hnd Hall].
    rewrite rewritten_Mapping. apply well_keyed_Mapping. split.
    + rewrite map_app, map_map. cbn [fst].
      unfold rewritten_extra, has_key.
      destruct (retagged imageName newVersion typed); cbn [andb];
        [| rewrite app_nil_r; exact Hnd].
      destruct (existsb (String.eqb "tag") (map fst typed)) eqn:E;
        cbn [negb map]; [rewrite app_nil_r; exact Hnd |].
      apply NoDup_app; [exact Hnd | repeat constructor; simpl; tauto |].
      intros k Hk [<- | []].
      assert (Hex : existsb (String.eqb "tag") (map fst typed) = true)
        by (apply existsb_eqb_In; exact Hk).
      congruence.
    + intros k v' Hin. apply in_app_iff in Hin as [Hin | Hin].
      * apply in_map_iff in Hin as ([k0 v] & [= -> <-] & Hkv).
        unfold rewritten_value. cbn [fst snd].
        destruct (stale_inline imageName newVersion v); auto.
        destruct (_ && _); auto.
        rewrite Forall_forall in IH. apply (IH (k, v)); eauto.
      * unfold rewritten_extra in Hin.
        destruct (_ && _); simpl in Hin; [| tauto].
        destruct Hin as [[= <- <-] | []]. reflexivity.
Qed.

End Settled.

(** ** The tree a call leaves *)

Lemma values_after_rewritten (values : fields) (imageName newVersion : string) :
  well_keyed (Mapping values) = true ->
  isValidSemver newVersion = true ->
  Mapping (values_after
             (BumpTagInValuesUniversal values imageName newVersion false))
  = rewritten imageName newVersion (Mapping values).
Proof.
  intros Hwf Hvalid.
  rewrite values_after_writes, writes_universal by assumption.
  rewrite <- readback_Mapping.
  apply rewritten_is_readback; assumption.
Qed.

(** ** The order of the entries does not matter *)

Lemma same_tree_refl (n : node) : same_tree n n.
Proof.
  induction n as [| | | | items IH | typed IH] using node_ind;
    try constructor; auto.
  - intros i x x' H1 H2. rewrite H1 in H2. injection H2 as <-.
    rewrite Forall_forall in IH. apply IH. eapply nth_error_In; eauto.
  - tauto.
  - intros key v v' H1 H2. rewrite H1 in H2. injection H2 as <-.
    rewrite Forall_forall in IH. apply (IH (key, v)).
    apply lookup_In. exact H1.
Qed.

Lemma same_tree_sym (n n' : node) : same_tree n n' -> same_tree n' n.
Proof.
  induction 1 as [| | | | items items' Hlen _ IH
                  | typed typed' Hkeys _ IH]; constructor; auto.
  - intros i x x' H1 H2. eauto.
  - intros key. symmetry. apply Hkeys.
  - intros key v v' H1 H2. eauto.
Qed.

Lemma same_tree_Str_l (s : string) (n : node) :
  same_tree (Str s) n -> n = Str s.
Proof. inversion 1; reflexivity. Qed.

Lemma same_tree_lookup (typed typed' : fields) (key : string) (v : node) :
  same_tree (Mapping typed) (Mapping typed') ->
  lookup key typed = Some v ->
  exists v', lookup key typed' = Some v' /\ same_tree v v'.
Proof.
  inversion 1 as [| | | | | ? ? Hkeys Hvals]; subst. intros Hl.
  destruct (lookup key typed') as [v' |] eqn:E.
  - exists v'. split; eauto.
  - apply Hkeys in E. congruence.
Qed.

Lemma same_tree_nth (items items' : list node) (i : nat) (x : node) :
  same_tree (Seq items) (Seq items') ->
  nth_error items i = Some x ->
  exists x', nth_error items' i = Some x' /\ same_tree x x'.
Proof.
  inversion 1 as [| | | | ? ? Hlen Hvals |]; subst. intros Hn.
  destruct (nth_error items' i) as [x' |] eqn:E.
  - exists x'. split; eauto.
  - apply nth_error_None in E.
    assert (i < length items) by (apply nth_error_Some; congruence). lia.
Qed.

Lemma same_tree_get_at (p : path) :
  forall n n' x,
    same_tree n n' -> get_at p n = Some x ->
    exists x', get_at p n' = Some x' /\ same_tree x x'.
Proof.
  induction p as [| [k | i] q IH]; intros n n' x Hs Hget.
  - injection Hget as <-. exists n'. auto.
  - simpl in Hget. destruct n as [| | | | | typed]; try discriminate.
    destruct (lookup k typed) as [v |] eqn:Hl; [| discriminate].
    inversion Hs as [| | | | | ? typed' ? ?]; subst.
    destruct (same_tree_lookup typed typed' k v Hs Hl) as (v' & Hl' & Hv).
    simpl. rewrite Hl'. eauto.
  - simpl in Hget. destruct n as [| | | | items |]; try discriminate.
    destruct (nth_error items i) as [v |] eqn:Hn; [| discriminate].
    inversion Hs as [| | | | ? items' ? ? |]; subst.
    destruct (same_tree_nth items items' i v Hs Hn) as (v' & Hn' & Hv).
    simpl. rewrite Hn'. eauto.
Qed.

Lemma same_tree_tag_of (typed typed' : fields) :
  same_tree (Mapping typed) (Mapping typed') -> tag_of typed = tag_of typed'.
Proof.
  intros Hs. unfold tag_of.
  destruct (lookup "tag" typed) as [v |] eqn:E.
  - destruct (same_tree_lookup _ _ _ _ Hs E) as (v' & -> & Hv).
    inversion Hv; reflexivity.
  - inversion Hs as [| | | | | ? ? Hkeys _]; subst.
    apply Hkeys in E. rewrite E. reflexivity.
Qed.

(** A match of one tree is a match of the other, at the same version. *)
Lemma same_tree_match (imageName : string) (n n' : node) (m : found) :
  well_keyed n = true -> same_tree n n' ->
  In m (walk imageName n) ->
  In m (walk imageName n') /\ current n m = current n' m.
Proof.
  intros Hwf Hs Hin.
  pose proof (walk_stands imageName n Hwf m Hin) as Hst.
  destruct m as [p | key value p]; cbn [stands current] in *.
  - destruct Hst as (typed & Hget & Hrepo).
    destruct (same_tree_get_at p n n' _ Hs Hget) as (x' & Hget' & Hx).
    inversion Hx as [| | | | | ? typed' ? ?]; subst.
    destruct (same_tree_lookup _ _ _ _ Hx Hrepo) as (r' & Hrepo' & Hr).
    apply same_tree_Str_l in Hr. subst r'.
    rewrite Hget, Hget'. split.
    + eapply walk_finds_block; eauto.
    + apply same_tree_tag_of. exact Hx.
  - destruct Hst as (Hpre & typed & Hget & Hl).
    destruct (same_tree_get_at p n n' _ Hs Hget) as (x' & Hget' & Hx).
    inversion Hx as [| | | | | ? typed' ? ?]; subst.
    destruct (same_tree_lookup _ _ _ _ Hx Hl) as (r' & Hl' & Hr).
    apply same_tree_Str_l in Hr. subst r'.
    split; [| reflexivity].
    replace (Aspire key value p) with (relocate p (Aspire key value [])) by
      (simpl; rewrite app_nil_r; reflexivity).
    apply walk_descend with (x := Mapping typed'); auto.
    rewrite walk_Mapping, in_app_iff. right.
    apply in_flat_map. exists (key, Str value).
    split; [apply lookup_In; exact Hl' |].
    unfold walk_entry. cbn [fst snd]. rewrite Hpre. simpl. auto.
Qed.

(** The boolean of the universal rewriter does not depend on the order in
    which the maps are visited. *)
Lemma changed_same_tree (values values' : fields)
  (imageName newVersion : string) (dryRun dryRun' : bool) :
  well_keyed (Mapping values) = true ->
  well_keyed (Mapping values') = true ->
  same_tree (Mapping values) (Mapping values') ->
  changed (BumpTagInValuesUniversal values imageName newVersion dryRun)
  = changed (BumpTagInValuesUniversal values' imageName newVersion dryRun').
Proof.
  intros Hwf Hwf' Hs. rewrite !changed_universal by assumption.
  f_equal. unfold findImageBlocksUniversal.
  assert (Hone : forall a b,
            well_keyed a = true -> same_tree a b ->
            existsb (fun m => negb (String.eqb (current a m) newVersion))
                    (walk imageName a) = true ->
            existsb (fun m => negb (String.eqb (current b m) newVersion))
                    (walk imageName b) = true).
  { intros a b Ha Hab H. apply existsb_exists in H as (m & Hm & Hc).
    destruct (same_tree_match imageName a b m Ha Hab Hm) as [Hm' E].
    apply existsb_exists. exists m. rewrite <- E. auto. }
  destruct (existsb _ (walk imageName (Mapping values))) eqn:E1;
    destruct (existsb _ (walk imageName (Mapping values'))) eqn:E2; auto.
  - apply (Hone _ _ Hwf Hs) in E1. congruence.
  - apply (Hone _ _ Hwf' (same_tree_sym _ _ Hs)) in E2. congruence.
Qed.

Lemma has_key_lookup (key : string) (typed : fields) :
  has_key key typed = false <-> lookup key typed = None.
Proof.
  unfold has_key. rewrite lookup_None, <- existsb_eqb_In.
  destruct (existsb (String.eqb key) (map fst typed)); split;
    congruence.
Qed.

Lemma same_tree_stale (imageName newVersion : string) (v v' : node) :
  same_tree v v' ->
  stale_inline imageName newVersion v = stale_inline imageName newVersion v'.
Proof. inversion 1; reflexivity. Qed.

Lemma same_tree_retagged (imageName newVersion : string)
  (typed typed' : fields) :
  same_tree (Mapping typed) (Mapping typed') ->
  retagged imageName newVersion typed = retagged imageName newVersion typed'.
Proof.
  intros Hs. unfold retagged. rewrite (same_tree_tag_of _ _ Hs).
  destruct (lookup "repository" typed) as [v |] eqn:E.
  - destruct (same_tree_lookup _ _ _ _ Hs E) as (v' & -> & Hv).
    inversion Hv; reflexivity.
  - inversion Hs as [| | | | | ? ? Hkeys _]; subst.
    apply Hkeys in E. rewrite E. reflexivity.
Qed.

Lemma same_tree_extra (imageName newVersion : string) (typed typed' : fields) :
  same_tree (Mapping typed) (Mapping typed') ->
  rewritten_extra imageName newVersion typed
  = rewritten_extra imageName newVersion typed'.
Proof.
  intros Hs. unfold rewritten_extra.
  rewrite (same_tree_retagged _ _ _ _ Hs).
  replace (has_key "tag" typed') with (has_key "tag" typed); auto.
  inversion Hs as [| | | | | ? ? Hkeys _]; subst.
  destruct (has_key "tag" typed) eqn:E, (has_key "tag" typed') eqn:E'; auto.
  - apply has_key_lookup, Hkeys, has_key_lookup in E'. congruence.
  - apply has_key_lookup, Hkeys, has_key_lookup in E. congruence.
Qed.

Lemma rewritten_same_tree (imageName newVersion : string) (n n' : node) :
  same_tree n n' ->
  same_tree (rewritten imageName newVersion n)
            (rewritten imageName newVersion n').
Proof.
  induction 1 as [| | | | items items' Hlen Hvals IH
                  | typed typed' Hkeys Hvals IH];
    try (simpl; constructor; fail).
  - cbn [rewritten]. constructor; [rewrite !length_map; exact Hlen |].
    intros i x x' Hx Hx'. rewrite nth_error_map in Hx, Hx'.
    destruct (nth_error items i) as [y |] eqn:Ey; [| discriminate].
    destruct (nth_error items' i) as [y' |] eqn:Ey'; [| discriminate].
    injection Hx as <-. injection Hx' as <-. eauto.
  - assert (Hs : same_tree (Mapping typed) (Mapping typed'))
      by (constructor; auto).
    rewrite !rewritten_Mapping. constructor.
    + intros key. rewrite !lookup_rewritten.
      rewrite (same_tree_extra _ _ _ _ Hs).
      destruct (lookup key typed) as [v |] eqn:E,
               (lookup key typed') as [v' |] eqn:E';
        try tauto; try (split; discriminate).
      * apply Hkeys in E'. congruence.
      * apply Hkeys in E. congruence.
    + intros key w w'. rewrite !lookup_rewritten.
      rewrite (same_tree_extra _ _ _ _ Hs).
      destruct (lookup key typed) as [v |] eqn:E,
               (lookup key typed') as [v' |] eqn:E'.
      * intros [= <-] [= <-]. unfold rewritten_value. cbn [fst snd].
        rewrite (same_tree_stale imageName newVersion v v') by eauto.
        rewrite (same_tree_retagged _ _ _ _ Hs).
        destruct (stale_inline imageName newVersion v');
          [apply same_tree_refl |].
        destruct (_ && _); [apply same_tree_refl | eauto].
      * apply Hkeys in E'. congruence.
      * apply Hkeys in E. congruence.
      * intros H1 H2. rewrite H1 in H2. injection H2 as <-.
        apply same_tree_refl.
Qed.

Lemma universal_dry (values : fields) (imageName newVersion : string) :
  let r := BumpTagInValuesUniversal values imageName newVersion true in
  values_after r = values /\ writes r = [].
Proof.
  unfold BumpTagInValuesUniversal.
  destruct (Nat.eqb _ 0); cbn [values_after writes]; auto.
  rewrite fold_universal_dry. cbn [cells].
  rewrite readback_fields_nil. auto.
Qed.

(** What a call leaves does not depend on the order in which the maps
    are visited, nor does what the update loop returns. *)
Lemma values_after_same_tree (values values' : fields)
  (imageName newVersion : string) (dryRun : bool) :
  well_keyed (Mapping values) = true ->
  well_keyed (Mapping values') = true ->
  same_tree (Mapping values) (Mapping values') ->
  let r := BumpTagInValuesUniversal values imageName newVersion dryRun in
  let r' := BumpTagInValuesUniversal values' imageName newVersion dryRun in
  same_tree (Mapping (values_after r)) (Mapping (values_after r')) /\
  well_keyed (Mapping (values_after r)) = true /\
  well_keyed (Mapping (values_after r')) = true.
Proof.
  intros Hwf Hwf' Hs r r'. subst r r'.
  destruct dryRun.
  - rewrite !(proj1 (universal_dry _ _ _)). auto.
  - destruct (isValidSemver newVersion) eqn:Hv.
    + rewrite !values_after_rewritten by assumption.
      repeat split;
        [apply rewritten_same_tree; exact Hs
        | apply rewritten_well_keyed; auto ..].
    + destruct (universal_invalid values imageName newVersion false Hv)
        as (_ & _ & ->).
      destruct (universal_invalid values' imageName newVersion false Hv)
        as (_ & _ & ->).
      auto.
Qed.

Lemma update_loop_same_tree (updates : list (string * string)) (dryRun : bool) :
  forall values values' count,
    well_keyed (Mapping values) = true ->
    well_keyed (Mapping values') = true ->
    same_tree (Mapping values) (Mapping values') ->
    exists n after after',
      update_loop values updates dryRun count = inr (n, after) /\
      update_loop values' updates dryRun count = inr (n, after') /\
      same_tree (Mapping after) (Mapping after').
Proof.
  induction updates as [| [img v] rest IH];
    intros values values' count Hwf Hwf' Hs; simpl.
  - exists count, values, values'. auto.
  - rewrite !universal_err.
    rewrite (changed_same_tree values values' img v dryRun dryRun)
      by assumption.
    destruct (values_after_same_tree values values' img v dryRun Hwf Hwf' Hs)
      as (Hs2 & Hw2 & Hw2').
    apply IH; assumption.
Qed.

(** ** C3: the same update twice *)

(** C3 as stated fails on a structured block whose tag is itself an
    inline reference: the first call leaves the tag at [img:2.0.0], and
    the second call still changes it. *)
Lemma idempotence_counterexample :
  ~ (forall (values : fields) (imageName newVersion : string),
       well_keyed (Mapping values) = true ->
       findImageBlocksUniversal values imageName <> [] ->
       isValidSemver newVersion = true ->
       (exists m, In m (findImageBlocksUniversal values imageName) /\
                  current (Mapping values) m <> newVersion) ->
       let first := BumpTagInValuesUniversal values imageName newVersion false in
       let second :=
         BumpTagInValuesUniversal (values_after first) imageName newVersion
           false in
       changed first = true /\ changed second = false).
Proof.
  intros H.
  specialize (H clash_values "img" "2.0.0" eq_refl).
  destruct H as [_ H].
  - discriminate.
  - reflexivity.
  - exists (Block []). split; [simpl; auto | discriminate].
  - vm_compute in H. discriminate.
Qed.

(** C3, amended. On a tree that holds at least one match and in which no
    mapping whose [repository] is [image_name] holds under [tag] a string
    starting with [image_name:] whose version is not the new one, for a
    version that passes validation and differs from the current version of
    some match, the first call without [dry_run] returns [changed = true]
    and the second call, on the tree the first one left, returns
    [changed = false]: every match it finds is at the new version and is
    skipped as already current, in whatever order it visits the maps. *)
Theorem idempotence
  (values : fields) (imageName newVersion : string) :
  well_keyed (Mapping values) = true ->
  tag_clash imageName newVersion (Mapping values) = false ->
  isValidSemver newVersion = true ->
  (exists m, In m (findImageBlocksUniversal values imageName) /\
             current (Mapping values) m <> newVersion) ->
  let first := BumpTagInValuesUniversal values imageName newVersion false in
  let second :=
    BumpTagInValuesUniversal (values_after first) imageName newVersion false in
  changed first = true /\ changed second = false /\
  (forall m,
     In m (findImageBlocksUniversal (values_after first) imageName) ->
     current (Mapping (values_after first)) m = newVersion) /\
  (forall n, In n (output second) -> n = AlreadyAt \/ n = NoBlockFound) /\
  (forall again,
     well_keyed (Mapping again) = true ->
     same_tree (Mapping (values_after first)) (Mapping again) ->
     changed (BumpTagInValuesUniversal again imageName newVersion false)
     = false).
Proof.
  intros Hwf Hclash Hvalid (m & Hm & Hcur) first second. subst first second.
  pose proof (values_after_rewritten values imageName newVersion Hwf Hvalid)
    as Hafter.
  set (after := values_after
                  (BumpTagInValuesUniversal values imageName newVersion false))
    in *.
  assert (Hwf' : well_keyed (Mapping after) = true).
  { rewrite Hafter. apply rewritten_well_keyed. exact Hwf. }
  assert (Hsettled : forall m',
            In m' (findImageBlocksUniversal after imageName) ->
            current (Mapping after) m' = newVersion).
  { intros m' Hm'. unfold findImageBlocksUniversal in Hm'.
    rewrite Hafter in *. apply rewritten_settled; auto. }
  assert (Hsecond :
            changed (BumpTagInValuesUniversal after imageName newVersion false)
            = false).
  { rewrite changed_universal by assumption.
    rewrite Hvalid, andb_true_r.
    destruct (existsb _ _) eqn:E; auto.
    apply existsb_exists in E as (m' & Hm' & Hne).
    apply negb_true_iff, String.eqb_neq in Hne. exfalso. auto. }
  split; [| split; [exact Hsecond | split; [exact Hsettled | split]]].
  - rewrite changed_universal by assumption.
    rewrite Hvalid, andb_true_r.
    apply existsb_exists. exists m. split; auto.
    apply negb_true_iff, String.eqb_neq. exact Hcur.
  - intros n Hn. rewrite output_universal in Hn by assumption.
    destruct (findImageBlocksUniversal after imageName) as [| m0 ms] eqn:E.
    + destruct Hn as [<- | []]. auto.
    + apply in_map_iff in Hn as (m' & <- & Hm'). left.
      unfold verdict. rewrite (Hsettled m' Hm'), String.eqb_refl.
      reflexivity.
  - intros again Hwa Hsame. rewrite <- Hsecond. symmetry.
    apply changed_same_tree; assumption.
Qed.

Lemma idempotence_witness :
  let first := BumpTagInValuesUniversal sample_values
                 "ghcr.io/my-org/api" "1.3.9" false in
  let second := BumpTagInValuesUniversal (values_after first)
                  "ghcr.io/my-org/api" "1.3.9" false in
  changed first = true /\ changed second = false.
Proof.
  refine (let H := idempotence sample_values "ghcr.io/my-org/api" "1.3.9"
                     _ _ _ _ in conj (proj1 H) (proj1 (proj2 H))).
  - reflexivity.
  - reflexivity.
  - reflexivity.
  - exists (Aspire "api" "ghcr.io/my-org/api:1.3.8" [Key "images"]).
    split; [simpl; auto | discriminate].
Defined.

(* ================================================================== *)
(** * Part III: further properties of the code                         *)
(* ================================================================== *)

(** ** The matches of the universal walker, exactly *)

Lemma clear_of_irrefl (m : found) : ~ clear_of m m.
Proof. destruct m as [p | k v p]; simpl; intros H; [| apply H]; auto. Qed.

Lemma FOP_NoDup {A : Type} (R : A -> A -> Prop) (l : list A) :
  (forall a, ~ R a a) -> ForallOrdPairs R l -> NoDup l.
Proof.
  intros Hirr. induction 1 as [| x l Hx Hl IH]; constructor; auto.
  intros Hin. rewrite Forall_forall in Hx. exact (Hirr x (Hx x Hin)).
Qed.

(** X1. On a tree with unique keys the universal walker returns exactly
    the mappings whose [repository] is the string [image_name], and
    exactly the string values of mappings that start with [image_name:],
    each of them once. *)
Theorem findImageBlocksUniversal_exact
  (values : fields) (imageName : string) :
  well_keyed (Mapping values) = true ->
  let ms := findImageBlocksUniversal values imageName in
  (forall p,
     In (Block p) ms <->
     exists typed, get_at p (Mapping values) = Some (Mapping typed) /\
                   lookup "repository" typed = Some (Str imageName)) /\
  (forall key value p,
     In (Aspire key value p) ms <->
     HasPrefix value (imageName ++ ":") = true /\
     exists typed, get_at p (Mapping values) = Some (Mapping typed) /\
                   lookup key typed = Some (Str value)) /\
  NoDup ms.
Proof.
  intros Hwf ms. subst ms. unfold findImageBlocksUniversal.
  split; [| split].
  - intros p. split.
    + intros Hin. exact (walk_stands imageName _ Hwf _ Hin).
    + intros (typed & Hget & Hrepo). eapply walk_finds_block; eauto.
  - intros key value p. split.
    + intros Hin. exact (walk_stands imageName _ Hwf _ Hin).
    + intros (Hpre & typed & Hget & Hl).
      replace (Aspire key value p) with (relocate p (Aspire key value [])) by
        (simpl; rewrite app_nil_r; reflexivity).
      apply walk_descend with (x := Mapping typed); auto.
      rewrite walk_Mapping, in_app_iff. right.
      apply in_flat_map. exists (key, Str value).
      split; [apply lookup_In; exact Hl |].
      unfold walk_entry. cbn [fst snd]. rewrite Hpre. simpl. auto.
  - apply FOP_NoDup with (R := clear_of).
    + exact clear_of_irrefl.
    + apply walk_clear. exact Hwf.
Qed.

Lemma findImageBlocksUniversal_exact_witness :
  findImageBlocksUniversal sample_values "ghcr.io/my-org/api"
  = [Aspire "api" "ghcr.io/my-org/api:1.3.8" [Key "images"];
     Aspire "ref" "ghcr.io/my-org/api:1.3.8" [Key "args"; Idx 1]] /\
  NoDup (findImageBlocksUniversal sample_values "ghcr.io/my-org/api").
Proof.
  split; [reflexivity |].
  exact (proj2 (proj2 (findImageBlocksUniversal_exact sample_values
                         "ghcr.io/my-org/api" eq_refl))).
Defined.

(** ** The two walkers and the two rewriters

    The two walkers, and two calls of a rewriter, each visit the maps in
    an order of their own. Where two runs are compared, each gets its own
    tree, the two being the same Go map ([same_tree]), and slices of
    matches, printed lines and assigned cells are compared up to their
    order. *)

Lemma filter_all {A : Type} (f : A -> bool) (l : list A) :
  forallb f l = true -> filter f l = l.
Proof.
  induction l as [| x l IH]; simpl; auto.
  intros H. apply andb_true_iff in H as [Hx Hl].
  rewrite Hx, IH; auto.
Qed.

Lemma values_after_writes_structured (values : fields)
  (imageName newVersion : string) (dryRun : bool) :
  let r := BumpTagInValues values imageName newVersion dryRun in
  values_after r = readback_fields (writes r) values.
Proof.
  unfold BumpTagInValues.
  destruct (Nat.eqb _ 0); cbn [values_after writes]; auto.
  symmetry. apply readback_fields_nil.
Qed.

Lemma output_structured (values : fields) (imageName newVersion : string)
  (dryRun : bool) :
  well_keyed (Mapping values) = true ->
  output (BumpTagInValues values imageName newVersion dryRun)
  = match findImageBlocks values imageName with
    | [] => [NoBlockFound]
    | ms => map (verdict (Mapping values) newVersion dryRun) ms
    end.
Proof.
  intros Hwf. unfold BumpTagInValues, findImageBlocks.
  rewrite findImageBlocks_walk_blocks.
  pose proof (walk_stands imageName _ Hwf) as Hst.
  pose proof (walk_clear imageName _ Hwf) as Hord.
  destruct (filter is_block (walk imageName (Mapping values)))
    as [| m ms] eqn:E; [reflexivity |].
  cbn [length Nat.eqb output].
  rewrite fold_structured_told.
  - cbn [printed]. rewrite app_nil_r, rev_involutive. reflexivity.
  - apply Forall_forall. intros x Hx. apply Hst.
    rewrite <- E in Hx. apply filter_In in Hx. tauto.
  - apply forallb_forall. intros x Hx.
    rewrite <- E in Hx. apply filter_In in Hx. tauto.
  - rewrite <- E. apply FOP_filter. exact Hord.
  - intros p _ key. reflexivity.
Qed.

(** The matches of one map, found in two visiting orders. *)
Lemma walk_NoDup (imageName : string) (n : node) :
  well_keyed n = true -> NoDup (walk imageName n).
Proof.
  intros Hwf. apply FOP_NoDup with (R := clear_of).
  - apply clear_of_irrefl.
  - apply walk_clear. exact Hwf.
Qed.

Lemma walk_same_tree (imageName : string) (n n' : node) :
  well_keyed n = true -> well_keyed n' = true -> same_tree n n' ->
  Permutation (walk imageName n) (walk imageName n').
Proof.
  intros Hwf Hwf' Hs.
  apply NoDup_Permutation; try (apply walk_NoDup; assumption).
  intros m. split; intros Hin.
  - apply (same_tree_match imageName n n' m Hwf Hs Hin).
  - apply (same_tree_match imageName n' n m Hwf' (same_tree_sym _ _ Hs) Hin).
Qed.

Lemma blocks_same_tree (imageName : string) (values values' : fields) :
  well_keyed (Mapping values) = true ->
  well_keyed (Mapping values') = true ->
  same_tree (Mapping values) (Mapping values') ->
  Permutation (findImageBlocks values imageName)
              (filter is_block (findImageBlocksUniversal values' imageName)).
Proof.
  intros Hwf Hwf' Hs. unfold findImageBlocks, findImageBlocksUniversal.
  rewrite findImageBlocks_walk_blocks.
  apply NoDup_Permutation;
    try (apply NoDup_filter, walk_NoDup; assumption).
  intros m. rewrite !filter_In. split; intros [Hin Hb]; split; auto.
  - apply (same_tree_match imageName _ _ m Hwf Hs Hin).
  - apply (same_tree_match imageName _ _ m Hwf' (same_tree_sym _ _ Hs) Hin).
Qed.

Lemma verdict_same_tree (imageName newVersion : string) (dryRun : bool)
  (n n' : node) (m : found) :
  well_keyed n = true -> same_tree n n' -> In m (walk imageName n) ->
  verdict n newVersion dryRun m = verdict n' newVersion dryRun m.
Proof.
  intros Hwf Hs Hin. unfold verdict.
  rewrite (proj2 (same_tree_match imageName n n' m Hwf Hs Hin)).
  reflexivity.
Qed.

Lemma Permutation_map_In {A B : Type} (f g : A -> B) (l l' : list A) :
  Permutation l l' -> (forall x, In x l -> f x = g x) ->
  Permutation (map f l) (map g l').
Proof.
  intros Hp Hext. rewrite (map_ext_in f g l Hext).
  apply Permutation_map. exact Hp.
Qed.

Lemma Permutation_flat_map_In {A B : Type} (f g : A -> list B)
  (l l' : list A) :
  Permutation l l' -> (forall x, In x l -> f x = g x) ->
  Permutation (flat_map f l) (flat_map g l').
Proof.
  intros Hp Hext. rewrite (flat_map_ext_In f g l Hext).
  apply Permutation_flat_map. exact Hp.
Qed.

(** Two calls of the universal rewriter on one map, each in its order:
    the same cells and the same lines, up to their order. *)
Lemma universal_same_tree_lists (values values' : fields)
  (imageName newVersion : string) (dryRun : bool) :
  well_keyed (Mapping values) = true ->
  well_keyed (Mapping values') = true ->
  same_tree (Mapping values) (Mapping values') ->
  let r := BumpTagInValuesUniversal values imageName newVersion dryRun in
  let r' := BumpTagInValuesUniversal values' imageName newVersion dryRun in
  Permutation (writes r) (writes r') /\ Permutation (output r) (output r').
Proof.
  intros Hwf Hwf' Hs r r'. subst r r'.
  pose proof (walk_same_tree imageName _ _ Hwf Hwf' Hs) as Hp.
  split.
  - rewrite !writes_universal by assumption.
    unfold findImageBlocksUniversal.
    apply Permutation_flat_map_In.
    + rewrite <- !Permutation_rev. exact Hp.
    + intros m Hin. apply in_rev in Hin. unfold written_by.
      rewrite (verdict_same_tree imageName newVersion dryRun _ _ m Hwf Hs Hin).
      reflexivity.
  - rewrite !output_universal by assumption.
    unfold findImageBlocksUniversal.
    destruct (walk imageName (Mapping values)) as [| m ms] eqn:E.
    + apply Permutation_nil in Hp. rewrite Hp. apply Permutation_refl.
    + destruct (walk imageName (Mapping values')) as [| m' ms'] eqn:E'.
      * apply Permutation_sym, Permutation_nil in Hp. discriminate.
      * apply Permutation_map_In; [exact Hp |].
        intros x Hx. rewrite <- E in Hx.
        apply (verdict_same_tree imageName); assumption.
Qed.

(** The two rewriters in one visiting order, on a tree without inline
    reference to the image. *)
Lemma rewriters_agree (values : fields) (imageName newVersion : string)
  (dryRun : bool) :
  well_keyed (Mapping values) = true ->
  forallb is_block (findImageBlocksUniversal values imageName) = true ->
  let u := BumpTagInValuesUniversal values imageName newVersion dryRun in
  let o := BumpTagInValues values imageName newVersion dryRun in
  writes u = writes o /\ values_after u = values_after o /\
  output u = output o /\
  (changed u = true -> changed o = true).
Proof.
  intros Hwf Hall u o. subst u o.
  assert (E : findImageBlocks values imageName
              = findImageBlocksUniversal values imageName).
  { unfold findImageBlocks, findImageBlocksUniversal.
    rewrite findImageBlocks_walk_blocks. apply filter_all. exact Hall. }
  assert (Hw : writes (BumpTagInValuesUniversal values imageName newVersion
                         dryRun)
               = writes (BumpTagInValues values imageName newVersion dryRun)).
  { rewrite writes_universal, writes_structured, E by assumption.
    reflexivity. }
  split; [exact Hw | split; [| split]].
  - rewrite values_after_writes, values_after_writes_structured, Hw.
    reflexivity.
  - rewrite output_universal, output_structured, E by assumption.
    reflexivity.
  - unfold BumpTagInValuesUniversal, BumpTagInValues. rewrite E.
    destruct (Nat.eqb _ 0); cbn [changed]; auto.
Qed.

(** The sample tree in its two orders is one Go map. *)
Lemma sample_values_same_tree :
  same_tree (Mapping sample_values) (Mapping sample_values_shuffled).
Proof.
  constructor.
  - intros key. unfold sample_values, sample_values_shuffled. simpl.
    destruct (String.eqb key "image"), (String.eqb key "images"),
             (String.eqb key "args"); split; congruence.
  - intros key v v'. unfold sample_values, sample_values_shuffled. simpl.
    destruct (String.eqb key "image") eqn:E1.
    + destruct (String.eqb key "args") eqn:E2;
        [apply String.eqb_eq in E1, E2; congruence |].
      destruct (String.eqb key "images") eqn:E3;
        [apply String.eqb_eq in E1, E3; congruence |].
      intros [= <-] [= <-]. constructor.
      * intros k. simpl.
        destruct (String.eqb k "repository"), (String.eqb k "tag");
          split; congruence.
      * intros k w w'. simpl.
        destruct (String.eqb k "repository") eqn:F1,
                 (String.eqb k "tag") eqn:F2;
          try (apply String.eqb_eq in F1, F2; congruence);
          intros H1 H2; try discriminate;
          injection H1 as <-; injection H2 as <-; apply same_tree_refl.
    + destruct (String.eqb key "images") eqn:E3.
      * destruct (String.eqb key "args") eqn:E2;
          [apply String.eqb_eq in E3, E2; congruence |].
        intros [= <-] [= <-]. apply same_tree_refl.
      * destruct (String.eqb key "args"); [| discriminate].
        intros [= <-] [= <-]. apply same_tree_refl.
Qed.

(** X2. [findImageBlocks] finds the structured matches of
    [findImageBlocksUniversal], each once, whatever the orders in which
    the two walks visit the maps: on one map with unique keys, the slice
    of the one is the structured part of the slice of the other up to the
    order of its elements. The universal walker adds the inline matches
    and loses none. *)
Theorem findImageBlocks_of_universal
  (values values' : fields) (imageName : string) :
  well_keyed (Mapping values) = true ->
  well_keyed (Mapping values') = true ->
  same_tree (Mapping values) (Mapping values') ->
  Permutation (findImageBlocks values imageName)
              (filter is_block (findImageBlocksUniversal values' imageName)) /\
  NoDup (findImageBlocks values imageName) /\
  (forall m, In m (findImageBlocks values imageName) ->
             In m (findImageBlocksUniversal values' imageName)).
Proof.
  intros Hwf Hwf' Hs.
  pose proof (blocks_same_tree imageName values values' Hwf Hwf' Hs) as Hp.
  split; [exact Hp | split].
  - unfold findImageBlocks. rewrite findImageBlocks_walk_blocks.
    apply NoDup_filter, walk_NoDup. exact Hwf.
  - intros m Hin. apply (Permutation_in _ Hp) in Hin.
    apply filter_In in Hin. tauto.
Qed.

Lemma findImageBlocks_of_universal_witness :
  Permutation
    (findImageBlocks sample_values "ghcr.io/my-org/my-api")
    (filter is_block
       (findImageBlocksUniversal sample_values_shuffled
          "ghcr.io/my-org/my-api")).
Proof.
  exact (proj1 (findImageBlocks_of_universal sample_values
                  sample_values_shuffled "ghcr.io/my-org/my-api"
                  eq_refl eq_refl sample_values_same_tree)).
Defined.

(** X3. On a map with unique keys that holds no inline reference to the
    image, the universal rewriter does what the structured one does,
    whatever the orders in which the two calls visit the maps: the same
    cells are assigned and the same lines printed, up to their order, and
    the trees left are the same map. Only the boolean differs:
    [BumpTagInValues] returns [true] whenever the universal one does. *)
Theorem universal_agrees_with_structured
  (values values' : fields) (imageName newVersion : string) (dryRun : bool) :
  well_keyed (Mapping values) = true ->
  well_keyed (Mapping values') = true ->
  same_tree (Mapping values) (Mapping values') ->
  forallb is_block (findImageBlocksUniversal values imageName) = true ->
  let u := BumpTagInValuesUniversal values imageName newVersion dryRun in
  let o := BumpTagInValues values' imageName newVersion dryRun in
  Permutation (writes u) (writes o) /\
  same_tree (Mapping (values_after u)) (Mapping (values_after o)) /\
  Permutation (output u) (output o) /\
  (changed u = true -> changed o = true).
Proof.
  intros Hwf Hwf' Hs Hall u o. subst u o.
  assert (Hall' : forallb is_block
                    (findImageBlocksUniversal values' imageName) = true).
  { rewrite forallb_forall in *. intros m Hin. apply Hall.
    apply (same_tree_match imageName _ _ m Hwf' (same_tree_sym _ _ Hs) Hin). }
  destruct (rewriters_agree values' imageName newVersion dryRun Hwf' Hall')
    as (Ew & Ev & Eo & Ec).
  destruct (universal_same_tree_lists values values' imageName newVersion
              dryRun Hwf Hwf' Hs) as [Pw Po].
  rewrite <- Ew, <- Ev, <- Eo. split; [exact Pw | split; [| split]].
  - apply (values_after_same_tree values values' imageName newVersion dryRun
             Hwf Hwf' Hs).
  - exact Po.
  - intros H. apply Ec.
    rewrite <- (changed_same_tree values values' imageName newVersion
                  dryRun dryRun Hwf Hwf' Hs).
    exact H.
Qed.

Lemma universal_agrees_with_structured_witness :
  let u := BumpTagInValuesUniversal sample_values
             "ghcr.io/my-org/my-api" "1.2.4" false in
  let o := BumpTagInValues sample_values_shuffled "ghcr.io/my-org/my-api"
             "1.2.4" false in
  Permutation (writes u) (writes o) /\
  same_tree (Mapping (values_after u)) (Mapping (values_after o)).
Proof.
  destruct (universal_agrees_with_structured sample_values
              sample_values_shuffled "ghcr.io/my-org/my-api" "1.2.4" false
              eq_refl eq_refl sample_values_same_tree eq_refl)
    as (Hw & Hv & _).
  split; [exact Hw | exact Hv].
Defined.

(** ** The order in which Go visits a map *)

(** X4. Two trees that differ only in the order of the entries of their
    mappings get the same boolean from [BumpTagInValuesUniversal], are left
    as trees that again differ only in that order, and make the update loop
    return the same count: what a run returns does not depend on the order
    in which [range] visits the maps. *)
Theorem visiting_order_irrelevant
  (values values' : fields) (imageName newVersion : string) (dryRun : bool)
  (updates : list (string * string)) (count : nat) :
  well_keyed (Mapping values) = true ->
  well_keyed (Mapping values') = true ->
  same_tree (Mapping values) (Mapping values') ->
  let r := BumpTagInValuesUniversal values imageName newVersion dryRun in
  let r' := BumpTagInValuesUniversal values' imageName newVersion dryRun in
  changed r = changed r' /\
  same_tree (Mapping (values_after r)) (Mapping (values_after r')) /\
  exists n after after',
    update_loop values updates dryRun count = inr (n, after) /\
    update_loop values' updates dryRun count = inr (n, after') /\
    same_tree (Mapping after) (Mapping after').
Proof.
  intros Hwf Hwf' Hs r r'. subst r r'. split; [| split].
  - apply changed_same_tree; assumption.
  - apply values_after_same_tree; assumption.
  - apply update_loop_same_tree; assumption.
Qed.

Lemma visiting_order_irrelevant_witness :
  same_tree (Mapping sample_values) (Mapping sample_values_shuffled) /\
  changed (BumpTagInValuesUniversal sample_values
             "ghcr.io/my-org/api" "1.3.9" false)
  = changed (BumpTagInValuesUniversal sample_values_shuffled
               "ghcr.io/my-org/api" "1.3.9" false).
Proof.
  assert (Hs : same_tree (Mapping sample_values)
                         (Mapping sample_values_shuffled)).
  { constructor.
    - intros key. unfold sample_values, sample_values_shuffled. simpl.
      destruct (String.eqb key "image"), (String.eqb key "images"),
               (String.eqb key "args"); split; congruence.
    - intros key v v'. unfold sample_values, sample_values_shuffled. simpl.
      destruct (String.eqb key "image") eqn:E1.
      + destruct (String.eqb key "args") eqn:E2;
          [apply String.eqb_eq in E1, E2; congruence |].
        destruct (String.eqb key "images") eqn:E3;
          [apply String.eqb_eq in E1, E3; congruence |].
        intros [= <-] [= <-]. constructor.
        * intros k. simpl.
          destruct (String.eqb k "repository"), (String.eqb k "tag");
            split; congruence.
        * intros k w w'. simpl.
          destruct (String.eqb k "repository") eqn:F1,
                   (String.eqb k "tag") eqn:F2;
            try (apply String.eqb_eq in F1, F2; congruence);
            intros H1 H2; try discriminate;
            injection H1 as <-; injection H2 as <-; apply same_tree_refl.
      + destruct (String.eqb key "images") eqn:E3.
        * destruct (String.eqb key "args") eqn:E2;
            [apply String.eqb_eq in E3, E2; congruence |].
          intros [= <-] [= <-]. apply same_tree_refl.
        * destruct (String.eqb key "args"); [| discriminate].
          intros [= <-] [= <-]. apply same_tree_refl. }
  split; [exact Hs |].
  exact (proj1 (visiting_order_irrelevant sample_values sample_values_shuffled
                  "ghcr.io/my-org/api" "1.3.9" false [] 0
                  eq_refl eq_refl Hs)).
Defined.

(** ** What a call assigns *)

(** X5. On a tree with unique keys, [BumpTagInValuesUniversal] assigns
    nothing but the cells of its matches: the [tag] of a structured match
    whose tag differs from the new version gets the new version, the key of
    an inline match whose version differs gets [image_name:new_version],
    and no other cell is assigned; none at all in a dry run or with a
    version that fails validation. *)
Theorem writes_only_at_matches
  (values : fields) (imageName newVersion : string) (dryRun : bool) :
  well_keyed (Mapping values) = true ->
  let r := BumpTagInValuesUniversal values imageName newVersion dryRun in
  let ms := findImageBlocksUniversal values imageName in
  forall p key value,
    In (p, key, value) (writes r) <->
    dryRun = false /\ isValidSemver newVersion = true /\
    ((key = "tag" /\ value = newVersion /\ In (Block p) ms /\
      current (Mapping values) (Block p) <> newVersion) \/
     (value = (imageName ++ ":" ++ newVersion)%string /\
      exists old, In (Aspire key old p) ms /\ version_of old <> newVersion)).
Proof.
  intros Hwf r ms p key value. subst r ms.
  rewrite writes_universal by assumption.
  rewrite in_flat_map. split.
  - intros (m & Hm & Hin). rewrite <- in_rev in Hm.
    unfold written_by, verdict in Hin.
    destruct (String.eqb_spec (current (Mapping values) m) newVersion)
      as [E | Hne]; [simpl in Hin; tauto |].
    destruct (isValidSemver newVersion); [| simpl in Hin; tauto].
    destruct dryRun; [simpl in Hin; tauto |].
    cbn in Hin. destruct Hin as [Hin | []].
    repeat split; auto.
    destruct m as [q | k old q]; cbn in Hin; injection Hin as <- <- <-.
    + left. auto.
    + right. split; [reflexivity |]. exists old. auto.
  - intros (-> & Hv & [(-> & -> & Hm & Hne) | (-> & old & Hm & Hne)]).
    + exists (Block p). split; [rewrite <- in_rev; exact Hm |].
      unfold written_by, verdict.
      apply String.eqb_neq in Hne. rewrite Hne, Hv. cbn. auto.
    + exists (Aspire key old p). split; [rewrite <- in_rev; exact Hm |].
      unfold written_by, verdict. cbn [current].
      apply String.eqb_neq in Hne. rewrite Hne, Hv. cbn. auto.
Qed.

Lemma writes_only_at_matches_witness :
  In ([Key "images"], "api", "ghcr.io/my-org/api:1.3.9")
     (writes (BumpTagInValuesUniversal sample_values
                "ghcr.io/my-org/api" "1.3.9" false)).
Proof.
  apply (writes_only_at_matches sample_values "ghcr.io/my-org/api" "1.3.9"
           false eq_refl).
  split; [reflexivity | split; [reflexivity |]].
  right. split; [reflexivity |].
  exists "ghcr.io/my-org/api:1.3.8". split; [simpl; auto | discriminate].
Defined.

(** X6. On a tree with unique keys, a call without [dry_run] and with a
    version that passes validation leaves the tree that one pass over the
    received tree gives ([rewritten]): a string value starting with
    [image_name:] at another version becomes [image_name:new_version];
    otherwise the [tag] of a mapping whose [repository] is [image_name] and
    whose tag differs becomes the new version (the key is added when
    missing); every other entry is kept, in place. *)
Theorem real_call_in_one_pass
  (values : fields) (imageName newVersion : string) :
  well_keyed (Mapping values) = true ->
  isValidSemver newVersion = true ->
  Mapping (values_after
             (BumpTagInValuesUniversal values imageName newVersion false))
  = rewritten imageName newVersion (Mapping values).
Proof. apply values_after_rewritten. Qed.

Lemma real_call_in_one_pass_witness :
  values_after (BumpTagInValuesUniversal untagged_values "nginx" "1.27.0" false)
  = [("web", Mapping [("repository", Str "nginx"); ("tag", Str "1.27.0")]);
     ("api", Mapping [("repository", Str "nginx"); ("tag", Str "1.27.0")])].
Proof.
  exact (f_equal (fun n => match n with Mapping t => t | _ => [] end)
           (real_call_in_one_pass untagged_values "nginx" "1.27.0"
              eq_refl eq_refl)).
Defined.

(** ** Inline references and versions *)

(** X7. Writing an inline reference and reading its version back: for a
    version that passes validation, [image_name:version] starts with
    [image_name:] and the text after its last colon is that version,
    whatever colons the image name holds. *)
Theorem inline_reference_round_trip (imageName newVersion : string) :
  isValidSemver newVersion = true ->
  HasPrefix (Sprintf_colon imageName newVersion) (imageName ++ ":") = true /\
  version_of (Sprintf_colon imageName newVersion) = newVersion.
Proof.
  intros Hv. split.
  - apply fresh_ref_inline.
  - apply fresh_ref_version. exact Hv.
Qed.

Lemma inline_reference_round_trip_witness :
  version_of (Sprintf_colon "registry:5000/img" "v1.2.3-rc.1") = "v1.2.3-rc.1".
Proof.
  exact (proj2 (inline_reference_round_trip "registry:5000/img" "v1.2.3-rc.1"
                  eq_refl)).
Defined.

Lemma digit_is_ident (c : ascii) : is_digit c = true -> is_ident_char c = true.
Proof.
  destruct c as [[] [] [] [] [] [] [] []]; vm_compute; auto.
Qed.

Lemma run_version_chars (f : ascii -> bool) (s : string) :
  (forall c, f c = true -> is_version_char c = true) ->
  run_of f s ->
  forallb is_version_char (list_ascii_of_string s) = true /\
  1 <= String.length s.
Proof.
  intros Hf [Hne Hall]. split.
  - rewrite forallb_forall in *. auto.
  - destruct s; [congruence | simpl; lia].
Qed.

(** X8. A string that passes [isValidSemver] is made of ASCII letters,
    digits, dots, hyphens and plus signs only, and is at least five bytes
    long: it holds no colon, slash or white space. *)
Theorem valid_version_bytes (s : string) :
  isValidSemver s = true ->
  forallb is_version_char (list_ascii_of_string s) = true /\
  5 <= String.length s.
Proof.
  intros H. unfold isValidSemver in H.
  apply MatchString_lang, semverRegex_format in H
    as (x & major & minor & patch & pre & build
        & -> & Hx & Hmaj & Hmin & Hpat & Hpre & Hbuild).
  assert (Hd : forall c, is_digit c = true -> is_version_char c = true).
  { intros c Hc. unfold is_version_char.
    rewrite (digit_is_ident c Hc). reflexivity. }
  assert (Hi : forall c, is_ident_char c = true -> is_version_char c = true).
  { intros c Hc. unfold is_version_char. rewrite Hc. reflexivity. }
  destruct (run_version_chars _ _ Hd Hmaj) as [A1 L1].
  destruct (run_version_chars _ _ Hd Hmin) as [A2 L2].
  destruct (run_version_chars _ _ Hd Hpat) as [A3 L3].
  assert (A0 : forallb is_version_char (list_ascii_of_string x) = true).
  { destruct Hx as [-> | ->]; reflexivity. }
  assert (A4 : forallb is_version_char (list_ascii_of_string pre) = true).
  { destruct Hpre as [-> | (id & -> & Hid)]; [reflexivity |].
    simpl. apply (run_version_chars _ _ Hi Hid). }
  assert (A5 : forallb is_version_char (list_ascii_of_string build) = true).
  { destruct Hbuild as [-> | (id & -> & Hid)]; [reflexivity |].
    simpl. apply (run_version_chars _ _ Hi Hid). }
  split.
  - rewrite !bytes_append, !forallb_app, A0, A1, A2, A3, A4, A5.
    reflexivity.
  - rewrite !length_append. simpl. lia.
Qed.

Lemma valid_version_bytes_witness :
  forallb is_version_char (list_ascii_of_string "1.2.3+build.7") = true /\
  5 <= String.length "1.2.3+build.7".
Proof. exact (valid_version_bytes "1.2.3+build.7" eq_refl). Defined.

(** ** The update loop *)

Lemma update_loop_bounds (updates : list (string * string)) (dryRun : bool) :
  forall values count,
    exists n after,
      update_loop values updates dryRun count = inr (n, after) /\
      count <= n <= count + length updates /\
      (dryRun = true -> after = values).
Proof.
  induction updates as [| [img v] rest IH]; intros values count.
  - exists count, values. simpl. repeat split; auto; lia.
  - cbn [update_loop]. rewrite universal_err.
    destruct (IH (values_after
                    (BumpTagInValuesUniversal values img v dryRun))
                 (if changed (BumpTagInValuesUniversal values img v dryRun)
                  then S count else count))
      as (n & after & E & Hn & Hdry).
    exists n, after. split; [exact E | split].
    + cbn [length]. destruct (changed _); lia.
    + intros ->. rewrite (Hdry eq_refl).
      apply (proj1 (universal_dry values img v)).
Qed.

Lemma update_loop_all_invalid (updates : list (string * string))
  (dryRun : bool) :
  (forall img v, In (img, v) updates -> isValidSemver v = false) ->
  forall values count,
    update_loop values updates dryRun count = inr (count, values).
Proof.
  induction updates as [| [img v] rest IH]; intros Hall values count; auto.
  cbn [update_loop]. rewrite universal_err.
  destruct (universal_invalid values img v dryRun) as (-> & _ & ->).
  { apply (Hall img v). simpl. auto. }
  apply IH. intros img' v' H. apply (Hall img' v'). simpl. auto.
Qed.

(** X9. The update loop never stops on an error; it counts at most one
    per update asked for; in a dry run it leaves the tree as it was; and
    when every version asked for fails validation it leaves both the count
    and the tree as they were. *)
Theorem update_loop_outcome
  (values : fields) (updates : list (string * string)) (dryRun : bool)
  (count : nat) :
  (exists n after,
     update_loop values updates dryRun count = inr (n, after) /\
     count <= n <= count + length updates /\
     (dryRun = true -> after = values)) /\
  ((forall img v, In (img, v) updates -> isValidSemver v = false) ->
   update_loop values updates dryRun count = inr (count, values)).
Proof.
  split.
  - apply update_loop_bounds.
  - intros H. apply update_loop_all_invalid. exact H.
Qed.

Lemma update_loop_outcome_witness :
  update_loop sample_values
    [("ghcr.io/my-org/api", "latest"); ("ghcr.io/my-org/my-api", "stable")]
    false 0
  = inr (0, sample_values).
Proof.
  apply (proj2 (update_loop_outcome sample_values
                  [("ghcr.io/my-org/api", "latest");
                   ("ghcr.io/my-org/my-api", "stable")] false 0)).
  intros img v [[= <- <-] | [[= <- <-] | []]]; reflexivity.
Defined.

(** ** The structured rewriter in a dry run *)

Lemma bump_structured_dry (values : fields) (imageName newVersion : string)
  (s : progress) (image : found) :
  cells (bump_structured values imageName newVersion true s image) = cells s.
Proof.
  unfold bump_structured.
  repeat match goal with
         | |- context [match ?x with _ => _ end] => destruct x
         | |- context [if ?x then _ else _] => destruct x
         end; reflexivity.
Qed.

Lemma fold_structured_dry (values : fields) (imageName newVersion : string)
  (ms : list found) :
  forall s,
    cells (fold_left (bump_structured values imageName newVersion true) ms s)
    = cells s.
Proof.
  induction ms as [| m ms IH]; intros s; simpl; auto.
  rewrite IH. apply bump_structured_dry.
Qed.

(** X10. [BumpTagInValues] with [dry_run = true] assigns no cell and
    leaves the tree it received, whatever the image name and the version
    (the property the fuzz test exercises). On a map with unique keys it
    prints what the call without [dry_run] prints, with "would bump" for
    "bumped", up to the order of the lines: each of the two calls visits
    the maps in an order of its own. *)
Theorem BumpTagInValues_dry_run
  (values values' : fields) (imageName newVersion : string) :
  let dry := BumpTagInValues values imageName newVersion true in
  let real := BumpTagInValues values' imageName newVersion false in
  values_after dry = values /\ writes dry = [] /\
  (well_keyed (Mapping values) = true ->
   well_keyed (Mapping values') = true ->
   same_tree (Mapping values) (Mapping values') ->
   Permutation
     (output real)
     (map (fun n => match n with WouldBump => Bumped | _ => n end)
          (output dry))).
Proof.
  split; [| split].
  - unfold BumpTagInValues.
    destruct (Nat.eqb _ 0); cbn [values_after]; auto.
    rewrite fold_structured_dry. cbn [cells]. apply readback_fields_nil.
  - unfold BumpTagInValues.
    destruct (Nat.eqb _ 0); cbn [writes]; auto.
    rewrite fold_structured_dry. reflexivity.
  - intros Hwf Hwf' Hs. rewrite !output_structured by assumption.
    pose proof (blocks_same_tree imageName values values' Hwf Hwf' Hs) as Hp.
    fold (findImageBlocks_walk imageName (Mapping values')) in Hp.
    unfold findImageBlocksUniversal in Hp.
    rewrite <- findImageBlocks_walk_blocks in Hp.
    change (findImageBlocks_walk imageName (Mapping values'))
      with (findImageBlocks values' imageName) in Hp.
    destruct (findImageBlocks values imageName) as [| m ms] eqn:E.
    + apply Permutation_nil in Hp. rewrite Hp. apply Permutation_refl.
    + destruct (findImageBlocks values' imageName) as [| m' ms'] eqn:E'.
      * apply Permutation_sym, Permutation_nil in Hp. discriminate.
      * rewrite map_map. apply Permutation_sym.
        apply Permutation_map_In; [exact Hp |].
        intros x Hx.
        assert (Hw : In x (walk imageName (Mapping values))).
        { rewrite <- E in Hx. unfold findImageBlocks in Hx.
          rewrite findImageBlocks_walk_blocks in Hx.
          apply filter_In in Hx. tauto. }
        unfold verdict.
        rewrite (proj2 (same_tree_match imageName _ _ x Hwf Hs Hw)).
        destruct (String.eqb _ _); auto.
        destruct (negb _); auto.
Qed.

Lemma BumpTagInValues_dry_run_witness :
  Permutation
    (output (BumpTagInValues sample_values_shuffled "ghcr.io/my-org/my-api"
               "1.3.999" false))
    [Bumped] /\
  output (BumpTagInValues sample_values "ghcr.io/my-org/my-api" "1.3.999" true)
  = [WouldBump].
Proof.
  pose proof (proj2 (proj2 (BumpTagInValues_dry_run sample_values
                              sample_values_shuffled
                              "ghcr.io/my-org/my-api" "1.3.999"))
                eq_refl eq_refl sample_values_same_tree)
    as H.
  split; [exact H | reflexivity].
Defined.

(** ** sanitizeHelmRelease *)

Lemma lookup_put_same (key : string) (v : node) (m : fields) :
  lookup key (put key v m) = Some v.
Proof.
  induction m as [| [k w] m IH]; simpl.
  - rewrite String.eqb_refl. reflexivity.
  - destruct (String.eqb_spec key k) as [-> | Hne]; simpl.
    + rewrite String.eqb_refl. reflexivity.
    + apply String.eqb_neq in Hne. rewrite Hne. exact IH.
Qed.

Lemma lookup_put_other (key key' : string) (v : node) (m : fields) :
  key' <> key -> lookup key' (put key v m) = lookup key' m.
Proof.
  intros Hne. induction m as [| [k w] m IH]; simpl.
  - apply String.eqb_neq in Hne. rewrite Hne. reflexivity.
  - destruct (String.eqb_spec key k) as [-> | Hk]; simpl.
    + apply String.eqb_neq in Hne. rewrite Hne. reflexivity.
    + destruct (String.eqb key' k); auto.
Qed.

Lemma put_same (key : string) (v : node) (m : fields) :
  lookup key m = Some v -> put key v m = m.
Proof.
  induction m as [| [k w] m IH]; simpl; [discriminate |].
  destruct (String.eqb_spec key k) as [-> | Hk].
  - intros [= ->]. reflexivity.
  - intros H. rewrite IH; auto.
Qed.

Lemma lookup_delete_same (key : string) (m : fields) :
  lookup key (delete key m) = None.
Proof.
  induction m as [| [k w] m IH]; simpl; auto.
  destruct (String.eqb_spec k key) as [-> | Hk]; simpl; auto.
  destruct (String.eqb_spec key k) as [E | _]; [congruence | exact IH].
Qed.

Lemma lookup_delete_other (key key' : string) (m : fields) :
  key' <> key -> lookup key' (delete key m) = lookup key' m.
Proof.
  intros Hne. induction m as [| [k w] m IH]; simpl; auto.
  destruct (String.eqb_spec k key) as [-> | Hk]; simpl.
  - apply String.eqb_neq in Hne. rewrite Hne. exact IH.
  - destruct (String.eqb key' k); auto.
Qed.

Lemma delete_delete {V : Type} (key : string) (m : list (string * V)) :
  delete key (delete key m) = delete key m.
Proof.
  unfold delete. induction m as [| [k w] m IH]; simpl; auto.
  destruct (negb (String.eqb k key)) eqn:E; simpl; rewrite ?E, IH; auto.
Qed.

Lemma length_zero {A : Type} (l : list A) : Nat.eqb (length l) 0 = true <-> l = [].
Proof. destruct l; simpl; split; congruence. Qed.

Lemma sanitizeHelmRelease_lookups (obj : fields) :
  let obj' := sanitizeHelmRelease obj in
  (forall m, lookup "status" obj' = Some (Mapping m) -> m <> []) /\
  (forall metadata,
     lookup "metadata" obj' = Some (Mapping metadata) ->
     lookup "creationTimestamp" metadata = None) /\
  (forall key,
     key <> "metadata" -> key <> "status" -> lookup key obj' = lookup key obj) /\
  (lookup "status" obj <> Some (Mapping []) ->
   lookup "status" obj' = lookup "status" obj) /\
  (lookup "status" obj = Some (Mapping []) -> lookup "status" obj' = None) /\
  (forall metadata,
     lookup "metadata" obj = Some (Mapping metadata) ->
     exists metadata',
       lookup "metadata" obj' = Some (Mapping metadata') /\
       forall key, key <> "creationTimestamp" ->
                   lookup key metadata' = lookup key metadata) /\
  ((forall metadata, lookup "metadata" obj <> Some (Mapping metadata)) ->
   lookup "metadata" obj' = lookup "metadata" obj).
Proof.
  unfold sanitizeHelmRelease.
  set (obj1 := match lookup "metadata" obj with
               | Some (Mapping metadata) =>
                   put "metadata"
                     (Mapping (delete "creationTimestamp" metadata)) obj
               | _ => obj
               end).
  assert (Hother : forall key, key <> "metadata" ->
                               lookup key obj1 = lookup key obj).
  { intros key Hne. subst obj1.
    destruct (lookup "metadata" obj) as [[] |]; auto.
    apply lookup_put_other. exact Hne. }
  assert (Hmeta : lookup "metadata" obj1
                  = match lookup "metadata" obj with
                    | Some (Mapping metadata) =>
                        Some (Mapping (delete "creationTimestamp" metadata))
                    | other => other
                    end).
  { subst obj1. destruct (lookup "metadata" obj) as [[] |] eqn:E; auto.
    apply lookup_put_same. }
  assert (Hstatus : lookup "status" obj1 = lookup "status" obj)
    by (apply Hother; discriminate).
  set (obj2 := match lookup "status" obj1 with
               | Some (Mapping m) =>
                   if Nat.eqb (length m) 0 then delete "status" obj1 else obj1
               | _ => obj1
               end).
  assert (Hkeep : forall key, key <> "status" ->
                              lookup key obj2 = lookup key obj1).
  { intros key Hne. subst obj2.
    destruct (lookup "status" obj1) as [[| | | | | m] |]; auto.
    destruct (Nat.eqb (length m) 0); auto.
    apply lookup_delete_other. exact Hne. }
  cbv zeta. fold obj2.
  split; [| split; [| split; [| split; [| split; [| split]]]]].
  - intros m Hm Em. subst m. unfold obj2 in Hm.
    destruct (lookup "status" obj1) as [[| | | | | m0] |] eqn:E;
      try (rewrite E in Hm; discriminate).
    destruct (Nat.eqb (length m0) 0) eqn:El.
    + rewrite lookup_delete_same in Hm. discriminate.
    + rewrite E in Hm. injection Hm as ->. discriminate.
  - intros metadata Hm. rewrite Hkeep, Hmeta in Hm by discriminate.
    destruct (lookup "metadata" obj) as [[| | | | | md] |]; try discriminate.
    injection Hm as <-. apply lookup_delete_same.
  - intros key H1 H2. rewrite Hkeep, Hother; auto.
  - intros Hne. rewrite <- Hstatus in *. unfold obj2.
    destruct (lookup "status" obj1) as [[| | | | | m] |] eqn:E; auto.
    destruct (Nat.eqb (length m) 0) eqn:El; auto.
    apply length_zero in El. subst m. congruence.
  - intros E. rewrite <- Hstatus in E. unfold obj2. rewrite E. simpl.
    apply lookup_delete_same.
  - intros metadata E. rewrite Hkeep, Hmeta, E by discriminate.
    eexists. split; [reflexivity |].
    intros key Hne. apply lookup_delete_other. exact Hne.
  - intros Hno. rewrite Hkeep, Hmeta by discriminate.
    destruct (lookup "metadata" obj) as [[| | | | | md] |] eqn:E; auto.
    exfalso. apply (Hno md). reflexivity.
Qed.

(** X11. After [sanitizeHelmRelease] the object has no empty [status]
    mapping, and a [metadata] mapping has no [creationTimestamp]. Nothing
    else changes: every other key of the object and of [metadata] holds
    what it held, a [status] that is not an empty mapping stays, and a
    [metadata] that is no mapping is left alone. *)
Theorem sanitizeHelmRelease_effect (obj : fields) :
  let obj' := sanitizeHelmRelease obj in
  (forall m, lookup "status" obj' = Some (Mapping m) -> m <> []) /\
  (forall metadata,
     lookup "metadata" obj' = Some (Mapping metadata) ->
     lookup "creationTimestamp" metadata = None) /\
  (forall key,
     key <> "metadata" -> key <> "status" -> lookup key obj' = lookup key obj) /\
  (lookup "status" obj <> Some (Mapping []) ->
   lookup "status" obj' = lookup "status" obj) /\
  (lookup "status" obj = Some (Mapping []) -> lookup "status" obj' = None) /\
  (forall metadata,
     lookup "metadata" obj = Some (Mapping metadata) ->
     exists metadata',
       lookup "metadata" obj' = Some (Mapping metadata') /\
       forall key, key <> "creationTimestamp" ->
                   lookup key metadata' = lookup key metadata) /\
  ((forall metadata, lookup "metadata" obj <> Some (Mapping metadata)) ->
   lookup "metadata" obj' = lookup "metadata" obj).
Proof. apply sanitizeHelmRelease_lookups. Qed.

Lemma sanitizeHelmRelease_effect_witness :
  sanitizeHelmRelease sample_release
  = [("kind", Str "HelmRelease");
     ("metadata", Mapping [("name", Str "my-app")]);
     ("spec", Mapping [("interval", Str "5m0s")])] /\
  lookup "status" (sanitizeHelmRelease sample_release) = None.
Proof.
  split; [reflexivity |].
  apply (sanitizeHelmRelease_effect sample_release). reflexivity.
Defined.

Lemma delete_absent (key : string) (m : fields) :
  lookup key m = None -> delete key m = m.
Proof.
  induction m as [| [k w] m IH]; simpl; auto.
  destruct (String.eqb_spec key k) as [-> | Hne]; [discriminate |].
  intros H. destruct (String.eqb_spec k key) as [E | _]; [congruence |].
  simpl. rewrite IH; auto.
Qed.

Lemma sanitizeHelmRelease_fixed (obj : fields) :
  (forall m, lookup "status" obj = Some (Mapping m) -> m <> []) ->
  (forall metadata,
     lookup "metadata" obj = Some (Mapping metadata) ->
     lookup "creationTimestamp" metadata = None) ->
  sanitizeHelmRelease obj = obj.
Proof.
  intros Hst Hmd. unfold sanitizeHelmRelease.
  assert (E : match lookup "metadata" obj with
              | Some (Mapping metadata) =>
                  put "metadata"
                    (Mapping (delete "creationTimestamp" metadata)) obj
              | _ => obj
              end = obj).
  { destruct (lookup "metadata" obj) as [[| | | | | md] |] eqn:E; auto.
    rewrite delete_absent by (apply Hmd; reflexivity).
    apply put_same. exact E. }
  rewrite E.
  destruct (lookup "status" obj) as [[| | | | | m] |] eqn:Es; auto.
  destruct (Nat.eqb (length m) 0) eqn:El; auto.
  apply length_zero in El. exfalso. apply (Hst m); auto.
Qed.

(** X12. [sanitizeHelmRelease] is idempotent: a second pass changes
    nothing. *)
Theorem sanitizeHelmRelease_idempotent (obj : fields) :
  sanitizeHelmRelease (sanitizeHelmRelease obj) = sanitizeHelmRelease obj.
Proof.
  destruct (sanitizeHelmRelease_lookups obj) as (Hs & Hm & _).
  apply sanitizeHelmRelease_fixed; assumption.
Qed.

(** ** splitArg *)

Lemma Cut_Some (s : string) (sep : ascii) :
  forall before after,
    Cut s sep = Some (before, after) <->
    s = (before ++ String sep after)%string /\ lacks sep before.
Proof.
  induction s as [| c s IH]; intros before after; simpl.
  - split; [discriminate |]. intros [E _]. destruct before; discriminate.
  - destruct (Ascii.eqb_spec c sep) as [-> | Hne].
    + split.
      * intros [= <- <-]. split; [reflexivity | unfold lacks; simpl; tauto].
      * intros [E Hl]. destruct before as [| d before]; simpl in E.
        -- injection E as ->. reflexivity.
        -- injection E as <- _. exfalso. apply Hl. simpl. auto.
    + split.
      * destruct (Cut s sep) as [[b a] |] eqn:Ec; [| discriminate].
        intros [= <- <-].
        destruct (proj1 (IH b a) eq_refl) as [-> Hl].
        split; [reflexivity |].
        unfold lacks in *. simpl. intros [E | H]; [congruence | auto].
      * intros [E Hl]. destruct before as [| d before]; simpl in E.
        -- injection E as E _. congruence.
        -- injection E as <- E.
           assert (H : Cut s sep = Some (before, after)).
           { apply IH. split; auto.
             unfold lacks in *. simpl in Hl. tauto. }
           rewrite H. reflexivity.
Qed.

Lemma Cut_None (s : string) (sep : ascii) :
  Cut s sep = None <-> lacks sep s.
Proof.
  unfold lacks. induction s as [| c s IH]; simpl; [tauto |].
  destruct (Ascii.eqb_spec c sep) as [-> | Hne].
  - split; [discriminate | tauto].
  - split.
    + destruct (Cut s sep) as [[b a] |]; [discriminate |].
      intros _ [E | H]; [congruence |]. apply IH in H; auto.
    + intros H. assert (E : Cut s sep = None) by (apply IH; tauto).
      rewrite E. reflexivity.
Qed.

Section CommandLineFacts.

Variable TrimSpace : string -> string.

Lemma splitArg_parts (s : string) :
  splitArg TrimSpace s = [] \/
  exists repo version,
    splitArg TrimSpace s = [repo; version] /\
    s = (repo ++ "=" ++ version)%string /\ lacks "=" repo /\
    TrimSpace repo <> "" /\ TrimSpace version <> "".
Proof.
  unfold splitArg, SplitN2.
  destruct (Cut s "=") as [[repo version] |] eqn:Ec; [| left; reflexivity].
  cbn [length Nat.eqb negb orb nth].
  destruct (String.eqb_spec (TrimSpace repo) "") as [E1 | N1];
    [left; reflexivity |].
  destruct (String.eqb_spec (TrimSpace version) "") as [E2 | N2];
    [left; reflexivity |].
  right. exists repo, version. apply Cut_Some in Ec as [-> Hl]. auto.
Qed.

Lemma splitArg_joined (repo version : string) :
  lacks "=" repo ->
  splitArg TrimSpace (repo ++ "=" ++ version)
  = if String.eqb (TrimSpace repo) "" || String.eqb (TrimSpace version) ""
    then [] else [repo; version].
Proof.
  intros Hl. unfold splitArg, SplitN2.
  assert (Ec : Cut (repo ++ "=" ++ version) "=" = Some (repo, version))
    by (apply Cut_Some; auto).
  rewrite Ec. reflexivity.
Qed.

Lemma splitArg_no_equals (s : string) :
  lacks "=" s -> splitArg TrimSpace s = [].
Proof.
  intros Hl. unfold splitArg, SplitN2.
  apply Cut_None in Hl. rewrite Hl. reflexivity.
Qed.

End CommandLineFacts.

(** X13. [splitArg] returns nil or exactly two parts. Two parts are the
    text before and after the first [=] of the argument, untrimmed, neither
    blank, so joining them with [=] gives the argument back; a repo without
    [=] and a version, both not blank, joined with [=], are split into
    themselves; an argument without [=] gives nil. *)
Theorem splitArg_round_trip (TrimSpace : string -> string) (s : string) :
  (splitArg TrimSpace s = [] \/
   exists repo version,
     splitArg TrimSpace s = [repo; version] /\
     s = (repo ++ "=" ++ version)%string /\ lacks "=" repo /\
     TrimSpace repo <> "" /\ TrimSpace version <> "") /\
  (forall repo version,
     lacks "=" repo -> TrimSpace repo <> "" -> TrimSpace version <> "" ->
     splitArg TrimSpace (repo ++ "=" ++ version) = [repo; version]) /\
  (lacks "=" s -> splitArg TrimSpace s = []).
Proof.
  split; [apply splitArg_parts | split; [| apply splitArg_no_equals]].
  intros repo version Hl H1 H2. rewrite splitArg_joined by assumption.
  apply String.eqb_neq in H1, H2. rewrite H1, H2. reflexivity.
Qed.

Lemma splitArg_round_trip_witness :
  splitArg TrimSpace_ascii "ghcr.io/my-org/my-api=1.3.9"
  = ["ghcr.io/my-org/my-api"; "1.3.9"] /\
  splitArg TrimSpace_ascii " nginx =v1.2.3=rc" = [" nginx "; "v1.2.3=rc"] /\
  splitArg TrimSpace_ascii "nginx=  " = [].
Proof.
  split; [| split; reflexivity].
  apply (proj1 (proj2 (splitArg_round_trip TrimSpace_ascii ""))
           "ghcr.io/my-org/my-api" "1.3.9").
  - unfold lacks. simpl. intuition discriminate.
  - discriminate.
  - discriminate.
Defined.

(** ** The updates of the bump command *)

Lemma get_put_same {V : Type} (key : string) (v : V) (m : list (string * V)) :
  get key (put key v m) = Some v.
Proof.
  induction m as [| [k w] m IH]; simpl.
  - rewrite String.eqb_refl. reflexivity.
  - destruct (String.eqb_spec key k) as [-> | Hne]; simpl.
    + rewrite String.eqb_refl. reflexivity.
    + apply String.eqb_neq in Hne. rewrite Hne. exact IH.
Qed.

Lemma get_put_other {V : Type} (key key' : string) (v : V)
  (m : list (string * V)) :
  key' <> key -> get key' (put key v m) = get key' m.
Proof.
  intros Hne. induction m as [| [k w] m IH]; simpl.
  - apply String.eqb_neq in Hne. rewrite Hne. reflexivity.
  - destruct (String.eqb_spec key k) as [-> | Hk]; simpl.
    + apply String.eqb_neq in Hne. rewrite Hne. reflexivity.
    + destruct (String.eqb key' k); auto.
Qed.

Lemma put_keys {V : Type} (key : string) (v : V) (m : list (string * V)) :
  forall k, In k (map fst (put key v m)) <-> k = key \/ In k (map fst m).
Proof.
  induction m as [| [k0 w] m IH]; intros k; simpl.
  - intuition.
  - destruct (String.eqb_spec key k0) as [-> | Hne]; simpl.
    + intuition.
    + rewrite IH. intuition.
Qed.

Lemma put_NoDup {V : Type} (key : string) (v : V) (m : list (string * V)) :
  NoDup (map fst m) -> NoDup (map fst (put key v m)).
Proof.
  induction m as [| [k0 w] m IH]; simpl; intros H.
  - repeat constructor. simpl. tauto.
  - inversion H as [| ? ? Hk Hm]; subst.
    destruct (String.eqb_spec key k0) as [-> | Hne]; simpl.
    + constructor; auto.
    + constructor; auto. rewrite put_keys. intros [E | Hin]; auto.
Qed.

Section UpdatesFacts.

Variable TrimSpace : string -> string.

(** [a] is a [--set] for [repo]. *)
Let sets (repo a : string) : Prop :=
  lacks "=" repo /\ exists v, a = (repo ++ "=" ++ v)%string.

Lemma splitArg_cases (a : string) :
  splitArg TrimSpace a = [] \/
  exists r v, splitArg TrimSpace a = [r; v] /\
              a = (r ++ "=" ++ v)%string /\ lacks "=" r.
Proof.
  destruct (splitArg_parts TrimSpace a) as [E | (r & v & E & Ha & Hl & _)];
    [left | right]; eauto.
Qed.

Lemma sets_repo (r v repo : string) :
  lacks "=" r -> (sets repo (r ++ "=" ++ v) <-> r = repo).
Proof.
  intros Hl. unfold sets. split.
  - intros (Hl' & v' & E).
    apply (first_split_unique "=" r repo v v') in E; tauto.
  - intros <-. eauto.
Qed.

Lemma collect_updates_get (tagArgs : list string) :
  forall acc updates,
    collect_updates TrimSpace tagArgs acc = inr updates ->
    (NoDup (map fst acc) -> NoDup (map fst updates)) /\
    forall repo version,
      get repo updates = Some version <->
      (exists before after,
         tagArgs = before ++ (repo ++ "=" ++ version)%string :: after /\
         lacks "=" repo /\ forall a, In a after -> ~ sets repo a) \/
      ((forall a, In a tagArgs -> ~ sets repo a) /\
       get repo acc = Some version).
Proof.
  induction tagArgs as [| a rest IH]; intros acc updates Hc.
  - injection Hc as <-. split; auto. intros repo version. split.
    + intros H. right. split; [intros a [] | exact H].
    + intros [(before & after & E & _) | [_ H]]; auto.
      destruct before; discriminate.
  - cbn [collect_updates] in Hc.
    destruct (splitArg_cases a) as [E | (r & v & E & Ha & Hl)];
      rewrite E in Hc; [discriminate |].
    cbn [nth] in Hc. destruct (IH _ _ Hc) as [Hnd Hget].
    split; [intros H; apply Hnd, put_NoDup, H |].
    intros repo version. rewrite Hget. subst a. split.
    + intros [(before & after & -> & Hlr & Hno) | [Hno Hg]].
      * left. exists ((r ++ "=" ++ v)%string :: before), after. auto.
      * destruct (string_dec r repo) as [-> | Hne].
        -- rewrite get_put_same in Hg. injection Hg as ->.
           left. exists [], rest. auto.
        -- rewrite get_put_other in Hg by congruence.
           right. split; auto. intros a [<- | Hin]; auto.
           rewrite sets_repo by assumption. exact Hne.
    + intros [(before & after & E' & Hlr & Hno) | [Hno Hg]].
      * destruct before as [| b before]; cbn [app] in E'.
        -- injection E' as E' <-.
           apply (first_split_unique "=" r repo v version) in E'
             as [-> ->]; auto.
           right. split; auto. apply get_put_same.
        -- injection E' as _ ->. left. eauto.
      * right. split; [intros a Hin; apply Hno; simpl; auto |].
        rewrite get_put_other; auto.
        intros ->. apply (Hno (r ++ "=" ++ v)%string); [simpl; auto |].
        apply sets_repo; auto.
Qed.

Lemma collect_updates_fails (tagArgs : list string) :
  forall acc e,
    collect_updates TrimSpace tagArgs acc = inl e ->
    exists before bad after,
      tagArgs = before ++ bad :: after /\
      (forall a, In a before -> splitArg TrimSpace a <> []) /\
      splitArg TrimSpace bad = [] /\
      e = ("invalid --set format: " ++ bad ++ " (expected repo=version)")%string.
Proof.
  induction tagArgs as [| a rest IH]; intros acc e Hc; [discriminate |].
  cbn [collect_updates] in Hc.
  destruct (splitArg TrimSpace a) as [| x parts] eqn:E.
  - injection Hc as <-. exists [], a, rest. repeat split; auto.
  - destruct (IH _ _ Hc) as (before & bad & after & -> & Hb & Hbad & ->).
    exists (a :: before), bad, after. repeat split; auto.
    intros b [<- | Hin]; [congruence | auto].
Qed.

Lemma collect_updates_succeeds (tagArgs : list string) :
  (forall a, In a tagArgs -> splitArg TrimSpace a <> []) ->
  forall acc, exists updates,
    collect_updates TrimSpace tagArgs acc = inr updates.
Proof.
  induction tagArgs as [| a rest IH]; intros Hall acc; simpl; eauto.
  destruct (splitArg TrimSpace a) as [| x parts] eqn:E.
  - exfalso. apply (Hall a); simpl; auto.
  - apply IH. intros b Hb. apply Hall. simpl. auto.
Qed.

End UpdatesFacts.

(** X14. When every [--set] is well formed, the map of updates the
    command builds has one entry per repo, and a repo given several times
    gets the version of its last [--set]: [updates[repo]] is [version]
    exactly when some [--set] is [repo=version] and no later one sets that
    repo. *)
Theorem collect_updates_last_wins
  (TrimSpace : string -> string) (tagArgs : list string)
  (updates : list (string * string)) :
  collect_updates TrimSpace tagArgs [] = inr updates ->
  NoDup (map fst updates) /\
  forall repo version,
    get repo updates = Some version <->
    exists before after,
      tagArgs = before ++ (repo ++ "=" ++ version)%string :: after /\
      lacks "=" repo /\
      forall a v, In a after -> a <> (repo ++ "=" ++ v)%string.
Proof.
  intros Hc.
  destruct (collect_updates_get TrimSpace tagArgs [] updates Hc) as [Hnd Hget].
  split; [apply Hnd; constructor |].
  intros repo version. rewrite Hget. split.
  - intros [(before & after & E & Hl & Hno) | [_ H]]; [| discriminate].
    exists before, after. repeat split; auto.
    intros a v Hin ->. apply (Hno _ Hin). split; eauto.
  - intros (before & after & E & Hl & Hno). left.
    exists before, after. repeat split; auto.
    intros a Hin (_ & v & ->). exact (Hno _ v Hin eq_refl).
Qed.

Lemma collect_updates_last_wins_witness :
  collect_updates TrimSpace_ascii ["nginx=1.25.0"; "redis=7.2.4"; "nginx=1.27.0"] []
  = inr [("nginx", "1.27.0"); ("redis", "7.2.4")] /\
  get "nginx" [("nginx", "1.27.0"); ("redis", "7.2.4")] = Some "1.27.0".
Proof.
  split; [reflexivity |].
  apply (collect_updates_last_wins TrimSpace_ascii
           ["nginx=1.25.0"; "redis=7.2.4"; "nginx=1.27.0"]
           [("nginx", "1.27.0"); ("redis", "7.2.4")] eq_refl).
  exists ["nginx=1.25.0"; "redis=7.2.4"], []. repeat split.
  - unfold lacks. simpl. intuition discriminate.
  - intros a v [].
Defined.

(** X15. The bump command returns an error without calling the function
    that reads the file when [--file] is empty, when there is no [--set],
    or when some [--set] is not [repo=version] (the error then names the
    first such argument). Otherwise it calls that function once, with the
    updates collected, and returns its error behind "failed to bump
    tags: ". *)
Theorem bumpCmd_RunE_checks
  (TrimSpace : string -> string) (filePath : string) (tagArgs : list string)
  (dryRun : bool) :
  (filePath = "" \/ tagArgs = [] ->
   forall Bump,
     bumpCmd_RunE TrimSpace Bump filePath tagArgs dryRun
     = Some "you must specify --file and at least one --set repo=version") /\
  (filePath <> "" ->
   forall before bad after,
     tagArgs = before ++ bad :: after ->
     (forall a, In a before -> splitArg TrimSpace a <> []) ->
     splitArg TrimSpace bad = [] ->
     forall Bump,
       bumpCmd_RunE TrimSpace Bump filePath tagArgs dryRun
       = Some ("invalid --set format: " ++ bad
               ++ " (expected repo=version)")%string) /\
  (filePath <> "" -> tagArgs <> [] ->
   (forall a, In a tagArgs -> splitArg TrimSpace a <> []) ->
   exists updates,
     collect_updates TrimSpace tagArgs [] = inr updates /\
     forall Bump,
       bumpCmd_RunE TrimSpace Bump filePath tagArgs dryRun
       = match Bump filePath updates dryRun with
         | Some e => Some ("failed to bump tags: " ++ e)%string
         | None => None
         end).
Proof.
  split; [| split].
  - intros [-> | ->] Bump; unfold bumpCmd_RunE; simpl; auto.
    rewrite orb_true_r. reflexivity.
  - intros Hf before bad after -> Hb Hbad Bump. unfold bumpCmd_RunE.
    apply String.eqb_neq in Hf. rewrite Hf.
    replace (Nat.eqb (length (before ++ bad :: after)) 0) with false
      by (destruct before; reflexivity).
    cbn [orb].
    destruct (collect_updates TrimSpace (before ++ bad :: after) [])
      as [e | updates] eqn:Ec.
    + apply collect_updates_fails in Ec
        as (before' & bad' & after' & E & Hb' & Hbad' & ->).
      assert (bad' = bad); [| subst; reflexivity].
      clear - E Hb Hbad Hb' Hbad'. revert before' E Hb'.
      induction before as [| b before IH]; intros [| b' before'] E Hb';
        cbn [app] in E.
      * injection E as <- _. reflexivity.
      * injection E as -> _. exfalso. apply (Hb' b'); simpl; auto.
      * injection E as <- _. exfalso. apply (Hb b); simpl; auto.
      * injection E as <- E. apply (IH (fun a H => Hb a (or_intror H))
                                       before' E).
        intros a H. apply Hb'. simpl. auto.
    + exfalso. clear - Ec Hb Hbad. revert Ec. generalize (@nil (string * string)).
      induction before as [| b before IH]; intros acc Ec; cbn in Ec.
      * rewrite Hbad in Ec. discriminate.
      * destruct (splitArg TrimSpace b) as [| x parts] eqn:E;
          [discriminate |].
        eapply IH; eauto. intros a H. apply Hb. simpl. auto.
  - intros Hf Hne Hall.
    destruct (collect_updates_succeeds TrimSpace tagArgs Hall [])
      as (updates & Ec).
    exists updates. split; auto. intros Bump. unfold bumpCmd_RunE.
    apply String.eqb_neq in Hf. rewrite Hf, Ec.
    destruct tagArgs; [congruence | reflexivity].
Qed.

Lemma bumpCmd_RunE_checks_witness :
  bumpCmd_RunE TrimSpace_ascii (fun _ _ _ => None) "release.yaml"
    ["nginx=1.27.0"; "redis"] true
  = Some "invalid --set format: redis (expected repo=version)".
Proof.
  refine (proj1 (proj2 (bumpCmd_RunE_checks TrimSpace_ascii "release.yaml"
                          ["nginx=1.27.0"; "redis"] true))
            _ ["nginx=1.27.0"] "redis" [] eq_refl _ eq_refl
            (fun _ _ _ => None)).
  - discriminate.
  - intros a [<- | []]. discriminate.
Defined.

(** ** The functions on the file *)

Lemma structured_err (values : fields) (imageName newVersion : string)
  (dryRun : bool) :
  err (BumpTagInValues values imageName newVersion dryRun) = None.
Proof.
  unfold BumpTagInValues. destruct (Nat.eqb _ 0); reflexivity.
Qed.

Lemma structured_changed (values : fields) (imageName newVersion : string)
  (dryRun : bool) :
  changed (BumpTagInValues values imageName newVersion dryRun)
  = negb (Nat.eqb (length (findImageBlocks values imageName)) 0).
Proof.
  unfold BumpTagInValues. destruct (Nat.eqb _ 0); reflexivity.
Qed.

Lemma structured_no_block (values : fields) (imageName newVersion : string)
  (dryRun : bool) :
  findImageBlocks values imageName = [] ->
  values_after (BumpTagInValues values imageName newVersion dryRun) = values.
Proof.
  intros E. unfold BumpTagInValues. rewrite E. reflexivity.
Qed.

Lemma structured_invalid_values (values : fields)
  (imageName newVersion : string) (dryRun : bool) :
  isValidSemver newVersion = false ->
  values_after (BumpTagInValues values imageName newVersion dryRun) = values.
Proof.
  intros Hv. unfold BumpTagInValues.
  destruct (Nat.eqb _ 0); cbn [values_after]; auto.
  destruct (fold_structured_invalid values imageName newVersion dryRun
              (findImageBlocks values imageName) Hv (Progress [] false []))
    as (Hc & _).
  cbn [cells] in Hc. rewrite Hc. apply readback_fields_nil.
Qed.

Lemma structured_dry_values (values : fields) (imageName newVersion : string) :
  values_after (BumpTagInValues values imageName newVersion true) = values.
Proof.
  unfold BumpTagInValues.
  destruct (Nat.eqb _ 0); cbn [values_after]; auto.
  rewrite fold_structured_dry. cbn [cells]. apply readback_fields_nil.
Qed.

Lemma universal_updates_update_loop (updates : list (string * string))
  (dryRun : bool) :
  forall values count,
    universal_updates values updates dryRun count
    = update_loop values updates dryRun count.
Proof.
  induction updates as [| [img v] rest IH]; intros values count; auto.
  cbn [universal_updates update_loop]. rewrite universal_err. apply IH.
Qed.

(** The loop of [BumpMultipleTags] never stops on an error, and never
    counts down. *)
Lemma structured_updates_returns (updates : list (string * string))
  (dryRun : bool) :
  forall values count,
    exists n after,
      structured_updates values updates dryRun count = inr (n, after) /\
      count <= n /\ (dryRun = true -> after = values).
Proof.
  induction updates as [| [img v] rest IH]; intros values count.
  - exists count, values. simpl. auto.
  - cbn [structured_updates]. rewrite structured_err.
    destruct (IH (values_after (BumpTagInValues values img v dryRun))
                 (if changed (BumpTagInValues values img v dryRun)
                  then S count else count))
      as (n & after & E & Hn & Hdry).
    exists n, after. split; [exact E | split].
    + destruct (changed _); lia.
    + intros ->. rewrite (Hdry eq_refl). apply structured_dry_values.
Qed.

(** Where no image asked for has a structured block, the loop counts
    nothing and leaves the tree. *)
Lemma structured_updates_no_block (updates : list (string * string))
  (dryRun : bool) (values : fields) :
  (forall img v, In (img, v) updates -> findImageBlocks values img = []) ->
  forall count,
    structured_updates values updates dryRun count = inr (count, values).
Proof.
  induction updates as [| [img v] rest IH]; intros Hall count; auto.
  cbn [structured_updates]. rewrite structured_err, structured_changed.
  assert (E : findImageBlocks values img = []).
  { apply (Hall img v). simpl. auto. }
  rewrite structured_no_block by exact E. rewrite E. cbn [length Nat.eqb negb].
  apply IH. intros img' v' H. apply (Hall img' v'). simpl. auto.
Qed.

(** With every version failing validation the loop leaves the tree, and
    counts the images that have a structured block. *)
Lemma structured_updates_all_invalid (updates : list (string * string))
  (dryRun : bool) (values : fields) :
  (forall img v, In (img, v) updates -> isValidSemver v = false) ->
  forall count,
    structured_updates values updates dryRun count
    = inr (count
           + length (filter
                       (fun u => negb (Nat.eqb (length (findImageBlocks
                                                          values (fst u))) 0))
                       updates),
           values).
Proof.
  induction updates as [| [img v] rest IH]; intros Hall count.
  - simpl. rewrite Nat.add_0_r. reflexivity.
  - cbn [structured_updates]. rewrite structured_err, structured_changed.
    rewrite structured_invalid_values
      by (apply (Hall img v); simpl; auto).
    rewrite IH by (intros img' v' H; apply (Hall img' v'); simpl; auto).
    cbn [filter fst].
    destruct (negb _); cbn [length]; do 2 f_equal; lia.
Qed.

Section FilesFacts.

Variable HelmRelease : Type.
Variable ReadFile : string -> string + string.
Variable WriteFile : string -> string -> option string.
Variable yaml_Unmarshal_HelmRelease : string -> string + HelmRelease.
Variable yaml_Marshal_HelmRelease : HelmRelease -> string + string.
Variable Spec_Values_Raw : HelmRelease -> option string.
Variable with_Spec_Values : HelmRelease -> string -> HelmRelease.
Variable json_Unmarshal_values : string -> string + fields.
Variable json_Marshal_values : fields -> string.
Local Abbreviation Structured :=
  (BumpMultipleTags HelmRelease ReadFile WriteFile
    yaml_Unmarshal_HelmRelease yaml_Marshal_HelmRelease Spec_Values_Raw
    with_Spec_Values json_Unmarshal_values json_Marshal_values).

Local Abbreviation Single :=
  (BumpSingleTag HelmRelease ReadFile WriteFile
    yaml_Unmarshal_HelmRelease yaml_Marshal_HelmRelease Spec_Values_Raw
    with_Spec_Values json_Unmarshal_values json_Marshal_values).

(** X16. [BumpMultipleTags] on a file that reads and decodes: in a dry
    run, or when no image asked for has a structured block, it leaves the
    file alone and returns no error. Without [dryRun], when every version
    asked for fails validation and yet some image has a structured block,
    it writes the file all the same: the release with the values it read,
    encoded again. *)
Theorem BumpMultipleTags_rewrites_unchanged
  (filePath : string) (updates : list (string * string)) (dryRun : bool)
  (data : string) (hr : HelmRelease) (raw : string) (values : fields) :
  ReadFile filePath = inr data ->
  yaml_Unmarshal_HelmRelease data = inr hr ->
  Spec_Values_Raw hr = Some raw ->
  json_Unmarshal_values raw = inr values ->
  (dryRun = true \/
   (forall img v, In (img, v) updates -> findImageBlocks values img = []) ->
   Structured filePath updates dryRun = Returns None None) /\
  (forall newYAML,
     dryRun = false ->
     (forall img v, In (img, v) updates -> isValidSemver v = false) ->
     (exists img v, In (img, v) updates /\ findImageBlocks values img <> []) ->
     yaml_Marshal_HelmRelease
       (with_Spec_Values hr (json_Marshal_values values)) = inr newYAML ->
     Structured filePath updates dryRun
     = Returns match WriteFile filePath newYAML with
               | Some e => Some ("failed to write updated file: " ++ e)%string
               | None => None
               end
               (Some (filePath, newYAML))).
Proof.
  intros E1 E2 E3 E4.
  unfold Structured, BumpMultipleTags. rewrite E1, E2, E3, E4. split.
  - intros [-> | Hnone].
    + destruct (structured_updates_returns updates true values 0)
        as (n & after & -> & _). reflexivity.
    + rewrite structured_updates_no_block by exact Hnone.
      destruct dryRun; reflexivity.
  - intros newYAML -> Hall (img & v & Hin & Hblock) Hm.
    rewrite structured_updates_all_invalid by exact Hall.
    cbn [Nat.add].
    destruct (filter _ updates) as [| u us] eqn:Ef.
    + exfalso.
      assert (Hu : In (img, v)
                     (filter
                        (fun u => negb (Nat.eqb (length (findImageBlocks
                                                           values (fst u))) 0))
                        updates)).
      { apply filter_In. split; [exact Hin |]. cbn [fst].
        destruct (findImageBlocks values img); [congruence | reflexivity]. }
      rewrite Ef in Hu. destruct Hu.
    + cbn [length Nat.eqb]. rewrite Hm.
      destruct (WriteFile filePath newYAML); reflexivity.
Qed.

(** X17. [BumpSingleTag] without [dryRun], on a file that reads and
    decodes, returns without an error and without a write only when the
    image has no structured block. When the image has one, the values the
    call of [BumpTagInValues] left are encoded and, unless that fails,
    written to the path: whether a tag changed plays no part. *)
Theorem BumpSingleTag_writes
  (filePath imageName newVersion : string)
  (data : string) (hr : HelmRelease) (raw : string) (values : fields) :
  ReadFile filePath = inr data ->
  yaml_Unmarshal_HelmRelease data = inr hr ->
  Spec_Values_Raw hr = Some raw ->
  json_Unmarshal_values raw = inr values ->
  let after :=
    values_after (BumpTagInValues values imageName newVersion false) in
  (Single filePath imageName newVersion false = Returns None None <->
   findImageBlocks values imageName = []) /\
  (forall newYAML,
     findImageBlocks values imageName <> [] ->
     yaml_Marshal_HelmRelease
       (with_Spec_Values hr (json_Marshal_values after)) = inr newYAML ->
     Single filePath imageName newVersion false
     = Returns match WriteFile filePath newYAML with
               | Some e => Some ("failed to write updated file: " ++ e)%string
               | None => None
               end
               (Some (filePath, newYAML))).
Proof.
  intros E1 E2 E3 E4 after.
  unfold Single, BumpSingleTag, BumpMultipleTags.
  rewrite E1, E2, E3, E4. cbn [structured_updates].
  rewrite structured_err, structured_changed. fold after.
  destruct (findImageBlocks values imageName) as [| m ms] eqn:Ef.
  - cbn [length Nat.eqb negb]. split; [tauto | congruence].
  - cbn [length Nat.eqb negb]. split.
    + split; [| discriminate].
      destruct (yaml_Marshal_HelmRelease _); [discriminate |].
      destruct (WriteFile _ _); discriminate.
    + intros newYAML _ ->. destruct (WriteFile _ _); reflexivity.
Qed.

Variable yaml_Unmarshal_map : string -> string + fields.
Variable yaml_Marshal_map : fields -> string + string.

Local Abbreviation Universal :=
  (BumpMultipleTagsUniversalAndSanitize HelmRelease ReadFile WriteFile
    yaml_Unmarshal_HelmRelease yaml_Marshal_HelmRelease Spec_Values_Raw
    with_Spec_Values json_Unmarshal_values json_Marshal_values
    yaml_Unmarshal_map yaml_Marshal_map).


End FilesFacts.


Lemma BumpMultipleTags_rewrites_unchanged_witness :
  BumpMultipleTags string
    (fun _ => inr "data") (fun _ _ => None)
    (fun data => inr data) (fun hr => inr hr)
    (fun hr => Some hr) (fun _ raw => raw)
    (fun _ => inr sample_values) (fun _ => "values")
    "release.yaml" [("ghcr.io/my-org/my-api", "latest")] false
  = Returns None (Some ("release.yaml", "values")).
Proof.
  refine (proj2 (BumpMultipleTags_rewrites_unchanged string
                   (fun _ => inr "data") (fun _ _ => None)
                   (fun data => inr data) (fun hr => inr hr)
                   (fun hr => Some hr) (fun _ raw => raw)
                   (fun _ => inr sample_values) (fun _ => "values")
                   "release.yaml" [("ghcr.io/my-org/my-api", "latest")] false
                   "data" "data" "data" sample_values
                   eq_refl eq_refl eq_refl eq_refl)
            "values" eq_refl _ _ eq_refl).
  - intros img v [[= <- <-] | []]. reflexivity.
  - exists "ghcr.io/my-org/my-api", "latest". split.
    + simpl. auto.
    + discriminate.
Defined.

Lemma BumpSingleTag_writes_witness :
  BumpSingleTag string
    (fun _ => inr "data") (fun _ _ => None)
    (fun data => inr data) (fun hr => inr hr)
    (fun hr => Some hr) (fun _ raw => raw)
    (fun _ => inr sample_values) (fun _ => "values")
    "release.yaml" "ghcr.io/my-org/my-api" "1.3.999" false
  = Returns None (Some ("release.yaml", "values")).
Proof.
  refine (proj2 (BumpSingleTag_writes string
                   (fun _ => inr "data") (fun _ _ => None)
                   (fun data => inr data) (fun hr => inr hr)
                   (fun hr => Some hr) (fun _ raw => raw)
                   (fun _ => inr sample_values) (fun _ => "values")
                   "release.yaml" "ghcr.io/my-org/my-api" "1.3.999"
                   "data" "data" "data" sample_values
                   eq_refl eq_refl eq_refl eq_refl)
            "values" _ eq_refl).
  discriminate.
Defined.

(** ** InjectImagePullSecrets: the loop over the lines *)

Lemma unlines_app (a b : list string) :
  unlines (a ++ b) = (unlines a ++ unlines b)%string.
Proof.
  induction a as [| l a IH]; simpl; auto.
  rewrite IH, !append_assoc. reflexivity.
Qed.

Lemma unlines_Split (data : string) :
  unlines (Split data newline) = (data ++ nl)%string.
Proof.
  induction data as [| c data IH]; [reflexivity |].
  cbn [Split]. destruct (Ascii.eqb_spec c newline) as [-> | Hne].
  - cbn [unlines]. rewrite IH. reflexivity.
  - pose proof (Split_nonempty data newline) as Hs.
    destruct (Split data newline) as [| piece pieces]; [contradiction |].
    cbn [unlines] in *. cbn [String.append]. rewrite IH. reflexivity.
Qed.

Lemma Split_pieces (s : string) (sep : ascii) :
  Forall (lacks sep) (Split s sep).
Proof.
  induction s as [| c s IH]; cbn [Split].
  - constructor; [intros [] | constructor].
  - destruct (Ascii.eqb_spec c sep) as [-> | Hne].
    + constructor; [intros [] | exact IH].
    + destruct (Split s sep) as [| piece pieces].
      * constructor; [| constructor]. intros [H | []]. congruence.
      * inversion IH as [| ? ? Hp Hps]; subst.
        constructor; [| exact Hps].
        intros [H | H]; [congruence | exact (Hp H)].
Qed.

Lemma Split_unlines (lines : list string) (s : string) :
  Forall (lacks newline) lines ->
  Split (unlines lines ++ s) newline = lines ++ Split s newline.
Proof.
  induction 1 as [| l lines Hl _ IH]; [reflexivity |].
  cbn [unlines]. unfold nl. rewrite !append_assoc. cbn [String.append].
  rewrite Split_app, Split_lacks by exact Hl.
  rewrite IH. reflexivity.
Qed.

Lemma unlines_block : unlines imagePullSecrets_lines = imagePullSecrets_block.
Proof. reflexivity. Qed.

Lemma block_lines_lack :
  Forall (lacks newline) imagePullSecrets_lines.
Proof.
  repeat constructor; unfold lacks; simpl; intros H;
    repeat (destruct H as [H | H]; [discriminate |]); exact H.
Qed.

Section InjectFacts.

Variable TrimSpace : string -> string.

Local Abbreviation is_template := (is_template_line TrimSpace).
Local Abbreviation turn := (inject_line TrimSpace).

(** No place for the block among [lines], for a loop that starts
    [inside] or not: no line that trims to [spec:] comes after a line that
    trims to something starting with [template:]. *)
Local Abbreviation no_place inside lines :=
  (forall b1 l b2,
      lines = b1 ++ l :: b2 ->
      inside || existsb is_template b1 = true ->
      TrimSpace l <> "spec:").

Lemma inject_line_cases (s : scan) (line : string) :
  turn s line
  = if is_template line then
      Scan (buf s ++ (line ++ nl))%string (injected s) true
    else if insideTemplate s && String.eqb (TrimSpace line) "spec:"
            && negb (injected s)
    then Scan ((buf s ++ (line ++ nl)) ++ imagePullSecrets_block)%string true
              (insideTemplate s)
    else Scan (buf s ++ (line ++ nl))%string (injected s) (insideTemplate s).
Proof. reflexivity. Qed.

(** Once the block is in, the loop only copies. *)
Lemma fold_injected (lines : list string) :
  forall s,
    injected s = true ->
    fold_left turn lines s
    = Scan (buf s ++ unlines lines)%string true
           (insideTemplate s || existsb is_template lines).
Proof.
  induction lines as [| l lines IH]; intros [b i t] Hi; simpl in Hi; subst i.
  - simpl. rewrite append_nil_r, orb_false_r. reflexivity.
  - cbn [fold_left]. rewrite inject_line_cases.
    cbn [buf injected insideTemplate negb existsb unlines].
    rewrite andb_false_r.
    destruct (is_template l); rewrite IH by reflexivity;
      cbn [buf insideTemplate]; rewrite !append_assoc;
      rewrite ?orb_true_r, ?orb_false_r; reflexivity.
Qed.

(** Without a place for the block, the loop only copies. *)
Lemma fold_no_place (lines : list string) :
  forall s,
    injected s = false ->
    no_place (insideTemplate s) lines ->
    fold_left turn lines s
    = Scan (buf s ++ unlines lines)%string false
           (insideTemplate s || existsb is_template lines).
Proof.
  induction lines as [| l lines IH]; intros [b i t] Hi Hno; simpl in Hi;
    subst i; cbn [insideTemplate] in Hno.
  - simpl. rewrite append_nil_r, orb_false_r. reflexivity.
  - cbn [fold_left]. rewrite inject_line_cases.
    cbn [buf injected insideTemplate negb existsb unlines].
    rewrite andb_true_r.
    destruct (is_template l) eqn:Et.
    + rewrite IH.
      * cbn [buf insideTemplate]. rewrite !append_assoc, orb_true_r.
        reflexivity.
      * reflexivity.
      * cbn [insideTemplate]. intros b1 l' b2 -> _.
        apply (Hno (l :: b1) l' b2 eq_refl).
        cbn [existsb]. rewrite Et. apply orb_true_r.
    + assert (Hl : t && String.eqb (TrimSpace l) "spec:" = false).
      { destruct t; [| reflexivity]. cbn [andb].
        apply String.eqb_neq. apply (Hno [] l lines eq_refl). reflexivity. }
      rewrite Hl, IH.
      * cbn [buf insideTemplate orb]. rewrite !append_assoc. reflexivity.
      * reflexivity.
      * cbn [insideTemplate]. intros b1 l' b2 -> Hin.
        apply (Hno (l :: b1) l' b2 eq_refl).
        cbn [existsb]. rewrite Et. exact Hin.
Qed.

(** The block goes after the first line that trims to [spec:] and comes
    after a line that trims to something starting with [template:]. *)
Lemma fold_place (before after : list string) (line : string) (s : scan) :
  injected s = false ->
  insideTemplate s || existsb is_template before = true ->
  TrimSpace line = "spec:" ->
  no_place (insideTemplate s) before ->
  buf (fold_left turn (before ++ line :: after) s)
  = (buf s ++ unlines (before ++ [line]) ++ imagePullSecrets_block
       ++ unlines after)%string.
Proof.
  intros Hi Hin Hline Hno.
  rewrite fold_left_app, (fold_no_place before s) by assumption.
  cbn [fold_left]. rewrite inject_line_cases.
  cbn [buf injected insideTemplate negb].
  assert (Et : is_template line = false).
  { unfold is_template_line. rewrite Hline. reflexivity. }
  rewrite Et, Hin, Hline. cbn [String.eqb Ascii.eqb Bool.eqb andb].
  rewrite fold_injected by reflexivity. cbn [buf].
  rewrite unlines_app. cbn [unlines].
  rewrite append_nil_r, !append_assoc. reflexivity.
Qed.

(** X19. The loop over the lines of a deployment template returns the
    data with a line feed added at its end, and with the block of
    [imagePullSecrets] put in at most once: after the first line that
    trims to [spec:] and follows a line whose trimmed text starts with
    [template:]. Without such a line the result is the data and the line
    feed. Nothing else is added, dropped or moved. *)
Theorem inject_template_once (data : string) :
  let lines := Split data newline in
  (forall before line after,
     lines = before ++ line :: after ->
     existsb (is_template_line TrimSpace) before = true ->
     TrimSpace line = "spec:" ->
     (forall b1 l b2,
        before = b1 ++ l :: b2 ->
        existsb (is_template_line TrimSpace) b1 = true ->
        TrimSpace l <> "spec:") ->
     (data ++ nl)%string
     = (unlines (before ++ [line]) ++ unlines after)%string /\
     inject_template TrimSpace data
     = (unlines (before ++ [line]) ++ imagePullSecrets_block
          ++ unlines after)%string) /\
  ((forall b1 l b2,
      lines = b1 ++ l :: b2 ->
      existsb (is_template_line TrimSpace) b1 = true ->
      TrimSpace l <> "spec:") ->
   inject_template TrimSpace data = (data ++ nl)%string).
Proof.
  intros lines. split.
  - intros before line after E Hin Hline Hno. split.
    + rewrite <- unlines_Split. fold lines. rewrite E.
      rewrite <- unlines_app, <- app_assoc. reflexivity.
    + unfold inject_template. fold lines. rewrite E.
      rewrite fold_place; auto.
  - intros Hno. unfold inject_template. fold lines.
    rewrite fold_no_place; auto.
    cbn [buf]. apply unlines_Split.
Qed.

(** X20. The loop does not look for a block that is there already: on a
    template in which it put the block, a second run puts a second block
    after the first, at the same line, and adds one more line feed at the
    end. *)
Theorem inject_template_again (data : string)
  (before after : list string) (line : string) :
  Split data newline = before ++ line :: after ->
  existsb (is_template_line TrimSpace) before = true ->
  TrimSpace line = "spec:" ->
  (forall b1 l b2,
     before = b1 ++ l :: b2 ->
     existsb (is_template_line TrimSpace) b1 = true ->
     TrimSpace l <> "spec:") ->
  inject_template TrimSpace (inject_template TrimSpace data)
  = (unlines (before ++ [line]) ++ imagePullSecrets_block
       ++ imagePullSecrets_block ++ unlines after ++ nl)%string.
Proof.
  intros E Hin Hline Hno.
  assert (Hfirst : inject_template TrimSpace data
                   = (unlines (before ++ [line]
                               ++ imagePullSecrets_lines ++ after) ++ "")%string).
  { unfold inject_template at 1. rewrite E, fold_place; auto.
    rewrite append_nil_r, app_assoc, !unlines_app, unlines_block.
    rewrite !append_assoc. reflexivity. }
  pose proof (Split_pieces data newline) as Hlack. rewrite E in Hlack.
  apply Forall_app in Hlack as [Hb Hla].
  inversion Hla as [| ? ? Hl Ha]; subst.
  unfold inject_template at 1. rewrite Hfirst, Split_unlines.
  - cbn [Split]. rewrite <- app_assoc.
    change (before ++ ([line] ++ imagePullSecrets_lines ++ after) ++ [""])
      with (before ++ line :: (imagePullSecrets_lines ++ after ++ [""])).
    rewrite fold_place; auto.
    rewrite !unlines_app, unlines_block. reflexivity.
  - apply Forall_app. split; [exact Hb |].
    constructor; [exact Hl |].
    apply Forall_app. split; [apply block_lines_lack | exact Ha].
Qed.

End InjectFacts.

Lemma inject_template_once_witness :
  inject_template TrimSpace_ascii sample_deployment
  = ("kind: Deployment" ++ nl ++
     "spec:" ++ nl ++
     "  template:" ++ nl ++
     "    spec:" ++ nl ++
     imagePullSecrets_block ++
     "      containers: []" ++ nl)%string.
Proof.
  exact (proj2 (proj1 (inject_template_once TrimSpace_ascii sample_deployment)
                  ["kind: Deployment"; "spec:"; "  template:"] "    spec:"
                  ["      containers: []"] eq_refl eq_refl eq_refl
                  ltac:(intros b1 x b2 E Hex Hx;
                        destruct b1 as [| a1 [| a2 [| a3 [| a4 b1]]]];
                        try discriminate E; injection E as; subst;
                        vm_compute in Hex; try discriminate Hex;
                        vm_compute in Hx; discriminate Hx))).
Defined.

Lemma inject_template_again_witness :
  inject_template TrimSpace_ascii
    (inject_template TrimSpace_ascii sample_deployment)
  = ("kind: Deployment" ++ nl ++
     "spec:" ++ nl ++
     "  template:" ++ nl ++
     "    spec:" ++ nl ++
     imagePullSecrets_block ++ imagePullSecrets_block ++
     "      containers: []" ++ nl ++ nl)%string.
Proof.
  exact (inject_template_again TrimSpace_ascii sample_deployment
           ["kind: Deployment"; "spec:"; "  template:"]
           ["      containers: []"] "    spec:" eq_refl eq_refl eq_refl
           ltac:(intros b1 x b2 E Hex Hx;
                 destruct b1 as [| a1 [| a2 [| a3 [| a4 b1]]]];
                 try discriminate E; injection E as; subst;
                 vm_compute in Hex; try discriminate Hex;
                 vm_compute in Hx; discriminate Hx)).
Defined.

(** ** InjectImagePullSecrets: the values and the writes *)

(** X21. Step 3 on decoded values that are a map: it reports the key as
    existing only when [image] is a mapping that has [imagePullSecret],
    whatever it holds. Otherwise the values it leaves have under [image] a
    mapping with [imagePullSecret] set to the empty string and, besides,
    the keys the [image] mapping had (none, when [image] was missing or
    was no mapping: what it held is dropped); every other key of the
    values holds what it held; and step 3 on these values finds the key
    existing. *)
Theorem ensure_imagePullSecret_adds (vs : fields) :
  match ensure_imagePullSecret (Some vs) with
  | AlreadyExists =>
      exists m v,
        lookup "image" vs = Some (Mapping m) /\
        lookup "imagePullSecret" m = Some v
  | Added vs' =>
      (forall m, lookup "image" vs = Some (Mapping m) ->
                 lookup "imagePullSecret" m = None) /\
      (exists m',
         lookup "image" vs' = Some (Mapping m') /\
         lookup "imagePullSecret" m' = Some (Str "") /\
         forall k, k <> "imagePullSecret" ->
                   lookup k m'
                   = match lookup "image" vs with
                     | Some (Mapping m) => lookup k m
                     | _ => None
                     end) /\
      (forall k, k <> "image" -> lookup k vs' = lookup k vs) /\
      ensure_imagePullSecret (Some vs') = AlreadyExists
  | NilMap => False
  end.
Proof.
  unfold ensure_imagePullSecret at 1.
  set (imageBlock := match lookup "image" vs with
                     | Some (Mapping m) => m
                     | _ => []
                     end).
  destruct (lookup "imagePullSecret" imageBlock) as [v |] eqn:E.
  - subst imageBlock.
    destruct (lookup "image" vs) as [[| | | | | m] |]; try discriminate E.
    exists m, v. auto.
  - split; [| split; [| split]].
    + intros m Hm. subst imageBlock. rewrite Hm in E. exact E.
    + exists (put "imagePullSecret" (Str "") imageBlock).
      split; [apply lookup_put_same | split; [apply lookup_put_same |]].
      intros k Hk. rewrite lookup_put_other by exact Hk.
      subst imageBlock.
      destruct (lookup "image" vs) as [[| | | | | m] |]; reflexivity.
    + intros k Hk. apply lookup_put_other. exact Hk.
    + unfold ensure_imagePullSecret.
      rewrite !lookup_put_same. reflexivity.
Qed.

Section InjectRuns.

Variable TrimSpace : string -> string.
Variable Join : string -> string -> string.
Variable Chart : Type.
Variable RenderValues : Type.
Variable loader_Load : string -> string + Chart.
Variable Templates : Chart -> list File.
Variable with_Templates : Chart -> list File -> Chart.
Variable ReadFile : list (string * string) -> string -> string + string.
Variable WriteFile : list (string * string) -> string -> string -> option string.
Variable yaml_Unmarshal : string -> string + option fields.
Variable yaml_Marshal : fields -> string + string.
Variable ToRenderValues : Chart -> option fields -> string + RenderValues.
Variable Render : Chart -> RenderValues -> string + list (string * string).

Local Abbreviation step2 := (inject_templates TrimSpace Join WriteFile).
Local Abbreviation due := (template_writes TrimSpace Join).
Local Abbreviation Inject :=
  (InjectImagePullSecrets TrimSpace Join Chart RenderValues loader_Load
     Templates with_Templates ReadFile WriteFile yaml_Unmarshal yaml_Marshal
     ToRenderValues Render).

(** Step 2 stops at the first write that fails: it has made the writes
    due up to that one, and no other. *)
Lemma inject_templates_fails (chartDir : string) (templates : list File) :
  forall log k path data e,
    nth_error (due chartDir templates) k = Some (path, data) ->
    (forall j p d,
       j < k -> nth_error (due chartDir templates) j = Some (p, d) ->
       WriteFile (log ++ firstn j (due chartDir templates)) p d = None) ->
    WriteFile (log ++ firstn k (due chartDir templates)) path data = Some e ->
    fst (fst (step2 chartDir templates log))
    = Some ("failed to write updated deployment.yaml: " ++ e)%string /\
    snd (step2 chartDir templates log)
    = log ++ firstn (S k) (due chartDir templates).
Proof.
  unfold template_writes.
  induction templates as [| tmpl rest IH]; intros log k path data e Hk Hok He.
  - destruct k; discriminate.
  - cbn [inject_templates filter] in *.
    destruct (Contains (Name tmpl) "deployment.yaml").
    + cbn [Name Data map] in *. destruct k as [| k].
      * injection Hk as <- <-. cbn [firstn] in He.
        rewrite app_nil_r in He. rewrite He. cbn [fst snd firstn]. auto.
      * cbn [nth_error] in Hk.
        pose proof (Hok 0 _ _ (Nat.lt_0_succ k) eq_refl) as H0.
        cbn [firstn] in H0. rewrite app_nil_r in H0. rewrite H0.
        destruct (IH (log ++ [(Join chartDir (Name tmpl),
                               inject_template TrimSpace (Data tmpl))])
                     k path data e Hk) as [E1 E2].
        { intros j p d Hj Hn. rewrite <- app_assoc.
          apply (Hok (S j) p d); [lia | exact Hn]. }
        { rewrite <- app_assoc. exact He. }
        destruct (step2 chartDir rest _) as [[e' rest'] log'].
        cbn [fst snd] in *. split; [exact E1 |].
        rewrite E2, <- app_assoc. reflexivity.
    + destruct (IH log k path data e Hk Hok He) as [E1 E2].
      destruct (step2 chartDir rest log) as [[e' rest'] log'].
      cbn [fst snd] in *. auto.
Qed.

(** While the writes due succeed, step 2 makes them all. *)
Lemma inject_templates_succeeds (chartDir : string) (templates : list File) :
  forall log,
    (forall j p d,
       nth_error (due chartDir templates) j = Some (p, d) ->
       WriteFile (log ++ firstn j (due chartDir templates)) p d = None) ->
    fst (fst (step2 chartDir templates log)) = None /\
    snd (step2 chartDir templates log) = log ++ due chartDir templates.
Proof.
  unfold template_writes.
  induction templates as [| tmpl rest IH]; intros log Hok.
  - simpl. rewrite app_nil_r. auto.
  - cbn [inject_templates filter] in *.
    destruct (Contains (Name tmpl) "deployment.yaml").
    + cbn [Name Data map] in *.
      pose proof (Hok 0 _ _ eq_refl) as H0.
      cbn [firstn] in H0. rewrite app_nil_r in H0. rewrite H0.
      destruct (IH (log ++ [(Join chartDir (Name tmpl),
                             inject_template TrimSpace (Data tmpl))]))
        as [E1 E2].
      { intros j p d Hn. rewrite <- app_assoc. apply (Hok (S j) p d Hn). }
      destruct (step2 chartDir rest _) as [[e' rest'] log'].
      cbn [fst snd] in *. split; [exact E1 |].
      rewrite E2, <- app_assoc. reflexivity.
    + destruct (IH log Hok) as [E1 E2].
      destruct (step2 chartDir rest log) as [[e' rest'] log'].
      cbn [fst snd] in *. auto.
Qed.

(** X22. The calls of [os.WriteFile] that [InjectImagePullSecrets] makes
    on a chart that loads. The writes due are those of the templates
    whose name holds [deployment.yaml], in the order of the templates,
    each to its path under the chart directory with what the loop over
    its lines gives. When one of them fails, all before it having
    succeeded, the call returns that error, having made the writes due up
    to the failed one and no other. When all of them succeed, the values
    are looked at only then: a [values.yaml] that cannot be read makes
    the call return that error, and one that decodes to a nil map makes
    it panic, with every template already rewritten; otherwise one more
    write follows, to [values.yaml], exactly when the key had to be added
    and the values could be encoded. *)
Theorem InjectImagePullSecrets_writes (chartDir : string) (ch : Chart) :
  loader_Load chartDir = inr ch ->
  let writes := writes_of (Inject chartDir) in
  let valuesPath := Join chartDir "values.yaml" in
  let todo := due chartDir (Templates ch) in
  (forall k path data e,
     nth_error todo k = Some (path, data) ->
     (forall j p d,
        j < k -> nth_error todo j = Some (p, d) ->
        WriteFile (firstn j todo) p d = None) ->
     WriteFile (firstn k todo) path data = Some e ->
     Inject chartDir
     = Returned (Some ("failed to write updated deployment.yaml: " ++ e)%string)
                (firstn (S k) todo)) /\
  ((forall j p d,
      nth_error todo j = Some (p, d) ->
      WriteFile (firstn j todo) p d = None) ->
   (forall e,
      ReadFile todo valuesPath = inl e ->
      Inject chartDir
      = Returned (Some ("failed to read values.yaml: " ++ e)%string) todo) /\
   (forall rawVals,
      ReadFile todo valuesPath = inr rawVals ->
      yaml_Unmarshal rawVals = inr None ->
      Inject chartDir = Panicked todo) /\
   (forall rawVals vs,
      ReadFile todo valuesPath = inr rawVals ->
      yaml_Unmarshal rawVals = inr (Some vs) ->
      writes
      = match ensure_imagePullSecret (Some vs) with
        | Added values =>
            match yaml_Marshal values with
            | inr updated => todo ++ [(valuesPath, updated)]
            | inl _ => todo
            end
        | _ => todo
        end) /\
   (writes = todo \/ exists updated, writes = todo ++ [(valuesPath, updated)])).
Proof.
  intros Hload writes valuesPath todo. subst writes valuesPath todo.
  unfold InjectImagePullSecrets. rewrite Hload. cbv zeta. split.
  - intros k path data e Hk Hok He.
    destruct (inject_templates_fails chartDir (Templates ch) [] k path data e
                Hk Hok He) as [E1 E2].
    destruct (step2 chartDir (Templates ch) []) as [[e' templates] log].
    cbn [fst snd app] in E1, E2. subst e' log. reflexivity.
  - intros Hok.
    destruct (inject_templates_succeeds chartDir (Templates ch) [] Hok)
      as [E1 E2].
    destruct (step2 chartDir (Templates ch) []) as [[e' templates] log].
    cbn [fst snd app] in E1, E2. subst e' log.
    split; [| split; [| split]].
    + intros e ->. reflexivity.
    + intros rawVals -> ->. reflexivity.
    + intros rawVals vs -> ->.
      destruct (ensure_imagePullSecret (Some vs)) as [| values' |].
      * unfold render_preview.
        destruct (ToRenderValues _ _); [reflexivity |].
        destruct (Render _ _); reflexivity.
      * destruct (yaml_Marshal values') as [? | updated]; [reflexivity |].
        unfold render_preview.
        destruct (WriteFile _ _ _); [reflexivity |].
        destruct (ToRenderValues _ _); [reflexivity |].
        destruct (Render _ _); reflexivity.
      * reflexivity.
    + destruct (ReadFile _ _) as [? | rawVals]; [left; reflexivity |].
      destruct (yaml_Unmarshal rawVals) as [? | values];
        [left; reflexivity |].
      destruct (ensure_imagePullSecret values) as [| values' |].
      * unfold render_preview.
        destruct (ToRenderValues _ _); [left; reflexivity |].
        destruct (Render _ _); left; reflexivity.
      * destruct (yaml_Marshal values') as [? | updated];
          [left; reflexivity |].
        right. exists updated. unfold render_preview.
        destruct (WriteFile _ _ _); [reflexivity |].
        destruct (ToRenderValues _ _); [reflexivity |].
        destruct (Render _ _); reflexivity.
      * left. reflexivity.
Qed.

End InjectRuns.

Lemma InjectImagePullSecrets_writes_witness :
  InjectImagePullSecrets TrimSpace_ascii
    (fun dir name => (dir ++ "/" ++ name)%string) unit unit
    (fun _ => inr tt)
    (fun _ => [{| Name := "templates/deployment.yaml";
                  Data := sample_deployment |};
               {| Name := "templates/service.yaml"; Data := "kind: Service" |};
               {| Name := "templates/worker-deployment.yaml";
                  Data := sample_deployment |}])
    (fun ch _ => ch)
    (fun _ _ => inl "no such file")
    (fun log _ _ => match log with [] => None | _ => Some "disk full" end)
    (fun _ => inr None) (fun _ => inr "")
    (fun _ _ => inr tt) (fun _ _ => inr [])
    "chart"
  = Returned (Some "failed to write updated deployment.yaml: disk full")
      [("chart/templates/deployment.yaml",
        inject_template TrimSpace_ascii sample_deployment);
       ("chart/templates/worker-deployment.yaml",
        inject_template TrimSpace_ascii sample_deployment)].
Proof.
  refine (proj1 (InjectImagePullSecrets_writes TrimSpace_ascii
                   (fun dir name => (dir ++ "/" ++ name)%string)
                   unit unit (fun _ => inr tt)
                   (fun _ => [{| Name := "templates/deployment.yaml";
                                 Data := sample_deployment |};
                              {| Name := "templates/service.yaml";
                                 Data := "kind: Service" |};
                              {| Name := "templates/worker-deployment.yaml";
                                 Data := sample_deployment |}])
                   (fun ch _ => ch)
                   (fun _ _ => inl "no such file")
                   (fun log _ _ =>
                      match log with [] => None | _ => Some "disk full" end)
                   (fun _ => inr None) (fun _ => inr "")
                   (fun _ _ => inr tt) (fun _ _ => inr [])
                   "chart" tt eq_refl)
            1 _ _ "disk full" eq_refl _ eq_refl).
  intros [| j] p d Hj Hn; [reflexivity | lia].
Defined.

(** ** The order of the updates *)

(** A call without [dry_run] on a map with one string under a key other
    than [repository]. *)
Lemma values_after_single (key s imageName newVersion : string) :
  key <> "repository" ->
  isValidSemver newVersion = true ->
  values_after
    (BumpTagInValuesUniversal [(key, Str s)] imageName newVersion false)
  = [(key, Str (if stale_inline imageName newVersion (Str s)
                then Sprintf_colon imageName newVersion else s))].
Proof.
  intros Hkey Hvalid.
  pose proof (values_after_rewritten [(key, Str s)] imageName newVersion
                eq_refl Hvalid) as H.
  cbn [rewritten map fst snd] in H. unfold retagged in H.
  cbn [lookup] in H.
  assert (Hk : String.eqb "repository" key = false).
  { apply String.eqb_neq. congruence. }
  rewrite Hk in H. cbn [andb app] in H.
  injection H as H. rewrite H. unfold stale_inline.
  destruct (HasPrefix s (imageName ++ ":")
            && negb (String.eqb (version_of s) newVersion)); reflexivity.
Qed.

Lemma prefix_colon_lacks (p v : string) :
  lacks ":" v -> String.prefix (p ++ ":") v = false.
Proof.
  intros Hl. destruct (String.prefix (p ++ ":") v) eqn:E; auto.
  apply prefix_split in E as (rest & ->).
  rewrite !lacks_append in Hl. destruct Hl as [[_ Hl] _].
  exfalso. apply Hl. simpl. auto.
Qed.

Lemma prefix_append_both (a b c : string) :
  String.prefix (a ++ b) (a ++ c) = String.prefix b c.
Proof.
  induction a as [| x a IH]; [reflexivity |].
  simpl. destruct (ascii_dec x x); [exact IH | contradiction].
Qed.

(** X23. What the update loop leaves can depend on the order in which
    [range] takes the updates. With one image name of the form
    [name:rest] next to the image [name], both asked to go to the same
    valid version, a string [name:rest:old] becomes [name:rest:version]
    when [name:rest] is taken first (the update of [name] then finds its
    version in place), and [name:version] when [name] is taken first (the
    update of [name:rest] then finds nothing): two different trees from
    the same values and the same updates. *)
Theorem update_order_matters (key name rest old version : string) :
  key <> "repository" ->
  isValidSemver version = true ->
  lacks ":" old ->
  old <> version ->
  let values := [(key, Str (name ++ ":" ++ rest ++ ":" ++ old)%string)] in
  let longer := (name ++ ":" ++ rest)%string in
  exists n n' after after',
    universal_updates values [(longer, version); (name, version)] false 0
    = inr (n, after) /\
    universal_updates values [(name, version); (longer, version)] false 0
    = inr (n', after') /\
    after = [(key, Str (name ++ ":" ++ rest ++ ":" ++ version)%string)] /\
    after' = [(key, Str (name ++ ":" ++ version)%string)] /\
    after <> after'.
Proof.
  intros Hkey Hvalid Hold Hne values longer.
  pose proof (valid_lacks_colon version Hvalid) as Hv.
  assert (Hs : (name ++ ":" ++ rest ++ ":" ++ old)%string
               = (longer ++ ":" ++ old)%string).
  { unfold longer. rewrite !append_assoc. reflexivity. }
  (* the longer name first *)
  assert (H1 : values_after
                 (BumpTagInValuesUniversal values longer version false)
               = [(key, Str (longer ++ ":" ++ version)%string)]).
  { unfold values. rewrite values_after_single by assumption.
    unfold stale_inline, HasPrefix. rewrite Hs.
    rewrite version_of_last_colon by exact Hold.
    replace (longer ++ ":" ++ old)%string
      with ((longer ++ ":") ++ old)%string by apply append_assoc.
    rewrite prefix_append.
    apply String.eqb_neq in Hne. rewrite Hne. reflexivity. }
  assert (H2 : values_after
                 (BumpTagInValuesUniversal
                    [(key, Str (longer ++ ":" ++ version)%string)]
                    name version false)
               = [(key, Str (longer ++ ":" ++ version)%string)]).
  { rewrite values_after_single by assumption.
    unfold stale_inline.
    rewrite version_of_last_colon by exact Hv.
    rewrite String.eqb_refl, andb_false_r. reflexivity. }
  (* the shorter name first *)
  assert (H3 : values_after
                 (BumpTagInValuesUniversal values name version false)
               = [(key, Str (name ++ ":" ++ version)%string)]).
  { unfold values. rewrite values_after_single by assumption.
    unfold stale_inline, HasPrefix.
    replace (name ++ ":" ++ rest ++ ":" ++ old)%string
      with ((name ++ ":") ++ (rest ++ ":" ++ old))%string
      by apply append_assoc.
    rewrite prefix_append.
    replace ((name ++ ":") ++ rest ++ ":" ++ old)%string
      with ((name ++ ":" ++ rest) ++ ":" ++ old)%string
      by (rewrite !append_assoc; reflexivity).
    rewrite version_of_last_colon by exact Hold.
    apply String.eqb_neq in Hne. rewrite Hne. reflexivity. }
  assert (H4 : values_after
                 (BumpTagInValuesUniversal
                    [(key, Str (name ++ ":" ++ version)%string)]
                    longer version false)
               = [(key, Str (name ++ ":" ++ version)%string)]).
  { rewrite values_after_single by assumption.
    unfold stale_inline, HasPrefix, longer.
    replace ((name ++ ":" ++ rest) ++ ":")%string
      with ((name ++ ":") ++ (rest ++ ":"))%string
      by (rewrite !append_assoc; reflexivity).
    replace (name ++ ":" ++ version)%string
      with ((name ++ ":") ++ version)%string by apply append_assoc.
    rewrite prefix_append_both, prefix_colon_lacks by exact Hv.
    reflexivity. }
  cbn [universal_updates]. rewrite !universal_err, H1, H3.
  rewrite ?universal_err, H2, H4.
  do 4 eexists.
  split; [reflexivity | split; [reflexivity | split; [| split]]].
  - unfold longer. rewrite !append_assoc. reflexivity.
  - reflexivity.
  - intros E. injection E as E.
    apply (f_equal String.length) in E.
    unfold longer in E. rewrite !length_append in E. simpl in E. lia.
Qed.

Lemma update_order_matters_witness :
  exists n n',
    universal_updates [("image", Str "localhost:5000/app:1.0.0")]
      [("localhost:5000/app", "2.0.0"); ("localhost", "2.0.0")] false 0
    = inr (n, [("image", Str "localhost:5000/app:2.0.0")]) /\
    universal_updates [("image", Str "localhost:5000/app:1.0.0")]
      [("localhost", "2.0.0"); ("localhost:5000/app", "2.0.0")] false 0
    = inr (n', [("image", Str "localhost:2.0.0")]).
Proof.
  destruct (update_order_matters "image" "localhost" "5000/app" "1.0.0"
              "2.0.0")
    as (n & n' & after & after' & H1 & H2 & -> & -> & _).
  - discriminate.
  - reflexivity.
  - unfold lacks. simpl. intros H.
    repeat (destruct H as [H | H]; [discriminate |]). exact H.
  - discriminate.
  - exists n, n'. split; [exact H1 | exact H2].
Defined.

(** ** The order of the updates, for images in the structured convention *)

Lemma existsb_flat_map {A B : Type} (f : B -> bool) (g : A -> list B)
  (l : list A) :
  existsb f (flat_map g l) = existsb (fun x => existsb f (g x)) l.
Proof.
  induction l as [| x l IH]; simpl; auto.
  rewrite existsb_app, IH. reflexivity.
Qed.

Lemma existsb_map {A B : Type} (f : B -> bool) (g : A -> B) (l : list A) :
  existsb f (map g l) = existsb (fun x => f (g x)) l.
Proof. induction l as [| x l IH]; simpl; congruence. Qed.

Lemma existsb_ext_In {A : Type} (f g : A -> bool) (l : list A) :
  (forall x, In x l -> f x = g x) -> existsb f l = existsb g l.
Proof.
  induction l as [| x l IH]; simpl; intros H; auto.
  rewrite H, IH; auto.
Qed.

Lemma forallb_ext_In {A : Type} (f g : A -> bool) (l : list A) :
  (forall x, In x l -> f x = g x) -> forallb f l = forallb g l.
Proof.
  induction l as [| x l IH]; simpl; intros H; auto.
  rewrite H, IH; auto.
Qed.

(** The matches of a slice that are not at the version. *)
Lemma pending_items (imageName newVersion : string) (items : list node) :
  (forall x, In x items ->
     existsb (fun m => negb (String.eqb (current x m) newVersion))
             (walk imageName x)
     = pending imageName newVersion x) ->
  forall l i,
    (forall j x, nth_error l j = Some x -> nth_error items (i + j) = Some x) ->
    existsb (fun m => negb (String.eqb (current (Seq items) m) newVersion))
            (walk_items imageName i l)
    = existsb (pending imageName newVersion) l.
Proof.
  intros IH. induction l as [| x l IHl]; intros i Hnth; [reflexivity |].
  cbn [walk_items existsb]. rewrite existsb_app, existsb_map.
  assert (Hx : nth_error items i = Some x).
  { rewrite <- (Nat.add_0_r i). apply Hnth. reflexivity. }
  rewrite (existsb_ext_In _
             (fun m => negb (String.eqb (current x m) newVersion))).
  - rewrite IH by (eapply nth_error_In; eauto).
    f_equal. apply IHl. intros j y Hj.
    rewrite Nat.add_succ_l, <- Nat.add_succ_r. apply Hnth. exact Hj.
  - intros m _. rewrite (current_under_Idx items i x); auto.
Qed.

(** The boolean of a call, read off the tree: some match is not at the
    version. *)
Lemma pending_walk (imageName newVersion : string) (n : node) :
  well_keyed n = true ->
  existsb (fun m => negb (String.eqb (current n m) newVersion))
          (walk imageName n)
  = pending imageName newVersion n.
Proof.
  induction n as [| b | literal | s | items IH | typed IH] using node_ind;
    intros Hwf; try reflexivity.
  - rewrite walk_Seq. cbn [pending].
    apply pending_items.
    + intros x Hx. rewrite Forall_forall in IH. apply IH; auto.
      apply (proj1 (well_keyed_Seq items) Hwf). exact Hx.
    + intros j x Hj. exact Hj.
  - apply well_keyed_Mapping in Hwf as [Hnd Hall].
    rewrite walk_Mapping, existsb_app, existsb_flat_map. cbn [pending].
    f_equal.
    + unfold walk_block, retagged.
      destruct (lookup "repository" typed) as [[| | | repo | |] |];
        try reflexivity.
      destruct (String.eqb repo imageName); [| reflexivity].
      cbn [existsb current get_at]. rewrite orb_false_r. reflexivity.
    + apply existsb_ext_In. intros [k v] Hin.
      rewrite Forall_forall in IH.
      pose proof (In_lookup k typed v Hnd Hin) as Hl.
      assert (Hrec : existsb
                       (fun m => negb (String.eqb (current (Mapping typed) m)
                                                  newVersion))
                       (map (under (Key k)) (walk imageName v))
                     = pending imageName newVersion v).
      { rewrite existsb_map.
        rewrite (existsb_ext_In _
                   (fun m => negb (String.eqb (current v m) newVersion))).
        - apply (IH (k, v) Hin). eapply Hall; eauto.
        - intros m _. rewrite (current_under_Key typed k v); auto. }
      unfold walk_entry. cbn [fst snd].
      destruct v; cbn [stale_inline orb]; try exact Hrec.
      destruct (HasPrefix s (imageName ++ ":")); [| exact Hrec].
      cbn [existsb current andb pending]. rewrite !orb_false_r. reflexivity.
Qed.


Lemma retagged_repository (imageName newVersion : string) (typed : fields) :
  retagged imageName newVersion typed
  = match repository_of typed with
    | Some repo =>
        String.eqb repo imageName
        && negb (String.eqb (tag_of typed) newVersion)
    | None => false
    end.
Proof.
  unfold retagged, repository_of.
  destruct (lookup "repository" typed) as [[| | | repo | |] |]; reflexivity.
Qed.

Lemma is_inline_rewritten (imageName newVersion other : string) (x : node) :
  is_inline other (rewritten imageName newVersion x) = is_inline other x.
Proof. destruct x; reflexivity. Qed.

Lemma is_container_rewritten (imageName newVersion : string) (x : node) :
  is_container (rewritten imageName newVersion x) = is_container x.
Proof. destruct x; reflexivity. Qed.

Lemma stale_not_inline (imageName newVersion : string) (x : node) :
  is_inline imageName x = false -> stale_inline imageName newVersion x = false.
Proof. destruct x; simpl; intros H; auto. rewrite H. reflexivity. Qed.

Lemma pending_scalar (imageName newVersion : string) (x : node) :
  is_container x = false -> pending imageName newVersion x = false.
Proof. destruct x; simpl; auto; discriminate. Qed.

Lemma plain_Mapping (imageName : string) (typed : fields) :
  plain imageName (Mapping typed) = true <->
  scalar_tag imageName typed = true /\
  forall k x, In (k, x) typed ->
              is_inline imageName x = false /\ plain imageName x = true.
Proof.
  cbn [plain]. rewrite andb_true_iff, forallb_forall. split.
  - intros [Hs Hall]. split; [exact Hs |]. intros k x Hin.
    specialize (Hall (k, x) Hin). cbn [snd] in Hall.
    apply andb_true_iff in Hall as [Hi Hp].
    apply negb_true_iff in Hi. auto.
  - intros [Hs Hall]. split; [exact Hs |]. intros [k x] Hin.
    destruct (Hall k x Hin) as [Hi Hp]. cbn [snd]. rewrite Hi, Hp. reflexivity.
Qed.

Section OneImage.

Variables imageName newVersion : string.
Hypothesis valid : isValidSemver newVersion = true.

Local Abbreviation rw := (rewritten imageName newVersion).
Local Abbreviation after typed :=
  (map (fun kv => (fst kv, rewritten_value imageName newVersion typed%list kv))
       typed%list
   ++ rewritten_extra imageName newVersion typed%list).

Lemma rewritten_value_plain (typed : fields) (k : string) (x : node) :
  is_inline imageName x = false ->
  rewritten_value imageName newVersion typed (k, x)
  = if retagged imageName newVersion typed && String.eqb k "tag"
    then Str newVersion else rw x.
Proof.
  intros H. unfold rewritten_value. cbn [fst snd].
  rewrite (stale_not_inline _ _ _ H). reflexivity.
Qed.

Lemma new_version_not_inline (other : string) :
  is_inline other (Str newVersion) = false.
Proof. apply new_not_inline. exact valid. Qed.

Lemma lookup_extra_repository (typed : fields) :
  lookup "repository" (rewritten_extra imageName newVersion typed) = None.
Proof.
  unfold rewritten_extra. destruct (_ && _); reflexivity.
Qed.

(** The call leaves the [repository] of a mapping. *)
Lemma repository_after (typed : fields) :
  plain imageName (Mapping typed) = true ->
  repository_of (after typed) = repository_of typed.
Proof.
  intros Hp. apply plain_Mapping in Hp as [_ Hall].
  unfold repository_of. rewrite lookup_rewritten.
  destruct (lookup "repository" typed) as [x |] eqn:E.
  - apply lookup_In in E. destruct (Hall _ _ E) as [Hi _].
    rewrite rewritten_value_plain by exact Hi.
    rewrite andb_false_r. destruct x; reflexivity.
  - rewrite lookup_extra_repository. reflexivity.
Qed.

(** It leaves the tag of a mapping that is not retagged. *)
Lemma tag_of_after (typed : fields) :
  plain imageName (Mapping typed) = true ->
  retagged imageName newVersion typed = false ->
  tag_of (after typed) = tag_of typed.
Proof.
  intros Hp Hr. apply plain_Mapping in Hp as [_ Hall].
  unfold tag_of. rewrite lookup_rewritten.
  unfold rewritten_extra. rewrite Hr. cbn [andb lookup].
  destruct (lookup "tag" typed) as [t |] eqn:E; [| reflexivity].
  apply lookup_In in E. destruct (Hall _ _ E) as [Hi _].
  rewrite rewritten_value_plain, Hr by exact Hi. cbn [andb].
  destruct t; reflexivity.
Qed.

Lemma has_tag_after (typed : fields) :
  retagged imageName newVersion typed = false ->
  has_key "tag" (after typed) = has_key "tag" typed.
Proof.
  intros Hr. unfold rewritten_extra. rewrite Hr. cbn [andb].
  rewrite app_nil_r. unfold has_key. rewrite map_map. reflexivity.
Qed.

(** It leaves what another image's update has to retag. *)
Lemma retagged_after (other version : string) (typed : fields) :
  imageName <> other ->
  plain imageName (Mapping typed) = true ->
  retagged other version (after typed) = retagged other version typed.
Proof.
  intros Hne Hp. rewrite !retagged_repository, repository_after by exact Hp.
  destruct (repository_of typed) as [repo |] eqn:E; [| reflexivity].
  destruct (String.eqb_spec repo other) as [-> | Hno]; [| reflexivity].
  cbn [andb]. rewrite tag_of_after; auto.
  rewrite retagged_repository, E.
  apply String.eqb_neq in Hne. rewrite String.eqb_sym, Hne. reflexivity.
Qed.

Lemma retagged_exclusive (other version : string) (typed : fields) :
  imageName <> other ->
  retagged imageName newVersion typed = true ->
  retagged other version typed = false.
Proof.
  intros Hne. rewrite !retagged_repository.
  destruct (repository_of typed) as [repo |]; [| discriminate].
  destruct (String.eqb_spec repo imageName) as [-> | Hno]; [| discriminate].
  intros _. apply String.eqb_neq in Hne. rewrite Hne. reflexivity.
Qed.

(** It keeps a tree plain for every image for which it was, its own
    included. *)
Lemma plain_after (other : string) (n : node) :
  plain imageName n = true ->
  plain other n = true ->
  plain other (rw n) = true.
Proof.
  induction n as [| b | literal | s | items IH | typed IH] using node_ind;
    intros Hp Ho; try reflexivity.
  - cbn [rewritten plain] in *. rewrite forallb_forall in *.
    intros y Hy. apply in_map_iff in Hy as (x & <- & Hx).
    rewrite Forall_forall in IH. apply IH; auto.
  - rewrite rewritten_Mapping. apply plain_Mapping.
    pose proof Hp as Hp'. apply plain_Mapping in Hp' as [_ Hall].
    pose proof Ho as Ho'. apply plain_Mapping in Ho' as [Hs Hallo].
    rewrite Forall_forall in IH. split.
    + unfold scalar_tag in *.
      fold (repository_of (after typed)).
      change (match lookup "repository" (after typed) with
              | Some (Str repo) =>
                  match lookup "tag" (after typed) with
                  | Some t => negb (String.eqb repo other && is_container t)
                  | None => true
                  end
              | _ => true
              end = true).
      assert (Hrepo : forall repo,
                 lookup "repository" (after typed) = Some (Str repo) ->
                 lookup "repository" typed = Some (Str repo)).
      { intros repo H. pose proof (repository_after typed Hp) as E.
        unfold repository_of in E. rewrite H in E.
        destruct (lookup "repository" typed) as [[| | | r | |] |];
          congruence. }
      destruct (lookup "repository" (after typed)) as [[| | | repo | |] |]
        eqn:E; try reflexivity.
      rewrite (Hrepo repo eq_refl) in Hs.
      rewrite lookup_rewritten.
      destruct (lookup "tag" typed) as [t |] eqn:Et.
      * apply lookup_In in Et. destruct (Hall _ _ Et) as [Hi _].
        rewrite rewritten_value_plain by exact Hi.
        destruct (retagged imageName newVersion typed && String.eqb "tag" "tag").
        -- cbn [is_container]. rewrite andb_false_r. reflexivity.
        -- rewrite is_container_rewritten. exact Hs.
      * unfold rewritten_extra.
        destruct (retagged imageName newVersion typed
                  && negb (has_key "tag" typed)); cbn [lookup]; auto.
        rewrite String.eqb_refl. cbn [is_container].
        rewrite andb_false_r. reflexivity.
    + intros k y Hin. apply in_app_iff in Hin as [Hin | Hin].
      * apply in_map_iff in Hin as ([k' x] & [= <- <-] & Hx).
        destruct (Hall _ _ Hx) as [Hi Hpx].
        destruct (Hallo _ _ Hx) as [Hio Hpo].
        rewrite rewritten_value_plain by exact Hi.
        destruct (_ && _).
        -- split; [apply new_version_not_inline | reflexivity].
        -- rewrite is_inline_rewritten. split; [exact Hio |].
           apply (IH (k', x) Hx); assumption.
      * unfold rewritten_extra in Hin.
        destruct (_ && _); [| destruct Hin].
        destruct Hin as [[= <- <-] | []].
        split; [apply new_version_not_inline | reflexivity].
Qed.

(** It leaves what another image's call will report. *)
Lemma pending_after (other version : string) (n : node) :
  imageName <> other ->
  well_keyed n = true ->
  plain imageName n = true ->
  plain other n = true ->
  pending other version (rw n) = pending other version n.
Proof.
  intros Hne.
  induction n as [| b | literal | s | items IH | typed IH] using node_ind;
    intros Hwf Hp Ho; try reflexivity.
  - cbn [rewritten pending plain] in *. rewrite existsb_map.
    rewrite forallb_forall in *. rewrite Forall_forall in IH.
    apply existsb_ext_In. intros x Hx. apply IH; auto.
    apply (proj1 (well_keyed_Seq items) Hwf). exact Hx.
  - apply well_keyed_Mapping in Hwf as [Hnd Hwf].
    rewrite rewritten_Mapping. cbn [pending].
    rewrite retagged_after by assumption. f_equal.
    pose proof Hp as Hp'. apply plain_Mapping in Hp' as [Hs Hall].
    pose proof Ho as Ho'. apply plain_Mapping in Ho' as [_ Hallo].
    rewrite Forall_forall in IH.
    rewrite existsb_app, existsb_map.
    assert (Hextra : existsb
                       (fun kv => stale_inline other version (snd kv)
                                  || pending other version (snd kv))
                       (rewritten_extra imageName newVersion typed) = false).
    { unfold rewritten_extra. destruct (_ && _); [| reflexivity].
      cbn [existsb snd pending]. 
      rewrite (stale_not_inline _ _ _ (new_version_not_inline other)).
      reflexivity. }
    rewrite Hextra, orb_false_r.
    apply existsb_ext_In. intros [k x] Hx. cbn [fst snd].
    destruct (Hall _ _ Hx) as [Hi Hpx].
    destruct (Hallo _ _ Hx) as [Hio Hpo].
    rewrite rewritten_value_plain by exact Hi.
    rewrite (stale_not_inline other version x Hio).
    destruct (retagged imageName newVersion typed && String.eqb k "tag")
      eqn:Et.
    + cbn [pending].
      rewrite (stale_not_inline _ _ _ (new_version_not_inline other)).
      cbn [orb]. symmetry. apply pending_scalar.
      apply andb_true_iff in Et as [Hr Hk]. apply String.eqb_eq in Hk.
      subst k. pose proof (In_lookup _ _ _ Hnd Hx) as Hl.
      unfold scalar_tag in Hs. rewrite Hl in Hs.
      unfold retagged in Hr.
      destruct (lookup "repository" typed) as [[| | | repo | |] |];
        try discriminate.
      apply andb_true_iff in Hr as [Hr _]. rewrite Hr in Hs.
      cbn [andb] in Hs. apply negb_true_iff in Hs. exact Hs.
    + rewrite (stale_not_inline other version _)
        by (rewrite is_inline_rewritten; exact Hio).
      cbn [orb]. apply (IH (k, x) Hx); auto. eapply Hwf. eauto.
Qed.

End OneImage.


(** Two calls, for two images, one after the other. *)
Lemma rewritten_twice (imageName newVersion other version : string)
  (typed : fields) :
  isValidSemver newVersion = true ->
  imageName <> other ->
  plain imageName (Mapping typed) = true ->
  plain other (Mapping typed) = true ->
  rewritten other version (rewritten imageName newVersion (Mapping typed))
  = Mapping
      (map (fun kv =>
              (fst kv,
               if retagged imageName newVersion typed
                  && String.eqb (fst kv) "tag"
               then Str newVersion
               else if retagged other version typed
                       && String.eqb (fst kv) "tag"
               then Str version
               else rewritten other version
                      (rewritten imageName newVersion (snd kv))))
           typed
       ++ rewritten_extra imageName newVersion typed
       ++ rewritten_extra other version typed).
Proof.
  intros Hvalid Hne Hp Ho.
  pose proof Hp as Hp'. apply plain_Mapping in Hp' as [_ Hall].
  pose proof Ho as Ho'. apply plain_Mapping in Ho' as [_ Hallo].
  rewrite (rewritten_Mapping imageName), (rewritten_Mapping other).
  rewrite map_app, map_map, <- app_assoc. do 2 f_equal; [| f_equal].
  - apply map_ext_in. intros [k x] Hx. cbn [fst snd].
    destruct (Hall _ _ Hx) as [Hi _]. destruct (Hallo _ _ Hx) as [Hio _].
    f_equal. rewrite (rewritten_value_plain imageName) by exact Hi.
    rewrite rewritten_value_plain, retagged_after; auto.
    + destruct (retagged imageName newVersion typed) eqn:Er; cbn [andb];
        [| reflexivity].
      rewrite (retagged_exclusive imageName newVersion other version typed)
        by assumption.
      destruct (String.eqb k "tag"); reflexivity.
    + destruct (_ && _);
        [apply new_version_not_inline; exact Hvalid
        | rewrite is_inline_rewritten; exact Hio].
  - unfold rewritten_extra at 2 3.
    destruct (retagged imageName newVersion typed) eqn:Er; cbn [andb];
      [| reflexivity].
    destruct (negb (has_key "tag" typed)); [| reflexivity].
    cbn [map fst]. rewrite rewritten_value_plain, retagged_after;
      [| assumption | assumption | apply new_version_not_inline; exact Hvalid].
    rewrite (retagged_exclusive imageName newVersion other version typed)
      by assumption.
    reflexivity.
  - unfold rewritten_extra at 1 3. rewrite retagged_after by assumption.
    destruct (retagged other version typed) eqn:Er; cbn [andb];
      [| reflexivity].
    rewrite has_tag_after; [reflexivity |].
    destruct (retagged imageName newVersion typed) eqn:Er'; [| reflexivity].
    rewrite (retagged_exclusive imageName newVersion other version typed)
      in Er by assumption.
    discriminate.
Qed.

(** The calls for two images can be swapped. *)
Lemma rewritten_commute (imageName newVersion other version : string)
  (n : node) :
  isValidSemver newVersion = true ->
  isValidSemver version = true ->
  imageName <> other ->
  plain imageName n = true ->
  plain other n = true ->
  rewritten other version (rewritten imageName newVersion n)
  = rewritten imageName newVersion (rewritten other version n).
Proof.
  intros Hvalid Hvalid' Hne.
  induction n as [| b | literal | s | items IH | typed IH] using node_ind;
    intros Hp Ho; try reflexivity.
  - cbn [rewritten plain] in *. rewrite !map_map. f_equal.
    rewrite forallb_forall in *. rewrite Forall_forall in IH.
    apply map_ext_in. intros x Hx. apply IH; auto.
  - rewrite (rewritten_twice imageName newVersion other version),
            (rewritten_twice other version imageName newVersion);
      auto.
    pose proof Hp as Hp'. apply plain_Mapping in Hp' as [_ Hall].
    pose proof Ho as Ho'. apply plain_Mapping in Ho' as [_ Hallo].
    rewrite Forall_forall in IH.
    assert (Hex : retagged imageName newVersion typed = true ->
                  retagged other version typed = false)
      by (apply retagged_exclusive; exact Hne).
    do 2 f_equal.
    + apply map_ext_in. intros [k x] Hx. cbn [fst snd]. f_equal.
      destruct (Hall _ _ Hx) as [_ Hpx]. destruct (Hallo _ _ Hx) as [_ Hpo].
      pose proof (IH (k, x) Hx Hpx Hpo) as E. cbn [snd] in E. rewrite E.
      destruct (retagged imageName newVersion typed);
        [rewrite Hex by reflexivity |]; cbn [andb];
        destruct (retagged other version typed); cbn [andb];
        destruct (String.eqb k "tag"); reflexivity.
    + unfold rewritten_extra.
      destruct (retagged imageName newVersion typed);
        [rewrite Hex by reflexivity |]; cbn [andb];
        rewrite ?app_nil_r; reflexivity.
Qed.

(** What a call leaves and reports, read off the tree. *)
Lemma universal_step (values : fields) (imageName newVersion : string) :
  well_keyed (Mapping values) = true ->
  let r := BumpTagInValuesUniversal values imageName newVersion false in
  Mapping (values_after r)
  = (if isValidSemver newVersion
     then rewritten imageName newVersion (Mapping values)
     else Mapping values) /\
  changed r
  = pending imageName newVersion (Mapping values) && isValidSemver newVersion.
Proof.
  intros Hwf r. subst r. split.
  - destruct (isValidSemver newVersion) eqn:Hv.
    + apply values_after_rewritten; assumption.
    + destruct (universal_invalid values imageName newVersion false Hv)
        as (_ & _ & ->).
      reflexivity.
  - rewrite changed_universal by exact Hwf.
    unfold findImageBlocksUniversal. rewrite pending_walk by exact Hwf.
    reflexivity.
Qed.

(** A call keeps the keys unique, keeps the tree plain, and leaves what
    the call for another image reports. *)
Lemma universal_step_keeps (values : fields) (imageName newVersion : string)
  (dryRun : bool) :
  well_keyed (Mapping values) = true ->
  plain imageName (Mapping values) = true ->
  let after :=
    values_after (BumpTagInValuesUniversal values imageName newVersion dryRun)
  in
  well_keyed (Mapping after) = true /\
  forall other,
    plain other (Mapping values) = true ->
    plain other (Mapping after) = true /\
    forall version,
      imageName <> other ->
      changed (BumpTagInValuesUniversal after other version dryRun)
      = changed (BumpTagInValuesUniversal values other version dryRun).
Proof.
  intros Hwf Hp after. subst after. destruct dryRun.
  - rewrite (proj1 (universal_dry values imageName newVersion)). auto.
  - destruct (universal_step values imageName newVersion Hwf) as [E _].
    destruct (isValidSemver newVersion) eqn:Hv.
    + rewrite E. split; [apply rewritten_well_keyed; exact Hwf |].
      intros other Ho. split; [apply plain_after; assumption |].
      intros version Hne.
      assert (Hwf' : well_keyed
                       (Mapping (values_after
                                   (BumpTagInValuesUniversal values imageName
                                      newVersion false))) = true).
      { rewrite E. apply rewritten_well_keyed. exact Hwf. }
      rewrite (proj2 (universal_step _ other version Hwf')).
      rewrite (proj2 (universal_step _ other version Hwf)).
      rewrite E, pending_after by assumption. reflexivity.
    + injection E as E. rewrite E. auto.
Qed.

(** Two calls for two images leave the same tree in either order. *)
Lemma universal_step_commute (values : fields)
  (imageName newVersion other version : string) (dryRun : bool) :
  imageName <> other ->
  well_keyed (Mapping values) = true ->
  plain imageName (Mapping values) = true ->
  plain other (Mapping values) = true ->
  values_after
    (BumpTagInValuesUniversal
       (values_after
          (BumpTagInValuesUniversal values imageName newVersion dryRun))
       other version dryRun)
  = values_after
      (BumpTagInValuesUniversal
         (values_after (BumpTagInValuesUniversal values other version dryRun))
         imageName newVersion dryRun).
Proof.
  intros Hne Hwf Hp Ho. destruct dryRun.
  - rewrite !(proj1 (universal_dry _ _ _)). reflexivity.
  - destruct (universal_step_keeps values imageName newVersion false Hwf Hp)
      as [Hwf1 _].
    destruct (universal_step_keeps values other version false Hwf Ho)
      as [Hwf2 _].
    cbv zeta in Hwf1, Hwf2.
    pose proof (proj1 (universal_step _ other version Hwf1)) as E12.
    pose proof (proj1 (universal_step _ imageName newVersion Hwf2)) as E21.
    pose proof (proj1 (universal_step _ imageName newVersion Hwf)) as E1.
    pose proof (proj1 (universal_step _ other version Hwf)) as E2.
    cbv zeta in E12, E21, E1, E2.
    rewrite E1 in E12. rewrite E2 in E21.
    assert (E : Mapping
                  (values_after
                     (BumpTagInValuesUniversal
                        (values_after
                           (BumpTagInValuesUniversal values imageName
                              newVersion false))
                        other version false))
                = Mapping
                    (values_after
                       (BumpTagInValuesUniversal
                          (values_after
                             (BumpTagInValuesUniversal values other version
                                false))
                          imageName newVersion false))).
    { rewrite E12, E21.
      destruct (isValidSemver newVersion) eqn:Hv,
               (isValidSemver version) eqn:Hv'; try reflexivity.
      apply rewritten_commute; assumption. }
    injection E as E. exact E.
Qed.

(** X24. For images held in the structured convention only, what the
    update loop returns does not depend on the order in which [range]
    takes the updates. When the tree has unique keys, the updates name
    each image once (they are the entries of a Go map), and for every
    image asked for the tree holds no string that starts with the image
    name and a colon and no map or slice under the [tag] of a block of
    the image, then any two orders of the updates give the same count and
    the same tree. *)
Theorem update_order_irrelevant
  (values : fields) (updates updates' : list (string * string))
  (dryRun : bool) (count : nat) :
  Permutation updates updates' ->
  well_keyed (Mapping values) = true ->
  NoDup (map fst updates) ->
  (forall imageName newVersion,
     In (imageName, newVersion) updates ->
     plain imageName (Mapping values) = true) ->
  universal_updates values updates dryRun count
  = universal_updates values updates' dryRun count.
Proof.
  intros Hperm. rewrite !universal_updates_update_loop.
  revert values count.
  induction Hperm as [| [img v] l l' Hperm IH
                      | [img v] [img' v'] l
                      | l l' l'' H1 IH1 H2 IH2];
    intros values count Hwf Hnd Hall.
  - reflexivity.
  - cbn [update_loop]. rewrite universal_err.
    cbn [map fst] in Hnd. inversion Hnd as [| ? ? Hnot Hnd']; subst.
    destruct (universal_step_keeps values img v dryRun Hwf) as [Hwf' Hk].
    { apply (Hall img v). simpl. auto. }
    apply IH; auto.
    intros other version Hin.
    apply (Hk other). apply (Hall other version). simpl. auto.
  - cbn [update_loop]. rewrite !universal_err.
    cbn [map fst] in Hnd. inversion Hnd as [| ? ? Hnot Hnd']; subst.
    assert (Hne : img <> img').
    { intros ->. apply Hnot. simpl. auto. }
    assert (Hp : plain img (Mapping values) = true).
    { apply (Hall img v). simpl. auto. }
    assert (Hp' : plain img' (Mapping values) = true).
    { apply (Hall img' v'). simpl. auto. }
    destruct (universal_step_keeps values img v dryRun Hwf Hp) as [_ Hk].
    destruct (universal_step_keeps values img' v' dryRun Hwf Hp') as [_ Hk'].
    rewrite (proj2 (Hk img' Hp') v' Hne).
    rewrite (proj2 (Hk' img Hp) v (not_eq_sym Hne)).
    rewrite (universal_step_commute values img v img' v' dryRun Hne Hwf Hp Hp').
    destruct (changed (BumpTagInValuesUniversal values img v dryRun)),
             (changed (BumpTagInValuesUniversal values img' v' dryRun));
      reflexivity.
  - rewrite IH1 by assumption. apply IH2.
    + exact Hwf.
    + eapply Permutation_NoDup; [apply Permutation_map; exact H1 | exact Hnd].
    + intros img v Hin. apply (Hall img v).
      eapply Permutation_in; [apply Permutation_sym; exact H1 | exact Hin].
Qed.

Lemma update_order_irrelevant_witness :
  universal_updates multiple_bump_values
    [("busybox", "1.46.0"); ("alpine", "6.0.0")] false 0
  = universal_updates multiple_bump_values
      [("alpine", "6.0.0"); ("busybox", "1.46.0")] false 0.
Proof.
  apply (update_order_irrelevant multiple_bump_values
           [("busybox", "1.46.0"); ("alpine", "6.0.0")]
           [("alpine", "6.0.0"); ("busybox", "1.46.0")] false 0).
  - apply perm_swap.
  - reflexivity.
  - repeat constructor; simpl; intuition discriminate.
  - intros imageName newVersion [[= <- <-] | [[= <- <-] | []]]; reflexivity.
Defined.

(** X25. The boolean of [BumpTagInValuesUniversal], read off the tree it
    receives: on a tree with unique keys the call returns [true] exactly
    when the version passes validation and, somewhere in the tree, a
    mapping has [imageName] as its [repository] and something else than
    the version as its [tag], or a mapping holds a string that starts
    with [imageName:] and ends, after its last colon, in something else
    than the version. *)
Theorem changed_read_off_tree
  (values : fields) (imageName newVersion : string) (dryRun : bool) :
  well_keyed (Mapping values) = true ->
  changed (BumpTagInValuesUniversal values imageName newVersion dryRun)
  = pending imageName newVersion (Mapping values) && isValidSemver newVersion.
Proof.
  intros Hwf. rewrite changed_universal by exact Hwf.
  unfold findImageBlocksUniversal. rewrite pending_walk by exact Hwf.
  reflexivity.
Qed.

Lemma changed_read_off_tree_witness :
  changed (BumpTagInValuesUniversal multiple_bump_values "alpine" "5.99.9"
             false)
  = false /\
  changed (BumpTagInValuesUniversal multiple_bump_values "alpine" "6.0.0"
             true)
  = true.
Proof.
  split.
  - exact (changed_read_off_tree multiple_bump_values "alpine" "5.99.9"
             false eq_refl).
  - exact (changed_read_off_tree multiple_bump_values "alpine" "6.0.0"
             true eq_refl).
Defined.
